(** * schema.gov.it MCP server: the query pipeline of [src/index.ts]

    A shallow embedding of the pipeline functions of [index.ts]
    ([sanitizeSparqlString], [executeSparql], [compressSparqlResult],
    [truncateResult], [executeTool], [executeSparqlTool] and the handlers
    of the tools that join several queries: [explore_catalog],
    [list_datasets], [explore_dataset], [inspect_concept],
    [suggest_improvements], [browse_vocabulary], [list_municipalities] and
    [list_provinces]) together with the properties the specification states
    about them.

    Conventions of the embedding.
    - A JavaScript string is a [string]: a sequence of code units, one
      [ascii] per unit (the Latin-1 range of UTF-16).
    - A JavaScript number is an integer of [Z], [NaN] or an infinity;
      lengths, offsets and counts are [Z], as [String.prototype.length] and
      [slice] have them. A number that is read or computed is rounded to the
      nearest double ([to_Number]). Accordingly the JSON of this file has
      integer literals only.
    - A JavaScript object is the list of its own properties, in the order
      of its own keys. An object of an answer, which [JSON.parse] has made,
      is read by its own keys, by the keys that the code names, none of
      them a name of [Object.prototype], and, for the table of a large
      result, under a declared variable for its [value], which no member of
      [Object.prototype] has. An object literal that the code fills under
      keys that come from an answer is read and written as such an object
      is, with what it inherits ([property_get], [assign]).
    - A promise is its settlement: fulfilled, rejected, or never settled.
    - What the host decides (the text of the errors the engine throws, the
      collation of [localeCompare]) is a field of the class [Host]. *)

From Stdlib Require Import ZArith Lia List Ascii String Bool.
From stdpp Require Import base option list strings pretty.

Local Open Scope string_scope.
Local Open Scope Z_scope.
Local Open Scope list_scope.

#[local] Arguments String.append !_ _ / : simpl nomatch.

(* ===================================================================== *)
(** * Part I: the program                                                 *)
(* ===================================================================== *)

(** ** Strings *)

Module JsString.

Definition backslash : ascii := "092"%char.
Definition dquote : ascii := "034"%char.
Definition LF : ascii := "010"%char.
Definition CR : ascii := "013"%char.
Definition rbrace : ascii := "}"%char.

(** [s.length] *)
Definition length (s : string) : Z := Z.of_nat (String.length s).

Fixpoint take (n : nat) (s : string) : string :=
  match n, s with
  | S n', String c s' => String c (take n' s')
  | _, _ => EmptyString
  end.

Fixpoint drop (n : nat) (s : string) : string :=
  match n, s with
  | S n', String _ s' => drop n' s'
  | _, _ => s
  end.

(** The relative index of [slice]: a negative index counts from the end,
    and both ends are clamped to the string. *)
Definition clamp (len i : Z) : Z :=
  if i <? 0 then Z.max (len + i) 0 else Z.min i len.

(** [s.slice(from, to)] *)
Definition slice (s : string) (from to : Z) : string :=
  let len := length s in
  let a := clamp len from in
  let b := clamp len to in
  take (Z.to_nat (b - a)) (drop (Z.to_nat a) s).

(** [s.lastIndexOf(c)] for a search string of one code unit: the greatest
    index holding [c], or [-1]. *)
Fixpoint lastIndexOf_from (i : Z) (last : Z) (c : ascii) (s : string) : Z :=
  match s with
  | EmptyString => last
  | String a s' =>
      lastIndexOf_from (i + 1) (if Ascii.eqb a c then i else last) c s'
  end.

Definition lastIndexOf (s : string) (c : ascii) : Z :=
  lastIndexOf_from 0 (-1) c s.

(** [s.replace(/c/g, r)] for a pattern of one code unit and a replacement
    without [$]. *)
Fixpoint replaceAll (c : ascii) (r : string) (s : string) : string :=
  match s with
  | EmptyString => EmptyString
  | String a s' =>
      if Ascii.eqb a c then r +:+ replaceAll c r s'
      else String a (replaceAll c r s')
  end.

(** [s ? ... : ...] on a string: the empty string is falsy. *)
Definition truthy (s : string) : bool :=
  match s with EmptyString => false | _ => true end.

End JsString.

Import JsString.

(** ** Input sanitizer (index.ts, lines 108-111) *)

Definition sanitizeSparqlString (input : string) : string :=
  replaceAll CR (String backslash "r")
    (replaceAll LF (String backslash "n")
       (replaceAll dquote (String backslash (String dquote EmptyString))
          (replaceAll backslash (String backslash (String backslash EmptyString))
             input))).

(** The inverse rule of the specification (section 8): read the escaped
    text from the left; a backslash and the unit after it stand for one
    unit (backslash-backslash a backslash, backslash-quote a quote,
    backslash-n a line feed, backslash-r a carriage return), every other
    unit stands for itself. *)
Definition unescape_unit (c : ascii) : ascii :=
  if Ascii.eqb c "n"%char then LF
  else if Ascii.eqb c "r"%char then CR
  else c.

Fixpoint unescapeLiteral (s : string) : string :=
  match s with
  | EmptyString => EmptyString
  | String c rest =>
      if Ascii.eqb c backslash then
        match rest with
        | EmptyString => String c EmptyString
        | String d rest' => String (unescape_unit d) (unescapeLiteral rest')
        end
      else String c (unescapeLiteral rest)
  end.

(** What the four passes together do to one code unit; the passes are
    shown to amount to this in [sanitize_by_unit]. *)
Definition escape_unit (c : ascii) : string :=
  if Ascii.eqb c backslash then String backslash (String backslash EmptyString)
  else if Ascii.eqb c dquote then String backslash (String dquote EmptyString)
  else if Ascii.eqb c LF then String backslash "n"
  else if Ascii.eqb c CR then String backslash "r"
  else String c EmptyString.

Fixpoint concat_map (f : ascii -> string) (s : string) : string :=
  match s with
  | EmptyString => EmptyString
  | String c s' => f c +:+ concat_map f s'
  end.

(** ** JavaScript values and JSON *)

#[local] Set Warnings "-register-all,-notation-for-abbreviation".

Inductive number :=
| NaN
| Int (z : Z)
| Infinity (negative : bool).

Inductive jsval :=
| JUndefined
| JNull
| JBool (b : bool)
| JNum (n : number)
| JStr (s : string)
| JArr (vs : list jsval)
| JObj (kvs : list (string * jsval)).

(** An object as an insertion-ordered list of its own properties. *)
Fixpoint obj_get {V : Type} (k : string) (o : list (string * V)) : option V :=
  match o with
  | [] => None
  | (k', v) :: o' => if String.eqb k k' then Some v else obj_get k o'
  end.

(** [o[k] = v]: an existing property keeps its place, a new one goes last. *)
Fixpoint obj_set {V : Type} (k : string) (v : V) (o : list (string * V))
  : list (string * V) :=
  match o with
  | [] => [(k, v)]
  | (k', v') :: o' =>
      if String.eqb k k' then (k, v) :: o' else (k', v') :: obj_set k v o'
  end.

Module Json.

Definition TAB : ascii := "009"%char.

Definition hex_digit (n : N) : ascii :=
  match n with
  | 0 => "0" | 1 => "1" | 2 => "2" | 3 => "3" | 4 => "4" | 5 => "5"
  | 6 => "6" | 7 => "7" | 8 => "8" | 9 => "9" | 10 => "a" | 11 => "b"
  | 12 => "c" | 13 => "d" | 14 => "e" | _ => "f"
  end%N%char.

(** QuoteJSONString, one code unit. *)
Definition quote_unit (c : ascii) : string :=
  if Ascii.eqb c dquote then String backslash (String dquote EmptyString)
  else if Ascii.eqb c backslash then String backslash (String backslash EmptyString)
  else if Ascii.eqb c "008"%char then String backslash "b"
  else if Ascii.eqb c "012"%char then String backslash "f"
  else if Ascii.eqb c LF then String backslash "n"
  else if Ascii.eqb c CR then String backslash "r"
  else if Ascii.eqb c TAB then String backslash "t"
  else if (N_of_ascii c <? 32)%N then
    String backslash
      (String "u" (String "0" (String "0"
         (String (hex_digit (N_of_ascii c / 16))
            (String (hex_digit (N_of_ascii c mod 16)) EmptyString)))))
  else String c EmptyString.

Definition quote (s : string) : string :=
  String dquote (concat_map quote_unit s +:+ String dquote EmptyString).

Fixpoint join (sep : string) (l : list string) : string :=
  match l with
  | [] => EmptyString
  | [x] => x
  | x :: l' => x +:+ sep +:+ join sep l'
  end.

(** Number::toString on the integers. *)
Definition number_to_string (z : Z) : string := pretty z.

(** [JSON.stringify(v)]; [None] is the result [undefined]. An [undefined]
    array element is written [null], an [undefined] property is left out,
    and [NaN] and the infinities are written [null]. *)
Fixpoint stringify (v : jsval) : option string :=
  match v with
  | JUndefined => None
  | JNull => Some "null"
  | JBool true => Some "true"
  | JBool false => Some "false"
  | JNum NaN => Some "null"
  | JNum (Int z) => Some (number_to_string z)
  | JNum (Infinity _) => Some "null"
  | JStr s => Some (quote s)
  | JArr vs =>
      Some ("[" +:+
            join ","
              ((fix elements (l : list jsval) : list string :=
                  match l with
                  | [] => []
                  | x :: l' => default "null" (stringify x) :: elements l'
                  end) vs) +:+ "]")
  | JObj kvs =>
      Some ("{" +:+
            join ","
              ((fix members (l : list (string * jsval)) : list string :=
                  match l with
                  | [] => []
                  | (k, x) :: l' =>
                      match stringify x with
                      | Some t => (quote k +:+ ":" +:+ t) :: members l'
                      | None => members l'
                      end
                  end) kvs) +:+ "}")
  end.

Definition stringify_elements (l : list jsval) : list string :=
  map (fun x => default "null" (stringify x)) l.

Fixpoint stringify_members (l : list (string * jsval)) : list string :=
  match l with
  | [] => []
  | (k, x) :: l' =>
      match stringify x with
      | Some t => (quote k +:+ ":" +:+ t) :: stringify_members l'
      | None => stringify_members l'
      end
  end.

(** *** [JSON.parse]

    A recursive-descent reader of the JSON grammar over this value model:
    numbers are the integer literals (a fraction or an exponent is not
    read), and a [\u] escape must name a unit of the Latin-1 range. The
    fuel bounds the depth of the descent; [parse] gives enough of it
    ([stringify_parses], [parse_fuel_enough]). *)

Definition is_ws (c : ascii) : bool :=
  Ascii.eqb c " "%char || Ascii.eqb c TAB || Ascii.eqb c LF || Ascii.eqb c CR.

Fixpoint skip_ws (s : string) : string :=
  match s with
  | String c r => if is_ws c then skip_ws r else s
  | EmptyString => EmptyString
  end.

Definition digit_of (c : ascii) : option Z :=
  let n := Z.of_N (N_of_ascii c) in
  if (48 <=? n) && (n <=? 57) then Some (n - 48) else None.

Definition hex_of (c : ascii) : option N :=
  let n := N_of_ascii c in
  if (48 <=? n)%N && (n <=? 57)%N then Some (n - 48)%N
  else if (97 <=? n)%N && (n <=? 102)%N then Some (n - 87)%N
  else if (65 <=? n)%N && (n <=? 70)%N then Some (n - 55)%N
  else None.

Fixpoint parse_digits (acc : Z) (s : string) : Z * string :=
  match s with
  | String c r =>
      match digit_of c with
      | Some d => parse_digits (10 * acc + d) r
      | None => (acc, s)
      end
  | EmptyString => (acc, EmptyString)
  end.

(** [0], or a non-zero digit and the digits after it. *)
Definition parse_nat (s : string) : option (Z * string) :=
  match s with
  | String c r =>
      match digit_of c with
      | Some 0 => Some (0, r)
      | Some d => Some (parse_digits d r)
      | None => None
      end
  | EmptyString => None
  end.

Definition parse_number (s : string) : option (jsval * string) :=
  match s with
  | String c r =>
      if Ascii.eqb c "-"%char
      then match parse_nat r with
           | Some (n, r') => Some (JNum (Int (- n)), r')
           | None => None
           end
      else match parse_nat s with
           | Some (n, r') => Some (JNum (Int n), r')
           | None => None
           end
  | EmptyString => None
  end.

(** The rest of [s] after the literal [lit], if [s] starts with it. *)
Fixpoint strip_prefix (lit s : string) : option string :=
  match lit, s with
  | EmptyString, _ => Some s
  | String a lit', String b s' =>
      if Ascii.eqb a b then strip_prefix lit' s' else None
  | String _ _, EmptyString => None
  end.

Definition unescape_simple (e : ascii) : option ascii :=
  if Ascii.eqb e dquote then Some dquote
  else if Ascii.eqb e backslash then Some backslash
  else if Ascii.eqb e "/"%char then Some "/"%char
  else if Ascii.eqb e "b"%char then Some "008"%char
  else if Ascii.eqb e "f"%char then Some "012"%char
  else if Ascii.eqb e "n"%char then Some LF
  else if Ascii.eqb e "r"%char then Some CR
  else if Ascii.eqb e "t"%char then Some TAB
  else None.

Definition unescape_hex (h1 h2 h3 h4 : ascii) : option ascii :=
  match hex_of h1, hex_of h2, hex_of h3, hex_of h4 with
  | Some 0%N, Some 0%N, Some a, Some b => Some (ascii_of_N (16 * a + b))
  | _, _, _, _ => None
  end.

Definition prepend (c : ascii) (r : option (string * string))
  : option (string * string) :=
  match r with
  | Some (str, rest) => Some (String c str, rest)
  | None => None
  end.

(** The string after its opening quote: its units and the text after the
    closing quote. *)
Fixpoint parse_string (s : string) : option (string * string) :=
  match s with
  | EmptyString => None
  | String c rest =>
      if Ascii.eqb c dquote then Some (EmptyString, rest)
      else if Ascii.eqb c backslash then
        match rest with
        | EmptyString => None
        | String e rest' =>
            if Ascii.eqb e "u"%char then
              match rest' with
              | String h1 (String h2 (String h3 (String h4 rest''))) =>
                  match unescape_hex h1 h2 h3 h4 with
                  | Some u => prepend u (parse_string rest'')
                  | None => None
                  end
              | _ => None
              end
            else
              match unescape_simple e with
              | Some u => prepend u (parse_string rest')
              | None => None
              end
        end
      else if (N_of_ascii c <? 32)%N then None
      else prepend c (parse_string rest)
  end.

(** One value, given the readers of the elements and of the members of
    what it may contain. *)
Definition parse_value_with
  (elements : string -> option (list jsval * string))
  (members : string -> option (list (string * jsval) * string))
  (s : string) : option (jsval * string) :=
  match s with
  | EmptyString => None
  | String c rest =>
      if Ascii.eqb c "n"%char then
        match strip_prefix "ull" rest with
        | Some r => Some (JNull, r) | None => None end
      else if Ascii.eqb c "t"%char then
        match strip_prefix "rue" rest with
        | Some r => Some (JBool true, r) | None => None end
      else if Ascii.eqb c "f"%char then
        match strip_prefix "alse" rest with
        | Some r => Some (JBool false, r) | None => None end
      else if Ascii.eqb c dquote then
        match parse_string rest with
        | Some (str, r) => Some (JStr str, r) | None => None end
      else if Ascii.eqb c "["%char then
        match skip_ws rest with
        | String d r =>
            if Ascii.eqb d "]"%char then Some (JArr [], r)
            else match elements (String d r) with
                 | Some (vs, r') => Some (JArr vs, r')
                 | None => None
                 end
        | EmptyString => None
        end
      else if Ascii.eqb c "{"%char then
        match skip_ws rest with
        | String d r =>
            if Ascii.eqb d "}"%char then Some (JObj [], r)
            else match members (String d r) with
                 | Some (kvs, r') =>
                     Some (JObj (fold_left
                                   (fun o kv => obj_set (fst kv) (snd kv) o)
                                   kvs []), r')
                 | None => None
                 end
        | EmptyString => None
        end
      else parse_number s
  end.

(** The elements of an array from the first one to the closing bracket. *)
Definition parse_elements_with
  (value : string -> option (jsval * string))
  (elements : string -> option (list jsval * string))
  (s : string) : option (list jsval * string) :=
  match value s with
  | Some (v, r) =>
      match skip_ws r with
      | String d r' =>
          if Ascii.eqb d ","%char then
            match elements (skip_ws r') with
            | Some (vs, r'') => Some (v :: vs, r'')
            | None => None
            end
          else if Ascii.eqb d "]"%char then Some ([v], r')
          else None
      | EmptyString => None
      end
  | None => None
  end.

(** The members of an object from the first key to the closing brace. *)
Definition parse_members_with
  (value : string -> option (jsval * string))
  (members : string -> option (list (string * jsval) * string))
  (s : string) : option (list (string * jsval) * string) :=
  match s with
  | String q r0 =>
      if Ascii.eqb q dquote then
        match parse_string r0 with
        | Some (k, r1) =>
            match skip_ws r1 with
            | String d r2 =>
                if Ascii.eqb d ":"%char then
                  match value (skip_ws r2) with
                  | Some (v, r3) =>
                      match skip_ws r3 with
                      | String d' r4 =>
                          if Ascii.eqb d' ","%char then
                            match members (skip_ws r4) with
                            | Some (kvs, r5) => Some ((k, v) :: kvs, r5)
                            | None => None
                            end
                          else if Ascii.eqb d' "}"%char then Some ([(k, v)], r4)
                          else None
                      | EmptyString => None
                      end
                  | None => None
                  end
                else None
            | EmptyString => None
            end
        | None => None
        end
      else None
  | EmptyString => None
  end.

Fixpoint parse_value (fuel : nat) (s : string) : option (jsval * string) :=
  match fuel with
  | O => None
  | S fuel' =>
      parse_value_with (parse_elements fuel') (parse_members fuel') s
  end
with parse_elements (fuel : nat) (s : string) : option (list jsval * string) :=
  match fuel with
  | O => None
  | S fuel' =>
      parse_elements_with (parse_value fuel') (parse_elements fuel') s
  end
with parse_members (fuel : nat) (s : string)
  : option (list (string * jsval) * string) :=
  match fuel with
  | O => None
  | S fuel' =>
      parse_members_with (parse_value fuel') (parse_members fuel') s
  end.

Definition fuel_for (s : string) : nat := (2 * String.length s + 2)%nat.

(** [JSON.parse(s)]; [None] is the SyntaxError. *)
Definition parse (s : string) : option jsval :=
  match parse_value (fuel_for s) (skip_ws s) with
  | Some (v, r) =>
      match skip_ws r with
      | EmptyString => Some v
      | String _ _ => None
      end
  | None => None
  end.

End Json.

(** ** Object literals

    An object that the code makes with [{}] and fills by assignment. Its
    own properties are a list in the order of its own keys; what it has
    not, it inherits from [Object.prototype]. *)

(** The names that a plain object inherits. *)
Definition Object_prototype_names : list string :=
  ["constructor"; "__defineGetter__"; "__defineSetter__"; "hasOwnProperty";
   "__lookupGetter__"; "__lookupSetter__"; "isPrototypeOf";
   "propertyIsEnumerable"; "toString"; "valueOf"; "__proto__"; "toLocaleString"].

(** An array index: the decimal numeral, without leading zero, of a number
    below [2^32 - 1]. *)
Definition array_index (k : string) : option Z :=
  match Json.parse_nat k with
  | Some (n, EmptyString) => if n <? 4294967295 then Some n else None
  | _ => None
  end.

(** [o[k] = v] on an object in the order of its own keys: the array
    indices in ascending order, then the other names in the order of their
    creation. An existing property keeps its place. *)
Fixpoint insert_index {V : Type} (n : Z) (k : string) (v : V)
  (o : list (string * V)) : list (string * V) :=
  match o with
  | [] => [(k, v)]
  | (k', v') :: o' =>
      match array_index k' with
      | Some n' =>
          if n' <? n then (k', v') :: insert_index n k v o'
          else (k, v) :: o
      | None => (k, v) :: o
      end
  end.

Definition property_set {V : Type} (k : string) (v : V) (o : list (string * V))
  : list (string * V) :=
  match obj_get k o, array_index k with
  | None, Some n => insert_index n k v o
  | _, _ => obj_set k v o
  end.

(** What [o[k]] finds on an object literal whose own properties are [o]:
    an own property; or what [Object.prototype] has under the name, which
    is one of its methods (a function, here by its [name]) or, under
    [__proto__], [Object.prototype] itself; or nothing ([undefined]). *)
Inductive Member (V : Type) :=
| Own (v : V)
| Method (name : string)
| Prototype
| NoMember.

Arguments Own {V} v.
Arguments Method {V} name.
Arguments Prototype {V}.
Arguments NoMember {V}.

Definition property_get {V : Type} (k : string) (o : list (string * V)) : Member V :=
  match obj_get k o with
  | Some v => Own v
  | None =>
      if String.eqb k "__proto__" then Prototype
      else if bool_decide (k ∈ Object_prototype_names) then
        Method (if String.eqb k "constructor" then "Object" else k)
      else NoMember
  end.

(** [o[k] = v] on an object literal for a value [v] that is not an object,
    where the order of the keys is that of the assignments (the keys of a
    row, a table that is only read by key): the setter of [__proto__]
    ignores such a value, and under every other name the object gets or
    keeps an own property. *)
Definition assign {V : Type} (k : string) (v : V) (o : list (string * V))
  : list (string * V) :=
  if String.eqb k "__proto__" then o else obj_set k v o.

(** What [JSON.stringify] sees of a member that holds a string: it treats a
    function as [undefined], and [Object.prototype] has no property to
    write. *)
Definition member_value (m : Member string) : jsval :=
  match m with
  | Own s => JStr s
  | Method _ => JUndefined
  | Prototype => JObj []
  | NoMember => JUndefined
  end.

(** [m ?? null] *)
Definition member_or_null (m : Member string) : jsval :=
  match m with
  | NoMember => JNull
  | _ => member_value m
  end.

(** ** Errors, promises and the host *)

(** A thrown [Error] object: its [name] and its [message]. *)
Record exn := Exn { exn_name : string; exn_message : string }.

Definition Error (message : string) : exn := Exn "Error" message.

(** Synchronous code that may throw: [inl e] is the throw of [e], and
    [x ← c; k] runs [k] on what [c] returns, unless [c] throws. *)
#[export] Instance throws_bind : MBind (sum exn) :=
  fun A B f c =>
    match c with
    | inl e => inl e
    | inr a => f a
    end.

(** A loop whose body may throw. *)
Fixpoint fold_throws {A B : Type} (f : A -> B -> exn + A) (l : list B) (a : A)
  : exn + A :=
  match l with
  | [] => inr a
  | x :: l' => a' ← f a x; fold_throws f l' a'
  end.

(** What the host decides. *)
Class Host := {
  (** the message of the SyntaxError that [JSON.parse] throws on a text *)
  JSON_parse_message : string -> string;
  (** the message of the TypeError of reading [length] of [undefined] *)
  undefined_length_message : string;
  (** the message of the TypeError of reading [results] of [null] *)
  null_results_message : string;
  (** [a.localeCompare(b)] *)
  localeCompare : string -> string -> Z
}.

(** A promise by its settlement; [t] is the instant it settles at. *)
Inductive promise (A : Type) :=
| Fulfilled (t : nat) (a : A)
| Rejected (t : nat) (e : exn)
| Pending.

Arguments Fulfilled {A} t a.
Arguments Rejected {A} t e.
Arguments Pending {A}.

(** [await p] followed by synchronous code [f] that may throw. *)
Definition Promise_then {A B : Type} (p : promise A) (f : A -> exn + B)
  : promise B :=
  match p with
  | Fulfilled t a =>
      match f a with
      | inr b => Fulfilled t b
      | inl e => Rejected t e
      end
  | Rejected t e => Rejected t e
  | Pending => Pending
  end.

(** The rejection that settles first; of two at the same instant, the one
    earlier in the array. *)
Fixpoint first_rejection {A : Type} (ps : list (promise A)) : option (nat * exn) :=
  match ps with
  | [] => None
  | p :: ps' =>
      match p, first_rejection ps' with
      | Rejected t e, Some (t', e') =>
          if (t <=? t')%nat then Some (t, e) else Some (t', e')
      | Rejected t e, None => Some (t, e)
      | _, r => r
      end
  end.

(** All values, at the instant the last one arrives; [None] while one of the
    promises is not fulfilled. *)
Fixpoint all_fulfilled {A : Type} (ps : list (promise A)) : option (nat * list A) :=
  match ps with
  | [] => Some (O, [])
  | Fulfilled t a :: ps' =>
      match all_fulfilled ps' with
      | Some (t', l) => Some (Nat.max t t', a :: l)
      | None => None
      end
  | _ :: _ => None
  end.

(** [Promise.all(ps)] *)
Definition Promise_all {A : Type} (ps : list (promise A)) : promise (list A) :=
  match first_rejection ps with
  | Some (t, e) => Rejected t e
  | None =>
      match all_fulfilled ps with
      | Some (t, l) => Fulfilled t l
      | None => Pending
      end
  end.

(** ** Type definitions (index.ts, lines 13-66) *)

Record SparqlBindingValue := {
  type : string;
  value : string;
  datatype : option string;
  xml_lang : option string
}.

Notation SparqlBinding := (list (string * SparqlBindingValue)) (only parsing).

(** [SparqlResult]. The code reads every level through [?.], so every level
    may be missing ([None]: absent or [null]). *)
Record SparqlHead := { vars : option (list string) }.
Record SparqlResults := { bindings : option (list SparqlBinding) }.
Record SparqlResult := {
  head : option SparqlHead;
  results : option SparqlResults
}.

Inductive CompressedResult :=
| CompressedSimple (rows : list (list (string * string)))
| CompressedTabular (headers : list string) (rows : list (list (option string))).

Inductive ToolResult (T : Type) :=
| ToolSuccess (data : T) (rowCount : option Z)
| ToolError (error : string) (suggestion : option string).

Arguments ToolSuccess {T} data rowCount.
Arguments ToolError {T} error suggestion.

(** [content] holds the [text] of each [{ type: "text", text }] item; a
    missing [isError] is [false]. *)
Record McpToolResponse := {
  content : list string;
  isError : bool
}.

(** What [JSON.stringify] sees of a datum. *)
Class ToValue (T : Type) := to_value : T -> jsval.

#[export] Instance jsval_to_value : ToValue jsval := fun v => v.

#[export] Instance string_to_value : ToValue string := JStr.

Definition cell_to_value (c : option string) : jsval :=
  match c with
  | Some s => JStr s
  | None => JNull
  end.

Definition tabular_to_value (headers : list string)
  (rows : list (list (option string))) : jsval :=
  JObj [("headers", JArr (map JStr headers));
        ("rows", JArr (map (fun r => JArr (map cell_to_value r)) rows))].

#[export] Instance CompressedResult_to_value : ToValue CompressedResult :=
  fun c =>
    match c with
    | CompressedSimple rows =>
        JArr (map (fun row => JObj (map (fun kv => (fst kv, JStr (snd kv))) row)) rows)
    | CompressedTabular headers rows => tabular_to_value headers rows
    end.

(** ** Constants (index.ts, lines 73, 106, 121-134) *)

Definition CHARACTER_LIMIT : Z := 50000.

Definition ENDPOINT : string := "https://schema.gov.it/sparql".

Definition PREFIXES : string := "
PREFIX rdf: <http://www.w3.org/1999/02/22-rdf-syntax-ns#>
PREFIX rdfs: <http://www.w3.org/2000/01/rdf-schema#>
PREFIX owl: <http://www.w3.org/2002/07/owl#>
PREFIX skos: <http://www.w3.org/2004/02/skos/core#>
PREFIX dct: <http://purl.org/dc/terms/>
PREFIX xsd: <http://www.w3.org/2001/XMLSchema#>
PREFIX dcat: <http://www.w3.org/ns/dcat#>
PREFIX foaf: <http://xmlns.com/foaf/0.1/>
PREFIX clv: <https://w3id.org/italia/onto/CLV/>
PREFIX cpv: <https://w3id.org/italia/onto/CPV/>
PREFIX l0: <https://w3id.org/italia/onto/l0/>
PREFIX sm: <https://w3id.org/italia/onto/SM/>
".

(** ** The network *)

(** A signal that aborts the call it is attached to, [ms] after the call. *)
Inductive AbortSignal := AbortAfter (ms : nat).

Record RequestInit := {
  method : string;
  headers : list (string * string);
  body : list (string * string);
  signal : option AbortSignal
}.

(** The body of a response as [response.json()] finds it: a text that is
    not JSON, or the value the JSON text stands for. *)
Inductive ResponseBody :=
| NotJson (text : string)
| Json (v : option SparqlResult).

Record Response := {
  ok : bool;
  status : Z;
  statusText : string;
  payload : ResponseBody
}.

(** What the remote end does with a request: it answers at an instant, the
    transport fails at an instant (also when the client of the platform
    gives up by itself), or nothing ever comes back. *)
Inductive Outcome :=
| Answers (t : nat) (r : Response)
| Breaks (t : nat) (e : exn)
| Silent.

Definition Network : Type := string -> RequestInit -> Outcome.

Definition AbortError : exn :=
  Exn "AbortError" "This operation was aborted".

(** [fetch(url, init)]: the outcome of the remote end, unless a signal
    aborts the call before it. *)
Definition fetch (net : Network) (url : string) (init : RequestInit)
  : promise Response :=
  match net url init, signal init with
  | Answers t r, Some (AbortAfter ms) =>
      if (t <=? ms)%nat then Fulfilled t r else Rejected ms AbortError
  | Breaks t e, Some (AbortAfter ms) =>
      if (t <=? ms)%nat then Rejected t e else Rejected ms AbortError
  | Silent, Some (AbortAfter ms) => Rejected ms AbortError
  | Answers t r, None => Fulfilled t r
  | Breaks t e, None => Rejected t e
  | Silent, None => Pending
  end.

(** ** Query executor (index.ts, lines 136-152) *)

Section Executor.
Context `{Host}.

Definition executeSparql_init (query : string) : RequestInit :=
  let fullQuery := PREFIXES +:+ "
" +:+ query in
  {| method := "POST";
     headers := [("Content-Type", "application/x-www-form-urlencoded");
                 ("Accept", "application/sparql-results+json")];
     body := [("query", fullQuery)];
     signal := None |}.

(** [response.json()] *)
Definition Response_json (r : Response) : exn + option SparqlResult :=
  match payload r with
  | NotJson text => inl (Exn "SyntaxError" (JSON_parse_message text))
  | Json v => inr v
  end.

Definition executeSparql (net : Network) (query : string)
  : promise (option SparqlResult) :=
  Promise_then (fetch net ENDPOINT (executeSparql_init query))
    (fun response =>
       if negb (ok response) then
         inl (Error ("SPARQL request failed: " +:+ pretty (status response)
                     +:+ " " +:+ statusText response))
       else Response_json response).

End Executor.

(** ** Result compression (index.ts, lines 158-190) *)

(** [result?.results?.bindings] *)
Definition result_bindings (result : option SparqlResult)
  : option (list SparqlBinding) :=
  r ← result; rs ← results r; bindings rs.

(** [result.head?.vars] *)
Definition result_vars (result : option SparqlResult) : option (list string) :=
  r ← result; h ← head r; vars h.

(** [Object.keys(o)] *)
Definition Object_keys {V : Type} (o : list (string * V)) : list string :=
  map fst o.

(** [Object.values(o)] *)
Definition Object_values {V : Type} (o : list (string * V)) : list V :=
  map snd o.

(** The row of a small result: the loop [for (const key in binding)],
    which assigns to an object literal. *)
Definition simplify_binding (binding : SparqlBinding) : list (string * string) :=
  fold_left
    (fun row key =>
       match obj_get key binding with
       | Some bindingValue => assign key (value bindingValue) row
       | None => row
       end)
    (Object_keys binding) [].

Definition compressSparqlResult (result : option SparqlResult) : CompressedResult :=
  match result_bindings result with
  | None => CompressedSimple []
  | Some bindings =>
      if Z.of_nat (List.length bindings) =? 0 then CompressedSimple []
      else if 5 <? Z.of_nat (List.length bindings) then
        let firstBinding := bindings !! O in
        let headers :=
          match result_vars result with
          | Some vars => vars
          | None =>
              match firstBinding with
              | Some b => Object_keys b
              | None => []
              end
          end in
        let rows :=
          map (fun b => map (fun h => value <$> obj_get h b) headers) bindings in
        CompressedTabular headers rows
      else CompressedSimple (map simplify_binding bindings)
  end.

(** ** Tool execution helpers (index.ts, lines 196-286) *)

Definition getErrorMessage (error : exn) : string := exn_message error.

Definition truncateResult (text : string) : string * bool :=
  if JsString.length text <=? CHARACTER_LIMIT then (text, false)
  else (slice text 0 CHARACTER_LIMIT, true).

(** What an invocation leaves behind: the summaries handed to [logUsage],
    in order, and the response. *)
Record Executed := {
  logged : list string;
  response : McpToolResponse
}.

Section ExecuteTool.
Context `{Host}.

Definition truncation_message : string :=
  "Result exceeded " +:+ pretty CHARACTER_LIMIT +:+ " characters and was truncated".

Definition error_response (message : string) : McpToolResponse :=
  {| content := ["Error: " +:+ message]; isError := true |}.

(** The body of the [try] block once the handler has returned a success;
    [inl] is a throw, together with what was logged before it. *)
Definition executeTool_success (data : jsval) (rowCount : option Z)
  : (list string * exn) + Executed :=
  match Json.stringify data with
  | None => inl ([], Exn "TypeError" undefined_length_message)
  | Some jsonText =>
      let '(text, truncated) := truncateResult jsonText in
      let rowInfo :=
        match rowCount with
        | Some n => ", " +:+ pretty n +:+ " rows"
        | None => ""
        end in
      let summary :=
        "Success" +:+ rowInfo +:+ (if truncated then " (truncated)" else "") in
      if truncated then
        let cut := slice text 0 (lastIndexOf text rbrace + 1) in
        let source := if truthy cut then cut else "null" in
        match Json.parse source with
        | None => inl ([summary], Exn "SyntaxError" (JSON_parse_message source))
        | Some parsed =>
            match Json.stringify
                    (JObj [("_truncated", JBool true);
                           ("_message", JStr truncation_message);
                           ("data", parsed)]) with
            | Some wrapped =>
                inr {| logged := [summary];
                       response := {| content := [wrapped]; isError := false |} |}
            | None =>
                (* not taken: an object is never serialised as [undefined] *)
                inl ([summary], Exn "TypeError" undefined_length_message)
            end
        end
      else
        inr {| logged := [summary];
               response := {| content := [text]; isError := false |} |}
  end.

Definition executeTool_caught (before : list string) (error : exn) : Executed :=
  let message := getErrorMessage error in
  {| logged := before ++ ["Error: " +:+ message];
     response := error_response message |}.

Definition executeTool_settled {T : Type} `{ToValue T} (result : ToolResult T)
  : Executed :=
  match result with
  | ToolError error suggestion =>
      let errorText :=
        "Error: " +:+ error +:+
        match suggestion with
        | Some s => if truthy s then "
Suggestion: " +:+ s else ""
        | None => ""
        end in
      {| logged := ["Error: " +:+ error];
         response := {| content := [errorText]; isError := true |} |}
  | ToolSuccess data rowCount =>
      match executeTool_success (to_value data) rowCount with
      | inr done => done
      | inl (before, error) => executeTool_caught before error
      end
  end.

(** [executeTool(toolName, args, handler)], by what the handler's promise
    settles with. *)
Definition executeTool {T : Type} `{ToValue T} (handler : promise (ToolResult T))
  : promise Executed :=
  match handler with
  | Fulfilled t result => Fulfilled t (executeTool_settled result)
  | Rejected t error => Fulfilled t (executeTool_caught [] error)
  | Pending => Pending
  end.

(** [result.results?.bindings]: reading [results] of [null] throws. *)
Definition unguarded_bindings (result : option SparqlResult)
  : exn + option (list SparqlBinding) :=
  match result with
  | None => inl (Exn "TypeError" null_results_message)
  | Some r => inr (rs ← results r; bindings rs)
  end.

(** [result.results?.bindings?.length ?? 0] *)
Definition row_count (result : option SparqlResult) : exn + Z :=
  bs ← unguarded_bindings result;
  inr match bs with
      | Some bindings => Z.of_nat (List.length bindings)
      | None => 0
      end.

Definition executeSparqlTool (net : Network) (query : string) : promise Executed :=
  executeTool
    (Promise_then (executeSparql net query)
       (fun result =>
          rowCount ← row_count result;
          let compressed := compressSparqlResult result in
          inr (ToolSuccess compressed (Some rowCount)))).

End ExecuteTool.

(** ** Numbers of the listings *)

(** StrWhiteSpaceChar, in the Latin-1 range. *)
Definition is_StrWhiteSpaceChar (c : ascii) : bool :=
  let n := N_of_ascii c in
  ((9 <=? n) && (n <=? 13) || (n =? 32) || (n =? 160))%N.

Fixpoint trim_start (s : string) : string :=
  match s with
  | String c r => if is_StrWhiteSpaceChar c then trim_start r else s
  | EmptyString => EmptyString
  end.

(** The double nearest to the natural number [n], a tie going to the even
    significand: [n] itself when it has 53 bits at most, and otherwise its
    53 leading bits, rounded by the bits that follow them. *)
Definition nearest_double (n : Z) : Z :=
  let e := Z.log2 n - 52 in
  if e <=? 0 then n
  else
    let q := Z.shiftr n e in
    let r := n - Z.shiftl q e in
    let half := Z.shiftl 1 (e - 1) in
    Z.shiftl (if (half <? r) || ((r =? half) && Z.odd q) then q + 1 else q) e.

(** The Number value of the integer [z]: the nearest double, and an
    infinity from [2^1024] on. (The sign of a zero is not kept: nothing in
    this program tells the two zeros apart.) *)
Definition to_Number (z : Z) : number :=
  let m := nearest_double (Z.abs z) in
  if 2 ^ 1024 <=? m then Infinity (z <? 0) else Int (Z.sgn z * m).

(** The digits at the head of [s], read in radix 10; [NaN] without one. *)
Definition parse_radix10 (negative : bool) (s : string) : number :=
  match s with
  | String c r =>
      match Json.digit_of c with
      | Some d =>
          let n := fst (Json.parse_digits d r) in
          to_Number (if negative then - n else n)
      | None => NaN
      end
  | EmptyString => NaN
  end.

(** [parseInt(s, 10)] *)
Definition parseInt (s : string) : number :=
  match trim_start s with
  | String c r =>
      if Ascii.eqb c "-"%char then parse_radix10 true r
      else if Ascii.eqb c "+"%char then parse_radix10 false r
      else parse_radix10 false (String c r)
  | EmptyString => NaN
  end.

(** [a < b] on numbers: false as soon as one side is [NaN]. *)
Definition number_lt (a b : number) : bool :=
  match a, b with
  | Int x, Int y => x <? y
  | Int _, Infinity negative => negb negative
  | Infinity negative, Int _ => negative
  | Infinity negative, Infinity negative' => negative && negb negative'
  | _, _ => false
  end.

Record PaginationInfo := {
  total : number;
  count : Z;
  offset : Z;
  has_more : bool;
  next_offset : option number
}.

#[export] Instance PaginationInfo_to_value : ToValue PaginationInfo :=
  fun p =>
    JObj [("total", JNum (total p));
          ("count", JNum (Int (count p)));
          ("offset", JNum (Int (offset p)));
          ("has_more", JBool (has_more p));
          ("next_offset",
            match next_offset p with
            | Some n => JNum n
            | None => JNull
            end)].

(** [b.key?.value] *)
Definition binding_value (key : string) (b : SparqlBinding) : option string :=
  value <$> obj_get key b.

Section Listings.
Context `{Host}.

(** [parseInt(countResult.results?.bindings?.[0]?.total?.value ?? "0", 10)] *)
Definition count_total (countResult : option SparqlResult) : exn + number :=
  bs ← unguarded_bindings countResult;
  inr (parseInt (default "0" (l ← bs; b ← l !! O; binding_value "total" b))).

(** The [pagination] literal of the listings; [page] is what the code adds
    to [offset], the sum of two numbers being the nearest double. *)
Definition make_pagination (total : number) (count offset page : Z) : PaginationInfo :=
  {| total := total;
     count := count;
     offset := offset;
     has_more := number_lt (to_Number (offset + page)) total;
     next_offset :=
       if number_lt (to_Number (offset + page)) total
       then Some (to_Number (offset + page)) else None |}.

(** [const [a, b] = all]: a missing element is [undefined]. *)
Definition element (all : list (option SparqlResult)) (i : nat) : option SparqlResult :=
  mjoin (all !! i).

End Listings.

(** ** list_datasets (index.ts, lines 746-815) *)

Record DatasetListing := {
  items : CompressedResult;
  datasets_pagination : PaginationInfo
}.

#[export] Instance DatasetListing_to_value : ToValue DatasetListing :=
  fun d =>
    JObj [("items", to_value (items d));
          ("pagination", to_value (datasets_pagination d))].

Section ListDatasets.
Context `{Host}.

(** Lines 794-812: the body of the handler after its [await]. *)
Definition list_datasets_data (offset : Z) (dataResult countResult : option SparqlResult)
  : exn + DatasetListing :=
  let items := compressSparqlResult dataResult in
  count ← row_count dataResult;
  total ← count_total countResult;
  inr {| items := items;
         datasets_pagination := make_pagination total count offset count |}.

Definition list_datasets_handler (offset : Z)
  (dataQuery countQuery : promise (option SparqlResult))
  : promise (ToolResult DatasetListing) :=
  Promise_then (Promise_all [dataQuery; countQuery])
    (fun all =>
       data ← list_datasets_data offset (element all 0) (element all 1);
       inr (ToolSuccess data (Some (count (datasets_pagination data))))).

End ListDatasets.

(** ** Array.prototype.sort *)

(** A stable sort by a comparator: [x] goes before the first element that
    the comparator puts after it. *)
Fixpoint sort_insert {A : Type} (cmp : A -> A -> Z) (x : A) (l : list A) : list A :=
  match l with
  | [] => [x]
  | y :: l' => if 0 <? cmp x y then y :: sort_insert cmp x l' else x :: y :: l'
  end.

Definition Array_sort {A : Type} (cmp : A -> A -> Z) (l : list A) : list A :=
  foldr (sort_insert cmp) [] l.

(** ** The reconciler of list_municipalities and list_provinces *)

Section Reconciling.
Context `{Host}.

(** One turn of the lookup loops (lines 1697-1704, 1851-1863): [field]
    under [notation], in an object literal. *)
Definition lookup_step (field : string) (lookup : list (string * string))
  (b : SparqlBinding) : list (string * string) :=
  match binding_value "notation" b, binding_value field b with
  | Some n, Some v => if truthy n && truthy v then assign n v lookup else lookup
  | _, _ => lookup
  end.

Definition build_lookup (field : string) (result : option SparqlResult)
  : exn + list (string * string) :=
  bs ← unguarded_bindings result;
  inr (fold_left (lookup_step field) (default [] bs) []).

(** One turn of the loops of lines 1707-1722 and 1866-1882: [make] builds
    the record of a key and name, [name_of] reads the name of a record.
    What [existing] is when the map has no record under the notation is
    what the object literal inherits: nothing, a method, whose [name] is
    then compared, or [Object.prototype], which has no [name], so that
    reading the [length] of it throws. *)
Definition dedupe_step {R : Type} (name_of : R -> string)
  (make : string -> string -> R) (seen : list (string * R)) (row : SparqlBinding)
  : exn + list (string * R) :=
  match binding_value "notation" row, binding_value "name" row with
  | Some notation, Some name =>
      if negb (truthy notation) || negb (truthy name) then inr seen
      else
        match property_get notation seen with
        | Own existing =>
            if JsString.length (name_of existing) <? JsString.length name
            then inr (property_set notation (make notation name) seen)
            else inr seen
        | Method existing_name =>
            if JsString.length existing_name <? JsString.length name
            then inr (property_set notation (make notation name) seen)
            else inr seen
        | Prototype => inl (Exn "TypeError" undefined_length_message)
        | NoMember => inr (property_set notation (make notation name) seen)
        end
  | _, _ => inr seen
  end.

Definition dedupe {R : Type} (name_of : R -> string) (make : string -> string -> R)
  (namesResult : option SparqlResult) : exn + list (string * R) :=
  bs ← unguarded_bindings namesResult;
  fold_throws (dedupe_step name_of make) (default [] bs) [].

End Reconciling.

(** A list of records, as records up to five and as a table above. *)
Inductive Listing (R : Type) :=
| Records (l : list R)
| Table (headers : list string) (rows : list (list jsval)).

Arguments Records {R} l.
Arguments Table {R} headers rows.

#[export] Instance Listing_to_value {R : Type} `{ToValue R} : ToValue (Listing R) :=
  fun l =>
    match l with
    | Records rs => JArr (map to_value rs)
    | Table headers rows =>
        JObj [("headers", JArr (map JStr headers)); ("rows", JArr (map JArr rows))]
    end.

(** ** list_municipalities (index.ts, lines 1618-1780) *)

Module City.
(** [belfiore] is [NoMember] when the record has no such key. *)
Record t := {
  notation : string;
  name : string;
  belfiore : Member string
}.
End City.

#[export] Instance City_to_value : ToValue City.t :=
  fun c =>
    JObj ([("notation", JStr (City.notation c)); ("name", JStr (City.name c))]
          ++ match City.belfiore c with
             | NoMember => []
             | m => [("belfiore", member_value m)]
             end).

Record MunicipalityListing := {
  municipalities : Listing City.t;
  municipalities_pagination : PaginationInfo
}.

#[export] Instance MunicipalityListing_to_value : ToValue MunicipalityListing :=
  fun d =>
    JObj [("municipalities", to_value (municipalities d));
          ("pagination", to_value (municipalities_pagination d))].

Record MunicipalityPage := {
  page_municipalities : CompressedResult;
  page_pagination : PaginationInfo
}.

#[export] Instance MunicipalityPage_to_value : ToValue MunicipalityPage :=
  fun d =>
    JObj [("municipalities", to_value (page_municipalities d));
          ("pagination", to_value (page_pagination d))].

Section Reconciler.
Context `{Host}.

(** The record of lines 1714-1718: the key [belfiore] is there when what
    the lookup has under the notation is truthy. *)
Definition make_city (belfioreLookup : list (string * string)) (notation name : string)
  : City.t :=
  {| City.notation := notation;
     City.name := name;
     City.belfiore :=
       match property_get notation belfioreLookup with
       | Own b => if truthy b then Own b else NoMember
       | m => m
       end |}.

(** Lines 1696-1722: the two loops and [Object.values(cityMap).sort(...)]. *)
Definition reconciled_cities (namesResult belfioreResult : option SparqlResult)
  : exn + list City.t :=
  belfioreLookup ← build_lookup "belfiore" belfioreResult;
  cityMap ← dedupe City.name (make_city belfioreLookup) namesResult;
  inr (Array_sort (fun a b => localeCompare (City.notation a) (City.notation b))
         (Object_values cityMap)).

Definition list_municipalities_belfiore_data (safeLimit offset : Z)
  (namesResult belfioreResult countResult : option SparqlResult)
  : exn + MunicipalityListing :=
  municipalities ← reconciled_cities namesResult belfioreResult;
  total ← count_total countResult;
  let count := Z.of_nat (List.length municipalities) in
  inr {| municipalities :=
           if 5 <? count
           then Table ["notation"; "name"; "belfiore"]
                  (map (fun m => [JStr (City.notation m); JStr (City.name m);
                                  member_or_null (City.belfiore m)]) municipalities)
           else Records municipalities;
         municipalities_pagination := make_pagination total count offset safeLimit |}.

Definition list_municipalities_belfiore_handler (safeLimit offset : Z)
  (namesQuery belfioreQuery countQuery : promise (option SparqlResult))
  : promise (ToolResult MunicipalityListing) :=
  Promise_then (Promise_all [namesQuery; belfioreQuery; countQuery])
    (fun all =>
       data ← list_municipalities_belfiore_data safeLimit offset
                (element all 0) (element all 1) (element all 2);
       inr (ToolSuccess data (Some (count (municipalities_pagination data))))).

Definition list_municipalities_simple_data (offset : Z)
  (dataResult countResult : option SparqlResult) : exn + MunicipalityPage :=
  let municipalities := compressSparqlResult dataResult in
  count ← row_count dataResult;
  total ← count_total countResult;
  inr {| page_municipalities := municipalities;
         page_pagination := make_pagination total count offset count |}.

Definition list_municipalities_simple_handler (offset : Z)
  (dataQuery countQuery : promise (option SparqlResult))
  : promise (ToolResult MunicipalityPage) :=
  Promise_then (Promise_all [dataQuery; countQuery])
    (fun all =>
       data ← list_municipalities_simple_data offset (element all 0) (element all 1);
       inr (ToolSuccess data (Some (count (page_pagination data))))).

End Reconciler.

(** ** list_provinces (index.ts, lines 1783-1894) *)

Module Province.
(** [sigla] and [metro] are [NoMember] when they are [null]. *)
Record t := {
  notation : string;
  name : string;
  sigla : Member string;
  metro : Member string
}.
End Province.

#[export] Instance Province_to_value : ToValue Province.t :=
  fun p =>
    JObj [("notation", JStr (Province.notation p));
          ("name", JStr (Province.name p));
          ("sigla", member_or_null (Province.sigla p));
          ("metro", member_or_null (Province.metro p))].

Section Provinces.
Context `{Host}.

(** The record of lines 1873-1878. *)
Definition make_province (siglaLookup metroLookup : list (string * string))
  (notation name : string) : Province.t :=
  {| Province.notation := notation;
     Province.name := name;
     Province.sigla := property_get notation siglaLookup;
     Province.metro := property_get notation metroLookup |}.

(** Lines 1850-1882. *)
Definition reconciled_provinces (namesResult siglaResult metroResult : option SparqlResult)
  : exn + list Province.t :=
  siglaLookup ← build_lookup "sigla" siglaResult;
  metroLookup ← build_lookup "metro" metroResult;
  provMap ← dedupe Province.name (make_province siglaLookup metroLookup) namesResult;
  inr (Array_sort (fun a b => localeCompare (Province.notation a) (Province.notation b))
         (Object_values provMap)).

Definition provinces_listing (provinces : list Province.t) : Listing Province.t :=
  if 5 <? Z.of_nat (List.length provinces)
  then Table ["notation"; "name"; "sigla"; "metro"]
         (map (fun p => [JStr (Province.notation p); JStr (Province.name p);
                         member_or_null (Province.sigla p);
                         member_or_null (Province.metro p)]) provinces)
  else Records provinces.

Definition list_provinces_data (namesResult siglaResult metroResult : option SparqlResult)
  : exn + Listing Province.t :=
  provinces ← reconciled_provinces namesResult siglaResult metroResult;
  inr (provinces_listing provinces).

Definition list_provinces_handler
  (namesQuery siglaQuery metroQuery : promise (option SparqlResult))
  : promise (ToolResult (Listing Province.t)) :=
  Promise_then (Promise_all [namesQuery; siglaQuery; metroQuery])
    (fun all =>
       provinces ← reconciled_provinces (element all 0) (element all 1) (element all 2);
       inr (ToolSuccess (provinces_listing provinces)
              (Some (Z.of_nat (List.length provinces))))).

End Provinces.

(** ** inspect_concept (index.ts, lines 927-1010) *)

#[export] Instance profile_to_value : ToValue (list (string * CompressedResult)) :=
  fun o => JObj (map (fun kv => (fst kv, to_value (snd kv))) o).

(** The loop of lines 994-1001. *)
Definition inspect_concept_results (entries : list (string * string))
  (sparqlResults : list (option SparqlResult)) : list (string * CompressedResult) :=
  fold_left
    (fun results i =>
       match entries !! i, mjoin (sparqlResults !! i) with
       | Some entry, Some sparqlResult =>
           obj_set (fst entry) (compressSparqlResult (Some sparqlResult)) results
       | _, _ => results
       end)
    (seq 0 (List.length entries)) [].

(** [r?.results?.bindings?.length ?? 0] *)
Definition guarded_row_count (r : option SparqlResult) : Z :=
  match result_bindings r with
  | Some bindings => Z.of_nat (List.length bindings)
  | None => 0
  end.

Definition inspect_concept_handler (entries : list (string * string))
  (run : string -> promise (option SparqlResult))
  : promise (ToolResult (list (string * CompressedResult))) :=
  Promise_then (Promise_all (map (fun entry => run (snd entry)) entries))
    (fun sparqlResults =>
       let results := inspect_concept_results entries sparqlResults in
       let totalRows :=
         fold_left (fun sum r => sum + guarded_row_count r) sparqlResults 0 in
       inr (ToolSuccess results (Some totalRows))).

(** ** explore_catalog, explore_dataset, suggest_improvements
    (index.ts, lines 370-430, 817-884, 1060-1126) *)

Section TwoQueries.
Context `{Host}.

Definition explore_catalog_handler
  (graphsQuery ontologiesQuery : promise (option SparqlResult))
  : promise (ToolResult (list (string * CompressedResult))) :=
  Promise_then (Promise_all [graphsQuery; ontologiesQuery])
    (fun all =>
       let graphResult := element all 0 in
       let ontResult := element all 1 in
       let data := [("graphs", compressSparqlResult graphResult);
                    ("ontologies", compressSparqlResult ontResult)] in
       graphs ← row_count graphResult;
       ontologies ← row_count ontResult;
       inr (ToolSuccess data (Some (graphs + ontologies)))).

Definition explore_dataset_handler
  (metadataQuery distQuery : promise (option SparqlResult))
  : promise (ToolResult (list (string * CompressedResult))) :=
  Promise_then (Promise_all [metadataQuery; distQuery])
    (fun all =>
       let details := element all 0 in
       let distributions := element all 1 in
       let data := [("metadata", compressSparqlResult details);
                    ("distributions", compressSparqlResult distributions)] in
       metadata ← row_count details;
       dists ← row_count distributions;
       inr (ToolSuccess data (Some (metadata + dists)))).

Definition suggest_improvements_handler
  (lonelyQuery cycleQuery : promise (option SparqlResult))
  : promise (ToolResult (list (string * CompressedResult))) :=
  Promise_then (Promise_all [lonelyQuery; cycleQuery])
    (fun all =>
       let lonely := element all 0 in
       let cycles := element all 1 in
       let data := [("possible_cycles", compressSparqlResult cycles);
                    ("unused_classes", compressSparqlResult lonely)] in
       unused ← row_count lonely;
       possible ← row_count cycles;
       inr (ToolSuccess data (Some (unused + possible)))).

End TwoQueries.

(** ** browse_vocabulary (index.ts, lines 1309-1397) *)

Record ConceptListing := {
  concepts : CompressedResult;
  concepts_pagination : PaginationInfo
}.

#[export] Instance ConceptListing_to_value : ToValue ConceptListing :=
  fun d =>
    JObj [("concepts", to_value (concepts d));
          ("pagination", to_value (concepts_pagination d))].

Section BrowseVocabulary.
Context `{Host}.

Definition browse_vocabulary_data (offset : Z)
  (dataResult countResult : option SparqlResult) : exn + ConceptListing :=
  let concepts := compressSparqlResult dataResult in
  count ← row_count dataResult;
  total ← count_total countResult;
  inr {| concepts := concepts;
         concepts_pagination := make_pagination total count offset count |}.

Definition browse_vocabulary_handler (offset : Z)
  (dataQuery countQuery : promise (option SparqlResult))
  : promise (ToolResult ConceptListing) :=
  Promise_then (Promise_all [dataQuery; countQuery])
    (fun all =>
       data ← browse_vocabulary_data offset (element all 0) (element all 1);
       inr (ToolSuccess data (Some (count (concepts_pagination data))))).

End BrowseVocabulary.

(** ** The tools

    The query texts are what the template literals of the source evaluate
    to; the pipeline does not look into them. *)

Section Tools.
Context `{Host}.
Variable net : Network.

Definition list_datasets (dataQuery countQuery : string) (offset : Z)
  : promise Executed :=
  executeTool
    (list_datasets_handler offset
       (executeSparql net dataQuery) (executeSparql net countQuery)).

Definition list_municipalities (namesQuery belfioreQuery dataQuery countQuery : string)
  (limit offset : Z) (withBelfiore : bool) : promise Executed :=
  let safeLimit := Z.min limit 500 in
  if withBelfiore then
    executeTool
      (list_municipalities_belfiore_handler safeLimit offset
         (executeSparql net namesQuery) (executeSparql net belfioreQuery)
         (executeSparql net countQuery))
  else
    executeTool
      (list_municipalities_simple_handler offset
         (executeSparql net dataQuery) (executeSparql net countQuery)).

Definition list_provinces (namesQuery siglaQuery metroQuery : string)
  : promise Executed :=
  executeTool
    (list_provinces_handler
       (executeSparql net namesQuery) (executeSparql net siglaQuery)
       (executeSparql net metroQuery)).

Definition inspect_concept (queries : list (string * string)) : promise Executed :=
  executeTool (inspect_concept_handler queries (executeSparql net)).

Definition explore_catalog (graphsQuery ontologiesQuery : string) : promise Executed :=
  executeTool
    (explore_catalog_handler
       (executeSparql net graphsQuery) (executeSparql net ontologiesQuery)).

Definition explore_dataset (metadataQuery distQuery : string) : promise Executed :=
  executeTool
    (explore_dataset_handler
       (executeSparql net metadataQuery) (executeSparql net distQuery)).

Definition suggest_improvements (lonelyQuery cycleQuery : string) : promise Executed :=
  executeTool
    (suggest_improvements_handler
       (executeSparql net lonelyQuery) (executeSparql net cycleQuery)).

Definition browse_vocabulary (dataQuery countQuery : string) (offset : Z)
  : promise Executed :=
  executeTool
    (browse_vocabulary_handler offset
       (executeSparql net dataQuery) (executeSparql net countQuery)).

End Tools.

(** ** Notions of the specification *)

(** A ResultSet (specification, section 3): the declared variables and the
    rows, as the endpoint sends them. *)
Definition ResultSet (variables : list string) (rows : list SparqlBinding)
  : option SparqlResult :=
  Some {| head := Some {| vars := Some variables |};
          results := Some {| bindings := Some rows |} |}.


(** What a record keeps of a row: every pair but one under [__proto__]. *)
Definition kept (kv : string * SparqlBindingValue) : Prop := fst kv <> "__proto__".

(** A row is an object: no key twice. *)
Definition is_object {V : Type} (o : list (string * V)) : Prop :=
  NoDup (Object_keys o).

(** The results or the bindings of [result] are absent or null. *)
Definition lacks_bindings (result : option SparqlResult) : Prop :=
  match result with
  | None => True
  | Some r =>
      match results r with
      | None => True
      | Some rs => bindings rs = None
      end
  end.

(** A host for the examples: the messages of V8 on a text that ends too
    early, and the order of code units for the collation. *)
Definition example_host : Host :=
  {| JSON_parse_message := fun _ => "Unexpected end of JSON input";
     undefined_length_message :=
       "Cannot read properties of undefined (reading 'length')";
     null_results_message :=
       "Cannot read properties of null (reading 'results')";
     localeCompare := fun a b =>
       match String.compare a b with
       | Lt => -1
       | Eq => 0
       | Gt => 1
       end |}.

Definition literal (s : string) : SparqlBindingValue :=
  {| type := "literal"; value := s; datatype := None; xml_lang := None |}.

(** [a >= b] on numbers: false as soon as one side is [NaN]. *)
Definition number_ge (a b : number) : bool :=
  match a, b with
  | Int x, Int y => y <=? x
  | Infinity negative, Int _ => negb negative
  | Int _, Infinity negative => negative
  | Infinity negative, Infinity negative' => negb negative || negative'
  | _, _ => false
  end.

(** The invariants of PaginationInfo (specification, section 3). *)
Definition pagination_invariants (p : PaginationInfo) : Prop :=
  number_ge (total p) (Int (count p)) = true
  /\ has_more p = number_lt (Int (offset p + count p)) (total p)
  /\ next_offset p = (if has_more p then Some (Int (offset p + count p)) else None).

(** An integer up to [2^53]: a double, as every integer between it and
    zero. *)
Definition safe (z : Z) : Prop := Z.abs z <= 9007199254740992.

(** Two numbers whose sum the doubles hold exactly. *)
Definition safe_sum (a b : Z) : Prop := safe a /\ safe b /\ safe (a + b).

(** What the code keeps: [has_more] and [next_offset] follow from [offset],
    [total] and the step [page]. *)
Definition paginates_by (page : Z) (p : PaginationInfo) : Prop :=
  has_more p = number_lt (Int (offset p + page)) (total p)
  /\ next_offset p = (if has_more p then Some (Int (offset p + page)) else None).

(** The response of a failed invocation: the message of [e] and nothing
    else. *)
Definition failure_of (e : exn) : Executed :=
  {| logged := ["Error: " +:+ exn_message e];
     response := {| content := ["Error: " +:+ exn_message e]; isError := true |} |}.

Section FanOut.
Context `{Host}.

(** The fan-out operations: the sub-queries launched together and the
    operation that joins them. *)
Inductive fan_out : list (promise (option SparqlResult)) -> promise Executed -> Prop :=
| fan_list_datasets net dataQuery countQuery offset :
    fan_out [executeSparql net dataQuery; executeSparql net countQuery]
      (list_datasets net dataQuery countQuery offset)
| fan_list_municipalities_belfiore net namesQuery belfioreQuery dataQuery countQuery
    limit offset :
    fan_out [executeSparql net namesQuery; executeSparql net belfioreQuery;
             executeSparql net countQuery]
      (list_municipalities net namesQuery belfioreQuery dataQuery countQuery
         limit offset true)
| fan_list_municipalities_simple net namesQuery belfioreQuery dataQuery countQuery
    limit offset :
    fan_out [executeSparql net dataQuery; executeSparql net countQuery]
      (list_municipalities net namesQuery belfioreQuery dataQuery countQuery
         limit offset false)
| fan_list_provinces net namesQuery siglaQuery metroQuery :
    fan_out [executeSparql net namesQuery; executeSparql net siglaQuery;
             executeSparql net metroQuery]
      (list_provinces net namesQuery siglaQuery metroQuery)
| fan_inspect_concept net queries :
    fan_out (map (fun entry => executeSparql net (snd entry)) queries)
      (inspect_concept net queries)
| fan_explore_catalog net graphsQuery ontologiesQuery :
    fan_out [executeSparql net graphsQuery; executeSparql net ontologiesQuery]
      (explore_catalog net graphsQuery ontologiesQuery)
| fan_explore_dataset net metadataQuery distQuery :
    fan_out [executeSparql net metadataQuery; executeSparql net distQuery]
      (explore_dataset net metadataQuery distQuery)
| fan_suggest_improvements net lonelyQuery cycleQuery :
    fan_out [executeSparql net lonelyQuery; executeSparql net cycleQuery]
      (suggest_improvements net lonelyQuery cycleQuery)
| fan_browse_vocabulary net dataQuery countQuery offset :
    fan_out [executeSparql net dataQuery; executeSparql net countQuery]
      (browse_vocabulary net dataQuery countQuery offset).

End FanOut.

(** Networks for the examples. *)
Definition silent_network : Network := fun _ _ => Silent.

Definition answering (t : nat) (v : option SparqlResult) : Outcome :=
  Answers t {| ok := true; status := 200; statusText := "OK"; payload := Json v |}.

(** The query text of a request. *)
Definition query_of (init : RequestInit) : string :=
  default "" (obj_get "query" (body init)).

(** A network that answers each query text as [table] says and stays silent
    on the others. *)
Definition scripted (table : list (string * Outcome)) : Network :=
  fun _ init =>
    default Silent
      (obj_get (query_of init)
         (map (fun kv => (PREFIXES +:+ "
" +:+ fst kv, snd kv)) table)).

(** A dataset with two titles: two rows for one dataset. *)
Definition two_titles : option SparqlResult :=
  ResultSet ["dataset"; "label"]
    [[("dataset", literal "http://example.org/d1"); ("label", literal "Titolo")];
     [("dataset", literal "http://example.org/d1"); ("label", literal "Title")]].

Definition one_dataset : option SparqlResult :=
  ResultSet ["total"] [[("total", literal "1")]].

Definition rome_twice : option SparqlResult :=
  ResultSet ["notation"; "name"]
    [[("notation", literal "060"); ("name", literal "Roma")];
     [("notation", literal "060"); ("name", literal "Roma Capitale")]].

Definition five_cities : option SparqlResult :=
  ResultSet ["total"] [[("total", literal "5")]].

(** Six rows over two variables; the second variable is bound in the first
    row only. *)
Definition six_rows : list SparqlBinding :=
  [("s", literal "a"); ("p", literal "b")]
  :: repeat [("s", literal "c")] 5.

(** One successful answer without results, at instant 1. *)
Definition shapeless : option SparqlResult :=
  Some {| head := None; results := None |}.

(** The names and the count answer, the Belfiore lookup breaks. *)
Definition belfiore_breaks : Network :=
  scripted [("names", answering 4 rome_twice);
            ("belfiore", Breaks 2 (Error "fetch failed"));
            ("count", answering 3 five_cities)].

(** The name that [row] proposes for the key [k], if it has one: the code
    skips a row whose key or name is missing or empty. *)
Definition candidate (k : string) (row : SparqlBinding) : option string :=
  match binding_value "notation" row, binding_value "name" row with
  | Some notation, Some name =>
      if truthy notation && truthy name && String.eqb notation k
      then Some name else None
  | _, _ => None
  end.

(** The names proposed for [k], in the order of the rows. *)
Definition candidates (k : string) (rows : list SparqlBinding) : list string :=
  omap (candidate k) rows.


(** The survivor after each candidate in turn, as the loop keeps it. *)
Definition longest_so_far (l : list string) : option string :=
  fold_left
    (fun kept x =>
       match kept with
       | None => Some x
       | Some b => if JsString.length b <? JsString.length x then Some x else Some b
       end)
    l None.

(** What the map of the reconciler holds after the rows, when no row has
    made the loop throw: no key twice; under each key that no prototype
    has, the record of the longest name seen for it so far; and under every
    key the record of that key and of a name proposed for it. *)
Definition reconciled {R : Type} (make : string -> string -> R)
  (rows : list SparqlBinding) (seen : list (string * R)) : Prop :=
  is_object seen
  /\ (forall k, k ∉ Object_prototype_names ->
        obj_get k seen = make k <$> longest_so_far (candidates k rows))
  /\ (forall k r, obj_get k seen = Some r ->
        exists n, r = make k n /\ n ∈ candidates k rows).

(** ** Notions for the JSON reader *)

(** A reader reads the same from a text with more text after it. *)
Definition extends {A : Type} (p : string -> option (A * string)) : Prop :=
  forall s a r q, p s = Some (a, r) -> p (s +:+ q) = Some (a, r +:+ q).

(** The same for values; a number that ends with the text may go on. *)
Definition extends_value (p : string -> option (jsval * string)) : Prop :=
  forall s v r q,
    p s = Some (v, r) -> (r <> "" \/ forall n, v <> JNum n) ->
    p (s +:+ q) = Some (v, r +:+ q).

(** What [p] reads, [p'] reads too. *)
Definition refines {A : Type} (p p' : string -> option A) : Prop :=
  forall s a, p s = Some a -> p' s = Some a.

Definition no_digit_head (s : string) : Prop :=
  match s with
  | EmptyString => True
  | String c _ => Json.digit_of c = None
  end.

Fixpoint all_digits (s : string) : Prop :=
  match s with
  | EmptyString => True
  | String c s' => is_Some (Json.digit_of c) /\ all_digits s'
  end.

(** A text is JSON when some fuel reads one value from it, with blanks
    around it at most. *)
Definition is_json (text : string) : Prop :=
  exists fuel v r,
    Json.parse_value fuel (Json.skip_ws text) = Some (v, r) /\ Json.skip_ws r = "".

(** ** Notions of the output budget *)

(** Every text of the response has at most [CHARACTER_LIMIT] units. *)
Definition within_budget (r : McpToolResponse) : bool :=
  forallb (fun text => JsString.length text <=? CHARACTER_LIMIT) (content r).

(** The handler fails with [message] at the instant [t]: its promise is
    rejected with an error of that message, or fulfilled with a failure
    result of that message. *)
Definition fails_with {T : Type} (handler : promise (ToolResult T)) (t : nat)
  (message : string) : Prop :=
  (exists name, handler = Rejected t (Exn name message))
  \/ (exists suggestion, handler = Fulfilled t (ToolError message suggestion)).

(** The truncation marker around [null]. *)
Definition truncated_envelope : string :=
  "{" +:+ Json.quote "_truncated" +:+ ":true," +:+ Json.quote "_message" +:+ ":"
  +:+ Json.quote "Result exceeded 50000 characters and was truncated" +:+ ","
  +:+ Json.quote "data" +:+ ":null}".

(** The summary that a success logs. *)
Definition success_summary (rowCount : option Z) (truncated : bool) : string :=
  "Success"
  +:+ match rowCount with
      | Some n => ", " +:+ pretty n +:+ " rows"
      | None => ""
      end
  +:+ (if truncated then " (truncated)" else "").

(** The text that [JSON.stringify] gives for a datum; empty for [undefined]. *)
Definition serialized {T : Type} `{ToValue T} (data : T) : string :=
  default "" (Json.stringify (to_value data)).

Fixpoint repeat_unit (c : ascii) (n : nat) : string :=
  match n with
  | O => EmptyString
  | S n' => String c (repeat_unit c n')
  end.

(** Five rows, each binding [s] to a literal of 12,000 units. *)
Definition five_long_rows : option SparqlResult :=
  ResultSet ["s"] (repeat [("s", literal (repeat_unit "a" (Z.to_nat 12000)))] 5).

(** An endpoint that fails with a status text of 50,000 units. *)
Definition long_status : Network :=
  fun _ _ =>
    Answers 1 {| ok := false; status := 500;
                 statusText := repeat_unit "x" (Z.to_nat 50000);
                 payload := NotJson "" |}.

(* --------------------------------------------------------------------- *)
(** ** The rest of the program

    The functions and callbacks of [index.ts] that the sections above
    leave out, and the notions that their properties are stated with. *)

From Stdlib Require Import Sorted.

(** ** URI sanitizer (index.ts, lines 113-119) *)

(** The units that the character class of the pattern leaves out: the
    blanks of the escape s, the angle brackets, the quote, the braces, the
    bar, the backslash, the caret and the backtick. *)
Definition is_uri_excluded (c : ascii) : bool :=
  is_StrWhiteSpaceChar c
  || Ascii.eqb c "<" || Ascii.eqb c ">" || Ascii.eqb c dquote
  || Ascii.eqb c "{" || Ascii.eqb c "}" || Ascii.eqb c "|"
  || Ascii.eqb c backslash || Ascii.eqb c "^" || Ascii.eqb c "`".

Fixpoint all_uri_units (s : string) : bool :=
  match s with
  | EmptyString => true
  | String c r => negb (is_uri_excluded c) && all_uri_units r
  end.

(** The pattern after its scheme: the two slashes, then one unit of the
    class or more, up to the end of the input. *)
Definition test_uri_tail (s : string) : bool :=
  match Json.strip_prefix "://" s with
  | Some rest => truthy rest && all_uri_units rest
  | None => false
  end.

(** The test of line 115: http, an s or none, and the tail. *)
Definition test_uri (input : string) : bool :=
  match Json.strip_prefix "http" input with
  | Some r =>
      match r with
      | String c r' =>
          (Ascii.eqb c "s" && test_uri_tail r') || test_uri_tail r
      | EmptyString => false
      end
  | None => false
  end.

Definition sanitizeSparqlUri (input : string) : exn + string :=
  if negb (test_uri input) then inl (Error ("Invalid URI: " +:+ input))
  else inr input.

(** What the pattern accepts: the scheme, and after it one unit or more,
    all of them of the class. *)
Definition is_web_uri (input : string) : Prop :=
  exists rest,
    rest <> "" /\ all_uri_units rest = true
    /\ (input = "http://" +:+ rest \/ input = "https://" +:+ rest).

(** ** Notions of the SPARQL grammar *)

Definition QUOTE : string := String dquote EmptyString.

(** ECHAR: what may follow a backslash in a literal. *)
Definition echar (e : ascii) : option ascii :=
  if Ascii.eqb e "t" then Some Json.TAB
  else if Ascii.eqb e "b" then Some "008"%char
  else if Ascii.eqb e "n" then Some LF
  else if Ascii.eqb e "r" then Some CR
  else if Ascii.eqb e "f" then Some "012"%char
  else if Ascii.eqb e backslash then Some backslash
  else if Ascii.eqb e dquote then Some dquote
  else if Ascii.eqb e "'" then Some "'"%char
  else None.

(** STRING_LITERAL2 after its opening quote: the units the literal stands
    for and the text after its closing quote. A bare line feed or carriage
    return is not part of a literal. *)
Fixpoint read_string_literal (s : string) : option (string * string) :=
  match s with
  | EmptyString => None
  | String c rest =>
      if Ascii.eqb c dquote then Some (EmptyString, rest)
      else if Ascii.eqb c backslash then
        match rest with
        | EmptyString => None
        | String e rest' =>
            match echar e with
            | Some u => Json.prepend u (read_string_literal rest')
            | None => None
            end
        end
      else if Ascii.eqb c LF || Ascii.eqb c CR then None
      else Json.prepend c (read_string_literal rest)
  end.

(** The units that IRIREF leaves out of an IRI. *)
Definition is_iri_excluded (c : ascii) : bool :=
  (N_of_ascii c <=? 32)%N
  || Ascii.eqb c "<" || Ascii.eqb c ">" || Ascii.eqb c dquote
  || Ascii.eqb c "{" || Ascii.eqb c "}" || Ascii.eqb c "|"
  || Ascii.eqb c "^" || Ascii.eqb c "`" || Ascii.eqb c backslash.

(** IRIREF after its opening bracket: the IRI and the text after the
    closing bracket. *)
Fixpoint read_iriref (s : string) : option (string * string) :=
  match s with
  | EmptyString => None
  | String c rest =>
      if Ascii.eqb c ">" then Some (EmptyString, rest)
      else if is_iri_excluded c then None
      else Json.prepend c (read_iriref rest)
  end.

(** The units of [s] that the string sanitizer rewrites. *)
Definition is_escaped_unit (c : ascii) : bool :=
  Ascii.eqb c backslash || Ascii.eqb c dquote || Ascii.eqb c LF || Ascii.eqb c CR.

Fixpoint count_units (p : ascii -> bool) (s : string) : nat :=
  match s with
  | EmptyString => O
  | String c r => ((if p c then 1 else 0) + count_units p r)%nat
  end.

(** No unit of [s] is below the space. *)
Fixpoint no_control_unit (s : string) : bool :=
  match s with
  | EmptyString => true
  | String c r => (32 <? N_of_ascii c)%N && no_control_unit r
  end.

(** ** The tools of one query that check a URI first
    (index.ts, lines 458-484, 640-654, 1037-1057, 1287-1306, 1424-1450)

    An [async] callback that throws before its first [await] returns a
    promise that is rejected at once, at instant [0]. *)

Section UriTools.
Context `{Host}.
Variable net : Network.

Definition check_coverage (targetUri : option string) : promise Executed :=
  if truthy (default "" targetUri) then
    match sanitizeSparqlUri (default "" targetUri) with
    | inl thrown => Rejected 0 thrown
    | inr safeUri =>
        executeSparqlTool net ("
        SELECT (COUNT(DISTINCT ?s) AS ?instances) (COUNT(DISTINCT ?p) AS ?propertiesUsed)
        WHERE {
            { ?s a <" +:+ safeUri +:+ "> }
            UNION
            { ?s <" +:+ safeUri +:+ "> ?o }
            UNION
            { ?sub <" +:+ safeUri +:+ "> ?obj }
        }
      ")
    end
  else
    executeSparqlTool net "
        SELECT ?type (COUNT(?s) AS ?count)
        WHERE {
          ?s a ?type .
        }
        GROUP BY ?type
        ORDER BY DESC(?count)
        LIMIT 50
      ".

Definition explore_ontology (ontologyUri : string) : promise Executed :=
  match sanitizeSparqlUri ontologyUri with
  | inl thrown => Rejected 0 thrown
  | inr safeUri =>
      executeSparqlTool net ("
      SELECT DISTINCT ?type ?item ?label
      WHERE {
        VALUES ?type { owl:Class owl:ObjectProperty owl:DatatypeProperty }
        ?item a ?type .
        OPTIONAL { ?item rdfs:label ?label }
        FILTER(STRSTARTS(STR(?item), " +:+ QUOTE +:+ safeUri +:+ QUOTE +:+ "))
      }
      ORDER BY ?type ?item
      LIMIT 200
    ")
  end.

Definition find_relations (sourceUri targetUri : string) : promise Executed :=
  match sanitizeSparqlUri sourceUri with
  | inl thrown => Rejected 0 thrown
  | inr safeSource =>
      match sanitizeSparqlUri targetUri with
      | inl thrown => Rejected 0 thrown
      | inr safeTarget =>
          executeSparqlTool net ("
      SELECT ?p1 ?mid ?p2
      WHERE {
        {
          <" +:+ safeSource +:+ "> ?p1 <" +:+ safeTarget +:+ "> .
          BIND(" +:+ QUOTE +:+ "DIRECT" +:+ QUOTE +:+ " AS ?mid)
          BIND(" +:+ QUOTE +:+ "NONE" +:+ QUOTE +:+ " AS ?p2)
        }
        UNION
        {
          <" +:+ safeSource +:+ "> ?p1 ?mid .
          ?mid ?p2 <" +:+ safeTarget +:+ "> .
        }
      }
      LIMIT 10
    ")
      end
  end.

Definition get_property_details (propertyUri : string) : promise Executed :=
  match sanitizeSparqlUri propertyUri with
  | inl thrown => Rejected 0 thrown
  | inr safeUri =>
      executeSparqlTool net ("
      SELECT ?p ?o
      WHERE {
        <" +:+ safeUri +:+ "> ?p ?o .
        FILTER(?p IN (
          rdf:type,
          rdfs:label,
          rdfs:comment,
          rdfs:domain,
          rdfs:range,
          rdfs:subPropertyOf,
          owl:inverseOf,
          owl:equivalentProperty
        ) || ?p = rdf:type && ?o IN (owl:FunctionalProperty, owl:InverseFunctionalProperty, owl:SymmetricProperty, owl:TransitiveProperty))
      }
    ")
  end.

Definition describe_resource (uri : string) (depth : number) : promise Executed :=
  match sanitizeSparqlUri uri with
  | inl thrown => Rejected 0 thrown
  | inr safeUri =>
      executeSparqlTool net
        (match depth with
         | Int 2 => "
        SELECT ?p ?o ?p2 ?o2
        WHERE {
          <" +:+ safeUri +:+ "> ?p ?o .
          OPTIONAL {
            FILTER(ISURI(?o))
            ?o ?p2 ?o2 .
          }
        }
        LIMIT 200
      "
         | _ => "
        SELECT ?p ?o
        WHERE {
          <" +:+ safeUri +:+ "> ?p ?o .
        }
        LIMIT 100
      "
         end)
  end.

End UriTools.

(** The URI check of a callback: it rejects with the error of the
    sanitizer when [uri] fails the pattern, and does not reject otherwise. *)
Definition guards (uri : string) (p : promise Executed) : Prop :=
  (~ is_web_uri uri -> p = Rejected 0 (Error ("Invalid URI: " +:+ uri)))
  /\ (is_web_uri uri -> forall t e, p <> Rejected t e).

(** What an invocation answers: one text, which is JSON when the error flag
    is off, and which starts with the error marker, and is not JSON, when
    the flag is on. *)
Definition answers_json_or_error (done : Executed) : Prop :=
  exists text,
    content (response done) = [text]
    /\ if isError (response done)
       then (exists message, text = "Error: " +:+ message) /\ ~ is_json text
       else is_json text.

(** What may follow the message in the text of a failure: nothing, or a
    line feed and a suggestion that is not empty. *)
Definition suggestion_or_nothing (more : string) : Prop :=
  more = ""
  \/ exists suggestion,
       suggestion <> "" /\ more = String LF ("Suggestion: " +:+ suggestion).

(** What an invocation logs: one summary of a success; or one summary of
    an error, the text of the response being that summary with at most a
    suggestion after it; or, when the truncated text could not be wrapped,
    the summary of the truncated success and after it the summary of the
    error, which is then the text of the response. *)
Definition logs_its_outcome (done : Executed) : Prop :=
  (isError (response done) = false
   /\ exists rowCount truncated, logged done = [success_summary rowCount truncated])
  \/ (exists message more,
        response done
        = {| content := ["Error: " +:+ message +:+ more]; isError := true |}
        /\ suggestion_or_nothing more
        /\ (logged done = ["Error: " +:+ message]
            \/ (more = ""
                /\ exists rowCount,
                     logged done
                     = [success_summary rowCount true; "Error: " +:+ message]))).

(** The number of rows that a compressed result shows. *)
Definition compressed_length (c : CompressedResult) : Z :=
  match c with
  | CompressedSimple rows => Z.of_nat (List.length rows)
  | CompressedTabular _ rows => Z.of_nat (List.length rows)
  end.

(** An answer with rows and without a head. *)
Definition headless (rows : list SparqlBinding) : option SparqlResult :=
  Some {| head := None; results := Some {| bindings := Some rows |} |}.

(** A string of 60,000 units without a brace. *)
Definition long_text : string := repeat_unit "a" (Z.to_nat 60000).

(** The instant a promise is fulfilled at. *)
Definition fulfilled_at {A : Type} (p : promise A) : option nat :=
  match p with
  | Fulfilled t _ => Some t
  | _ => None
  end.

(** The last of some instants. *)
Definition latest (instants : list nat) : nat := foldr Nat.max O instants.

(** The sections of a profile: each query name with the compressed answer
    to its query, an answer that is [null] giving no section. *)
Definition sections (entries : list (string * string))
  (answers : list (option SparqlResult)) : list (string * CompressedResult) :=
  omap (fun ea => (fun r => (fst (fst ea), compressSparqlResult (Some r))) <$> snd ea)
       (zip entries answers).

(** The queries of [inspect_concept] by name, their texts left out. *)
Definition profile_entries : list (string * string) :=
  [("definition", "q1"); ("hierarchy", "q2"); ("usage", "q3");
   ("incoming", "q4"); ("outgoing", "q5")].

(** The code that [row] proposes under [field] for the key [k]: the lookup
    loops pass over a row whose key or code is missing or empty. *)
Definition coded (field k : string) (row : SparqlBinding) : option string :=
  match binding_value "notation" row, binding_value field row with
  | Some n, Some v =>
      if truthy n && truthy v && String.eqb n k then Some v else None
  | _, _ => None
  end.

(** The codes proposed for [k], in the order of the rows. *)
Definition codes (field k : string) (result : option SparqlResult) : list string :=
  omap (coded field k) (default [] (result_bindings result)).



(** The [total] that the first row of a count answer spells, if any. *)
Definition spelled_total (countResult : option SparqlResult) : option string :=
  bs ← result_bindings countResult; b ← bs !! O; binding_value "total" b.

(** A text that [parseInt] does not read: it is empty, or its first unit is
    not a blank, a sign or a digit. *)
Definition not_numeric (text : string) : Prop :=
  match text with
  | EmptyString => True
  | String c _ =>
      is_StrWhiteSpaceChar c = false /\ c <> "-"%char /\ c <> "+"%char
      /\ Json.digit_of c = None
  end.

(** ** The keyword filter of list_municipalities and list_provinces
    (index.ts, lines 1651-1653 and 1808-1810) *)

Definition keywordFilter (keyword : option string) : string :=
  if truthy (default "" keyword) then
    "FILTER(REGEX(?name, " +:+ QUOTE +:+ sanitizeSparqlString (default "" keyword)
    +:+ QUOTE +:+ ", " +:+ QUOTE +:+ "i" +:+ QUOTE +:+ "))"
  else "".

(** ** Logging (index.ts, lines 86-103) *)

Definition log_entry (timestamp toolName : string) (args : list (string * jsval))
  (resultSummary : string) : jsval :=
  JObj [("timestamp", JStr timestamp); ("tool", JStr toolName);
        ("args", JObj args); ("summary", JStr resultSummary)].

(** [appendFile(LOG_FILE, data)] on a log file that is absent ([None]) or
    has a text: the file with [data] after its text, unless the file system
    refuses with an error. *)
Definition appendFile (refusal : option exn) (file : option string) (data : string)
  : exn + string :=
  match refusal with
  | Some e => inl e
  | None => inr (default "" file +:+ data)
  end.

(** [logUsage(toolName, args, resultSummary)] at the instant [timestamp]
    spells: the log file after the call. The error of a refused write is
    printed and dropped. *)
Definition logUsage (refusal : option exn) (timestamp toolName : string)
  (args : list (string * jsval)) (resultSummary : string) (file : option string)
  : option string :=
  let entry := log_entry timestamp toolName args resultSummary in
  match appendFile refusal file
          (default "undefined" (Json.stringify entry) +:+ String LF "") with
  | inr text => Some text
  | inl _ => file
  end.

(** No unit of [s] is a line feed. *)
Definition one_line (s : string) : Prop :=
  count_units (fun c => Ascii.eqb c LF) s = O.

(** ** preview_distribution (index.ts, lines 1128-1196) *)

Module Preview.

(** [s.split(sep)] for a separator of one code unit. *)
Fixpoint split (sep : ascii) (s : string) : list string :=
  match s with
  | EmptyString => [EmptyString]
  | String c r =>
      if Ascii.eqb c sep then EmptyString :: split sep r
      else
        match split sep r with
        | piece :: pieces => String c piece :: pieces
        | [] => [String c EmptyString]
        end
  end.

(** [s.includes(sub)] *)
Fixpoint includes (s sub : string) : bool :=
  match Json.strip_prefix sub s with
  | Some _ => true
  | None =>
      match s with
      | String _ r => includes r sub
      | EmptyString => false
      end
  end.

(** [s.endsWith(suffix)] *)
Definition endsWith (s suffix : string) : bool :=
  (String.length suffix <=? String.length s)%nat
  && String.eqb (drop (String.length s - String.length suffix) s) suffix.

(** A response to a download: its status line, its content type if it has
    one, and the promise of its text. *)
Record Download := {
  ok : bool;
  status : Z;
  statusText : string;
  content_type : option string;
  text : promise string
}.

(** What the remote end does with the request of a download. *)
Inductive Arrival :=
| Arrives (t : nat) (d : Download)
| Fails (t : nat) (e : exn)
| Never.

Definition Web : Type := string -> Arrival.

(** [fetch(url, { signal })] with a signal that aborts [ms] after the
    call. *)
Definition fetch (web : Web) (url : string) (ms : nat) : promise Download :=
  match web url with
  | Arrives t d => if (t <=? ms)%nat then Fulfilled t d else Rejected ms AbortError
  | Fails t e => if (t <=? ms)%nat then Rejected t e else Rejected ms AbortError
  | Never => Rejected ms AbortError
  end.

End Preview.

Section PreviewDistribution.
Context `{Host}.
Variable web : Preview.Web.

(** What lines 1174-1181 make of a text in the JSON branch: the first
    items of the value, indented, or the head of the text when it is not
    JSON. The branch is outside the JSON of this file (numbers with a
    fraction, indentation) and is a parameter here. *)
Variable json_preview : string -> string.

Definition preview_of (url contentType text : string) : string :=
  if Preview.includes contentType "json" || Preview.endsWith url ".json"
  then json_preview text
  else
    let lines := firstn 15 (Preview.split LF text) in
    Json.join (String LF "") lines.

Definition preview_distribution_handler (url : string) : promise (ToolResult string) :=
  match Preview.fetch web url (Z.to_nat 10000) with
  | Fulfilled t response =>
      if negb (Preview.ok response) then
        Fulfilled t
          (ToolError ("Failed to fetch distribution: "
                      +:+ pretty (Preview.status response) +:+ " "
                      +:+ Preview.statusText response) None)
      else
        let contentType := default "" (Preview.content_type response) in
        match Preview.text response with
        | Fulfilled t' text =>
            let preview := preview_of url contentType text in
            Fulfilled t'
              (ToolSuccess ("Preview of " +:+ url +:+ ":

" +:+ preview) None)
        | Rejected t' e => Rejected t' e
        | Pending => Pending
        end
  | Rejected t e => Rejected t e
  | Pending => Pending
  end.

Definition preview_distribution (url : string) : promise Executed :=
  executeTool (preview_distribution_handler url).

End PreviewDistribution.

(** A comma-separated file of twenty lines. *)
Definition twenty_lines : string :=
  Json.join (String LF "") (repeat "a,b" 20).

(** A download that arrives at instant [t] with the text [body] at [t + 5]. *)
Definition csv_download (t : nat) (body : string) : Preview.Arrival :=
  Preview.Arrives t
    {| Preview.ok := true; Preview.status := 200; Preview.statusText := "OK";
       Preview.content_type := Some "text/csv";
       Preview.text := Fulfilled (t + 5) body |}.

(** ** What a serialised value is read back as

    [JSON.parse(JSON.stringify(v))]: [NaN] and an [undefined] element come
    back as [null], an [undefined] property does not come back, and of two
    properties of one name the later value comes back at the place of the
    earlier. *)

Section Revive.
Variable revive : jsval -> jsval.

Fixpoint revive_members (l : list (string * jsval)) : list (string * jsval) :=
  match l with
  | [] => []
  | (k, x) :: l' =>
      match x with
      | JUndefined => revive_members l'
      | _ => (k, revive x) :: revive_members l'
      end
  end.

End Revive.

Fixpoint revive (v : jsval) : jsval :=
  match v with
  | JUndefined => JNull
  | JNull => JNull
  | JBool b => JBool b
  | JNum NaN => JNull
  | JNum (Int z) => JNum (Int z)
  | JNum (Infinity _) => JNull
  | JStr s => JStr s
  | JArr vs => JArr (map revive vs)
  | JObj kvs =>
      JObj (fold_left (fun o kv => obj_set (fst kv) (snd kv) o)
              (revive_members revive kvs) [])
  end.

(** The round trip of one value: what is written for it is read back as
    the revived value by any fuel above twice its length, whatever follows
    it (a digit apart). *)
Definition revives (v : jsval) : Prop :=
  forall t, Json.stringify v = Some t ->
    forall rest fuel, no_digit_head rest -> (2 * String.length t < fuel)%nat ->
      Json.parse_value fuel (t +:+ rest) = Some (revive v, rest).

(** ** Values at run time

    What the meta tools do with the values they read from the log, whose
    types the code asserts and does not check. *)

(** ToBoolean *)
Definition ToBoolean (v : jsval) : bool :=
  match v with
  | JUndefined | JNull => false
  | JBool b => b
  | JNum NaN => false
  | JNum (Int z) => negb (z =? 0)
  | JNum (Infinity _) => true
  | JStr s => truthy s
  | JArr _ | JObj _ => true
  end.

(** ToString; an array is its elements joined by commas, [null] and
    [undefined] among them being empty. *)
Fixpoint ToString (v : jsval) : string :=
  match v with
  | JUndefined => "undefined"
  | JNull => "null"
  | JBool true => "true"
  | JBool false => "false"
  | JNum NaN => "NaN"
  | JNum (Int z) => Json.number_to_string z
  | JNum (Infinity false) => "Infinity"
  | JNum (Infinity true) => "-Infinity"
  | JStr s => s
  | JArr vs =>
      Json.join ","
        (map (fun x => match x with
                       | JUndefined | JNull => ""
                       | _ => ToString x
                       end) vs)
  | JObj _ => "[object Object]"
  end.

(** [v.k] for a name [k] that no prototype has: [None] is the TypeError of
    reading a property of [null] or [undefined]. *)
Definition get_property (v : jsval) (k : string) : option jsval :=
  match v with
  | JUndefined | JNull => None
  | JObj kvs => Some (default JUndefined (obj_get k kvs))
  | _ => Some JUndefined
  end.

(** [s.trim()] *)
Fixpoint trim_end (s : string) : string :=
  match s with
  | EmptyString => EmptyString
  | String c r =>
      match trim_end r with
      | EmptyString =>
          if is_StrWhiteSpaceChar c then EmptyString else String c EmptyString
      | kept => String c kept
      end
  end.

Definition trim (s : string) : string := trim_end (trim_start s).

(** [s.startsWith(prefix)] *)
Definition startsWith (s prefix : string) : bool :=
  match Json.strip_prefix prefix s with
  | Some _ => true
  | None => false
  end.

(** [[...new Set(l)]]: the first occurrence of each string, in order. *)
Fixpoint distinct_from (seen l : list string) : list string :=
  match l with
  | [] => []
  | x :: l' =>
      if bool_decide (x ∈ seen) then distinct_from seen l'
      else x :: distinct_from (x :: seen) l'
  end.

(** [l.slice(-n)] *)
Definition last_n {A : Type} (n : nat) (l : list A) : list A :=
  skipn (List.length l - n) l.

(** ** analyze_usage (index.ts, lines 1540-1611) *)

(** The log file as [existsSync] and [readFile] find it; [t] is the
    instant the read settles at. *)
Inductive LogFile :=
| NoFile
| Unreadable (t : nat) (e : exn)
| FileText (t : nat) (data : string).

Record Usage := {
  totalCalls : Z;
  toolUsage : list (string * Z);
  errors : list string;
  recentTimestamps : list jsval
}.

(** The body of the [try] block after [totalCalls++]; where a TypeError is
    thrown the rest of the body is not run. *)
Definition analyze_entry (entry : jsval) (st : Usage) : Usage :=
  match get_property entry "tool" with
  | None => st
  | Some tool =>
      let st1 :=
        if ToBoolean tool then
          {| totalCalls := totalCalls st;
             toolUsage :=
               property_set (ToString tool)
                 (match obj_get (ToString tool) (toolUsage st) with
                  | Some n => if n =? 0 then 1 else n + 1
                  | None => 1
                  end) (toolUsage st);
             errors := errors st;
             recentTimestamps := recentTimestamps st |}
        else st in
      let summary := default JUndefined (get_property entry "summary") in
      let after_summary :=
        match summary with
        | JUndefined | JNull => Some st1
        | JStr s =>
            if startsWith s "Error" then
              Some {| totalCalls := totalCalls st1;
                      toolUsage := toolUsage st1;
                      errors := errors st1 ++ ["[" +:+ ToString tool +:+ "] " +:+ s];
                      recentTimestamps := recentTimestamps st1 |}
            else Some st1
        | _ => None
        end in
      match after_summary with
      | None => st1
      | Some st2 =>
          let timestamp := default JUndefined (get_property entry "timestamp") in
          if ToBoolean timestamp then
            {| totalCalls := totalCalls st2;
               toolUsage := toolUsage st2;
               errors := errors st2;
               recentTimestamps := recentTimestamps st2 ++ [timestamp] |}
          else st2
      end
  end.

(** One turn of the loop over the lines. *)
Definition analyze_line (st : Usage) (line : string) : Usage :=
  if negb (truthy (trim line)) then st
  else
    match Json.parse line with
    | None => st
    | Some entry =>
        analyze_entry entry
          {| totalCalls := totalCalls st + 1;
             toolUsage := toolUsage st;
             errors := errors st;
             recentTimestamps := recentTimestamps st |}
    end.

Definition analyze_lines (data : string) : Usage :=
  fold_left analyze_line (Preview.split LF (trim data))
    {| totalCalls := 0; toolUsage := []; errors := []; recentTimestamps := [] |}.

Definition analyze_usage_data (data : string) : jsval :=
  let st := analyze_lines data in
  let distinctErrors := firstn 5 (distinct_from [] (errors st)) in
  let lastActivity := default JUndefined (last (last_n 5 (recentTimestamps st))) in
  JObj [("total_calls", JNum (Int (totalCalls st)));
        ("tool_breakdown",
          JObj (map (fun kv => (fst kv, JNum (Int (snd kv)))) (toolUsage st)));
        ("recent_errors", JArr (map JStr distinctErrors));
        ("last_activity", lastActivity)].

Definition analyze_usage_handler (file : LogFile) : promise (ToolResult jsval) :=
  match file with
  | NoFile =>
      Fulfilled 0
        (ToolSuccess (JObj [("message", JStr "No usage logs found yet.")]) None)
  | Unreadable t e => Rejected t e
  | FileText t data => Fulfilled t (ToolSuccess (analyze_usage_data data) None)
  end.

Definition analyze_usage `{Host} (file : LogFile) : promise Executed :=
  executeTool (analyze_usage_handler file).

(** ** Notions for the log *)

(** One call of [logUsage]: what it was given, and the instant it spells. *)
Record Logged := {
  logged_timestamp : string;
  logged_tool : string;
  logged_args : list (string * jsval);
  logged_summary : string
}.

(** The log after the calls, from no file, every write accepted. *)
Definition log_after (calls : list Logged) : option string :=
  fold_left
    (fun file c =>
       logUsage None (logged_timestamp c) (logged_tool c) (logged_args c)
         (logged_summary c) file)
    calls None.

(** The calls of the tool [tool] among [calls]. *)
Definition calls_of (tool : string) (calls : list Logged) : list Logged :=
  filter (fun c => logged_tool c = tool) calls.

(** The error lines of the calls: the tool in brackets and the summary, for
    each summary that starts with Error. *)
Definition error_lines (calls : list Logged) : list string :=
  omap (fun c =>
          if startsWith (logged_summary c) "Error"
          then Some ("[" +:+ logged_tool c +:+ "] " +:+ logged_summary c)
          else None) calls.

(** Calls as the server logs them: a timestamp that is not empty, and a
    tool name that is not empty and that no prototype has. *)
Definition well_logged (c : Logged) : Prop :=
  logged_tool c <> "" /\ (logged_tool c ∉ Object_prototype_names)
  /\ logged_timestamp c <> "".

(** Two calls of one tool, the second of which failed. *)
Definition two_calls : list Logged :=
  [{| logged_timestamp := "2025-01-01T00:00:00.000Z";
      logged_tool := "list_ontologies";
      logged_args := [("limit", JNum (Int 50))];
      logged_summary := "3 results" |};
   {| logged_timestamp := "2025-01-01T00:00:01.000Z";
      logged_tool := "list_ontologies";
      logged_args := [];
      logged_summary := "Error: HTTP 500" |}].

(** The line that [logUsage] writes for a call, without its line feed. *)
Definition log_line (c : Logged) : string :=
  serialized
    (log_entry (logged_timestamp c) (logged_tool c) (logged_args c) (logged_summary c)).

(** The text of the log: the lines of the calls, a line feed after each. *)
Fixpoint log_text (calls : list Logged) : string :=
  match calls with
  | [] => ""
  | c :: calls' => log_line c +:+ String LF (log_text calls')
  end.

(** What the line of a call is read back as. *)
Definition log_value (c : Logged) : jsval :=
  JObj [("timestamp", JStr (logged_timestamp c)); ("tool", JStr (logged_tool c));
        ("args", revive (JObj (logged_args c)));
        ("summary", JStr (logged_summary c))].

(** The state of the analysis after the calls. *)
Definition usage_of (calls : list Logged) (st : Usage) : Prop :=
  totalCalls st = Z.of_nat (List.length calls)
  /\ (forall tool,
        obj_get tool (toolUsage st)
        = match calls_of tool calls with
          | [] => None
          | found => Some (Z.of_nat (List.length found))
          end)
  /\ errors st = error_lines calls
  /\ recentTimestamps st = map (fun c => JStr (logged_timestamp c)) calls.

(* ===================================================================== *)
(** * Part II: properties                                                 *)
(* ===================================================================== *)

(** ** Strings *)

Section Strings.

Lemma string_app_assoc (s1 s2 s3 : string) :
  (s1 +:+ s2) +:+ s3 = s1 +:+ (s2 +:+ s3).
Proof. induction s1 as [|a s1 IH]; simpl; [done|]. by rewrite IH. Qed.

Lemma string_app_nil_r (s : string) : s +:+ "" = s.
Proof. induction s as [|a s IH]; simpl; [done|]. by rewrite IH. Qed.

Lemma string_app_nil (s1 s2 : string) : s1 +:+ s2 = "" -> s1 = "" /\ s2 = "".
Proof. by destruct s1. Qed.

Lemma string_app_length (s1 s2 : string) :
  String.length (s1 +:+ s2) = (String.length s1 + String.length s2)%nat.
Proof. induction s1 as [|a s1 IH]; simpl; [done|]. by rewrite IH. Qed.

Lemma take_drop n s : take n s +:+ drop n s = s.
Proof.
  revert s. induction n as [|n IH]; intros [|c s]; simpl; try done.
  by rewrite IH.
Qed.

Lemma take_length n s :
  String.length (take n s) = Nat.min n (String.length s).
Proof.
  revert s. induction n as [|n IH]; intros [|c s]; simpl; try done.
  by rewrite IH.
Qed.

Lemma take_app_exact a b : take (String.length a) (a +:+ b) = a.
Proof. induction a as [|c a IH]; simpl; [by destruct b|]. by rewrite IH. Qed.

Lemma slice_take s n :
  0 <= n <= JsString.length s -> slice s 0 n = take (Z.to_nat n) s.
Proof.
  intros Hn. unfold slice, clamp.
  pose proof (Zle_0_nat (String.length s)) as Hlen. fold (JsString.length s) in Hlen.
  change (0 <? 0) with false. cbv beta iota.
  destruct (n <? 0) eqn:E; [apply Z.ltb_lt in E; lia|].
  rewrite Z.min_l by lia. rewrite Z.min_l by lia.
  by rewrite Z.sub_0_r.
Qed.

Lemma lastIndexOf_from_spec i last c s :
  lastIndexOf_from i last c s = last
  \/ exists a b, s = a +:+ String c b
                 /\ lastIndexOf_from i last c s = i + JsString.length a.
Proof.
  revert i last. induction s as [|x s IH]; intros i last; simpl; [by left|].
  destruct (IH (i + 1) (if Ascii.eqb x c then i else last)) as [Heq|(a & b & -> & Heq)].
  - rewrite Heq. destruct (Ascii.eqb x c) eqn:E; [|by left].
    apply Ascii.eqb_eq in E as ->. right. exists "", s. split; [done|].
    unfold JsString.length. simpl. lia.
  - right. exists (String x a), b. split; [done|]. rewrite Heq.
    unfold JsString.length. simpl. lia.
Qed.

(** The cut of [executeTool]: empty, or up to a closing brace of the text. *)
Lemma cut_at_last_brace text :
  (lastIndexOf text rbrace = -1 /\ slice text 0 (lastIndexOf text rbrace + 1) = "")
  \/ exists a b, text = (a +:+ String rbrace "") +:+ b
                 /\ slice text 0 (lastIndexOf text rbrace + 1) = a +:+ String rbrace "".
Proof.
  unfold lastIndexOf.
  destruct (lastIndexOf_from_spec 0 (-1) rbrace text) as [->|(a & b & -> & ->)].
  - left. split; [done|]. by destruct text.
  - right. exists a, b. rewrite string_app_assoc. simpl. split; [done|].
    rewrite slice_take.
    + replace (Z.to_nat (0 + JsString.length a + 1))
        with (String.length (a +:+ String rbrace "")).
      * rewrite <- (take_app_exact (a +:+ String rbrace "") b) at 2.
        by rewrite string_app_assoc.
      * rewrite string_app_length. unfold JsString.length. simpl. lia.
    + unfold JsString.length. rewrite string_app_length. simpl. lia.
Qed.

End Strings.

(** ** The sanitizer *)

Section Sanitizer.

Lemma concat_map_app f s1 s2 :
  concat_map f (s1 +:+ s2) = concat_map f s1 +:+ concat_map f s2.
Proof.
  induction s1 as [|a s1 IH]; [done|].
  simpl. by rewrite IH, string_app_assoc.
Qed.

Lemma concat_map_compose f g s :
  concat_map g (concat_map f s) = concat_map (fun a => concat_map g (f a)) s.
Proof.
  induction s as [|a s IH]; [done|].
  simpl. by rewrite concat_map_app, IH.
Qed.

Lemma concat_map_ext f g s :
  (forall a, f a = g a) -> concat_map f s = concat_map g s.
Proof. intros E. induction s as [|a s IH]; simpl; [done|]. by rewrite E, IH. Qed.

(** A pass of [replace] with the [g] flag rewrites unit by unit. *)
Lemma replaceAll_by_unit c r s :
  replaceAll c r s =
  concat_map (fun a => if Ascii.eqb a c then r else String a EmptyString) s.
Proof.
  induction s as [|a s IH]; [done|].
  simpl. rewrite IH. by destruct (Ascii.eqb a c).
Qed.

(** The four passes never escape again what an earlier pass wrote: together
    they are one pass that maps every unit to its own escape. *)
Lemma sanitize_by_unit s : sanitizeSparqlString s = concat_map escape_unit s.
Proof.
  unfold sanitizeSparqlString.
  rewrite !replaceAll_by_unit, !concat_map_compose.
  apply concat_map_ext.
  intros [[] [] [] [] [] [] [] []]; reflexivity.
Qed.

Lemma unescape_escape_units s : unescapeLiteral (concat_map escape_unit s) = s.
Proof.
  induction s as [|a s IH]; [done|].
  simpl. revert IH. generalize (concat_map escape_unit s) as t.
  destruct a as [[] [] [] [] [] [] [] []]; intros t IH; simpl; by rewrite IH.
Qed.

End Sanitizer.


(** C8: [sanitizeSparqlString] is a function on all strings; it applies the
    escapes in the order backslash, double quote, line feed, carriage
    return, and unescaping its result by the inverse rule gives the input
    back, for every input string. *)
Theorem sanitize_round_trip (s : string) :
  sanitizeSparqlString s =
    replaceAll CR (String backslash "r")
      (replaceAll LF (String backslash "n")
         (replaceAll dquote (String backslash (String dquote EmptyString))
            (replaceAll backslash (String backslash (String backslash EmptyString)) s)))
  /\ unescapeLiteral (sanitizeSparqlString s) = s.
Proof.
  split; [reflexivity|].
  rewrite sanitize_by_unit. apply unescape_escape_units.
Qed.

(** The example of the specification: a, quote, b, backslash, c. *)
Example sanitize_example :
  let s := String "a" (String dquote (String "b" (String backslash "c"))) in
  sanitizeSparqlString s =
    String "a" (String backslash (String dquote
      (String "b" (String backslash (String backslash "c")))))
  /\ unescapeLiteral (sanitizeSparqlString s) = s.
Proof. split; reflexivity. Qed.

(** ** Lists *)

Lemma lookup_map {A B : Type} (f : A -> B) (l : list A) (i : nat) :
  map f l !! i = f <$> (l !! i).
Proof.
  revert i. induction l as [|a l IH]; intros [|i]; simpl; auto.
Qed.

(** ** Objects *)

Section Objects.
Context {V : Type}.
Implicit Types (o : list (string * V)) (k : string) (v : V).

Lemma obj_get_set_eq o k v : obj_get k (obj_set k v o) = Some v.
Proof.
  induction o as [|[k' v'] o IH]; simpl.
  - by rewrite String.eqb_refl.
  - destruct (String.eqb k k') eqn:E; simpl; rewrite ?E; [|done].
    by rewrite String.eqb_refl.
Qed.

Lemma obj_get_set_ne o k k' v : k <> k' -> obj_get k' (obj_set k v o) = obj_get k' o.
Proof.
  intros Hne. induction o as [|[k0 v0] o IH]; simpl.
  - destruct (String.eqb k' k) eqn:E; [|done].
    apply String.eqb_eq in E. congruence.
  - destruct (String.eqb k k0) eqn:E; simpl.
    + apply String.eqb_eq in E as <-.
      destruct (String.eqb k' k) eqn:E'; [|done].
      apply String.eqb_eq in E'. congruence.
    + by rewrite IH.
Qed.

Lemma obj_get_None o k : obj_get k o = None <-> k ∉ Object_keys o.
Proof.
  induction o as [|[k' v'] o IH]; simpl.
  - split; [intros _; apply not_elem_of_nil | done].
  - rewrite not_elem_of_cons.
    destruct (String.eqb k k') eqn:E.
    + apply String.eqb_eq in E. split; [done | intros [? _]; done].
    + apply String.eqb_neq in E. rewrite IH. tauto.
Qed.

Lemma obj_get_Some_elem o k v : obj_get k o = Some v -> (k, v) ∈ o.
Proof.
  induction o as [|[k' v'] o IH]; simpl; [done|].
  destruct (String.eqb k k') eqn:E.
  - apply String.eqb_eq in E as ->. intros [= ->]. apply list_elem_of_here.
  - intros Hg. apply list_elem_of_further. auto.
Qed.

Lemma obj_set_fresh o k v : k ∉ Object_keys o -> obj_set k v o = o ++ [(k, v)].
Proof.
  induction o as [|[k' v'] o IH]; simpl; [done|].
  rewrite not_elem_of_cons. intros [Hne Hni].
  apply String.eqb_neq in Hne. rewrite Hne. by rewrite IH.
Qed.

Lemma obj_set_keys_present o k v :
  k ∈ Object_keys o -> Object_keys (obj_set k v o) = Object_keys o.
Proof.
  induction o as [|[k' v'] o IH]; simpl; [by intros ?%elem_of_nil|].
  destruct (String.eqb k k') eqn:E; simpl.
  - apply String.eqb_eq in E as ->. done.
  - apply String.eqb_neq in E. rewrite elem_of_cons. intros [?|Hin]; [done|].
    by rewrite IH.
Qed.


End Objects.

(** ** The compressor *)

Section Compressor.





End Compressor.

Lemma compress_lacking (result : option SparqlResult) :
  lacks_bindings result -> compressSparqlResult result = CompressedSimple [].
Proof.
  unfold lacks_bindings, compressSparqlResult, result_bindings.
  destruct result as [r|]; [|done].
  simpl. destruct (results r) as [rs|]; [|done].
  simpl. by intros ->.
Qed.

Lemma row_count_lacking `{Host} (r : SparqlResult) :
  lacks_bindings (Some r) -> row_count (Some r) = inr 0.
Proof.
  unfold lacks_bindings, row_count, unguarded_bindings. simpl.
  destruct (results r) as [rs|]; [|done].
  simpl. by intros ->.
Qed.

(** On an answer that is not [null], the count does not throw and is the
    number of the bindings. *)
Lemma row_count_guarded `{Host} (r : SparqlResult) :
  row_count (Some r) = inr (guarded_row_count (Some r)).
Proof.
  unfold row_count, guarded_row_count, unguarded_bindings, result_bindings. simpl.
  by destruct (results r ≫= bindings).
Qed.



(** C10: on every input whose results or bindings are absent or null,
    [compressSparqlResult] returns the empty list; it does not throw. *)
Theorem compress_without_bindings (result : option SparqlResult) :
  lacks_bindings result -> compressSparqlResult result = CompressedSimple [].
Proof.
  destruct result as [r|]; [|reflexivity].
  unfold lacks_bindings. intros Hlack.
  unfold compressSparqlResult, result_bindings. simpl.
  destruct (results r) as [rs|]; [|reflexivity].
  simpl. rewrite Hlack. reflexivity.
Qed.

Lemma compress_without_bindings_witness :
  lacks_bindings (Some {| head := Some {| vars := Some ["s"] |}; results := None |})
  /\ compressSparqlResult
       (Some {| head := Some {| vars := Some ["s"] |}; results := None |})
     = CompressedSimple [].
Proof.
  split; [exact I|].
  apply (compress_without_bindings
           (Some {| head := Some {| vars := Some ["s"] |}; results := None |})).
  exact I.
Defined.



(** ** Pagination *)

Section Doubles.

Lemma nearest_double_safe n : 0 <= n <= 9007199254740992 -> nearest_double n = n.
Proof.
  intros Hn. unfold nearest_double.
  destruct (decide (n = 9007199254740992)) as [->|Hne]; [reflexivity|].
  assert (Z.log2 n < 53) as Hlog.
  { destruct (decide (n = 0)) as [->|Hz]; [done|].
    apply Z.log2_lt_pow2; lia. }
  destruct (Z.log2 n - 52 <=? 0) eqn:E; [done|]. apply Z.leb_gt in E. lia.
Qed.

(** The safe integers are their own Number value. *)
Lemma to_Number_safe z : safe z -> to_Number z = Int z.
Proof.
  unfold safe, to_Number. intros Hz. cbv zeta.
  rewrite nearest_double_safe by lia.
  destruct (2 ^ 1024 <=? Z.abs z) eqn:E.
  - apply Z.leb_le in E.
    assert (9007199254740992 < 2 ^ 1024) by (apply Z.ltb_lt; vm_compute; reflexivity).
    lia.
  - f_equal. lia.
Qed.

End Doubles.

Lemma make_pagination_paginates total count offset page :
  safe_sum offset page -> paginates_by page (make_pagination total count offset page).
Proof.
  intros (_ & _ & Hsafe). unfold paginates_by, make_pagination. simpl.
  by rewrite to_Number_safe.
Qed.

(** C4, as stated, fails: [list_datasets] reports [total = 1] with
    [count = 2] for a dataset with two titles, and [list_municipalities]
    with Belfiore codes reports [next_offset = 2] for [offset = 0] and
    [count = 1]. *)
Lemma pagination_invariants_counterexample :
  (exists d,
     list_datasets_data (H := example_host) 0 two_titles one_dataset = inr d
     /\ ~ pagination_invariants (datasets_pagination d))
  /\ (exists d,
        list_municipalities_belfiore_data (H := example_host) 2 0
          rome_twice shapeless five_cities = inr d
        /\ ~ pagination_invariants (municipalities_pagination d)).
Proof.
  split; eexists; (split; [vm_compute; reflexivity|]);
    intros (Hge & Hmore & Hnext); vm_compute in *; congruence.
Qed.

(** C4, amended: in every listing that is returned, and for an offset
    and a page whose sum is within the safe integers, [has_more] is
    [offset + page < total] and
    [next_offset] is [offset + page] when [has_more] and null otherwise,
    where [page] is [count] for [list_datasets], [browse_vocabulary] and
    [list_municipalities] without Belfiore codes, and the page size
    [safeLimit] for [list_municipalities] with Belfiore codes; [total] is
    the number the count query reports and [count] the number of records
    returned, and the two are not compared. *)
Theorem pagination_of_listings `{Host} :
  (forall skip dataResult countResult d,
     list_datasets_data skip dataResult countResult = inr d ->
     let p := datasets_pagination d in
     safe_sum skip (count p) ->
     paginates_by (count p) p
     /\ count_total countResult = inr (total p)
     /\ row_count dataResult = inr (count p)
     /\ offset p = skip)
  /\ (forall skip dataResult countResult d,
        browse_vocabulary_data skip dataResult countResult = inr d ->
        let p := concepts_pagination d in
        safe_sum skip (count p) ->
        paginates_by (count p) p
        /\ count_total countResult = inr (total p)
        /\ row_count dataResult = inr (count p)
        /\ offset p = skip)
  /\ (forall skip dataResult countResult d,
        list_municipalities_simple_data skip dataResult countResult = inr d ->
        let p := page_pagination d in
        safe_sum skip (count p) ->
        paginates_by (count p) p
        /\ count_total countResult = inr (total p)
        /\ row_count dataResult = inr (count p)
        /\ offset p = skip)
  /\ (forall safeLimit skip namesResult belfioreResult countResult d,
        list_municipalities_belfiore_data safeLimit skip
          namesResult belfioreResult countResult = inr d ->
        let p := municipalities_pagination d in
        safe_sum skip safeLimit ->
        paginates_by safeLimit p
        /\ count_total countResult = inr (total p)
        /\ (exists cities,
              reconciled_cities namesResult belfioreResult = inr cities
              /\ count p = Z.of_nat (List.length cities))
        /\ offset p = skip).
Proof.
  assert (Hpage : forall skip dataResult countResult p,
            (count ← row_count dataResult;
             total ← count_total countResult;
             inr (make_pagination total count skip count)) = inr p ->
            safe_sum skip (count p) ->
            paginates_by (count p) p
            /\ count_total countResult = inr (total p)
            /\ row_count dataResult = inr (count p)
            /\ offset p = skip).
  { intros skip dataResult countResult p.
    destruct (row_count dataResult) as [e|n]; [done|].
    destruct (count_total countResult) as [e|t]; [done|].
    simpl. intros [= <-] Hsafe. simpl in *.
    split; [by apply make_pagination_paginates|]. done. }
  split; [|split; [|split]].
  - intros skip dataResult countResult d Hd p. apply Hpage.
    unfold list_datasets_data in Hd.
    destruct (row_count dataResult) as [e|n]; [done|].
    destruct (count_total countResult) as [e|t]; [done|].
    simpl in *. injection Hd as <-. done.
  - intros skip dataResult countResult d Hd p. apply Hpage.
    unfold browse_vocabulary_data in Hd.
    destruct (row_count dataResult) as [e|n]; [done|].
    destruct (count_total countResult) as [e|t]; [done|].
    simpl in *. injection Hd as <-. done.
  - intros skip dataResult countResult d Hd p. apply Hpage.
    unfold list_municipalities_simple_data in Hd.
    destruct (row_count dataResult) as [e|n]; [done|].
    destruct (count_total countResult) as [e|t]; [done|].
    simpl in *. injection Hd as <-. done.
  - intros safeLimit skip namesResult belfioreResult countResult d Hd p.
    unfold list_municipalities_belfiore_data in Hd. subst p.
    destruct (reconciled_cities namesResult belfioreResult) as [e|cities]; [done|].
    destruct (count_total countResult) as [e|t]; [done|].
    simpl in Hd. injection Hd as <-. simpl. intros Hsafe.
    split; [by apply make_pagination_paginates|]. split; [done|].
    split; [by exists cities|done].
Qed.

Lemma pagination_of_listings_witness :
  exists d,
    list_datasets_data (H := example_host) 0 two_titles one_dataset = inr d
    /\ paginates_by (count (datasets_pagination d)) (datasets_pagination d).
Proof.
  exists {| items := compressSparqlResult two_titles;
            datasets_pagination := make_pagination (Int 1) 2 0 2 |}.
  split; [reflexivity|].
  refine (proj1 (proj1 (pagination_of_listings (H := example_host))
                   0 two_titles one_dataset _ eq_refl _)).
  repeat split; vm_compute; discriminate.
Defined.

(** ** The executor *)

(** C2, as stated, fails: no signal is attached to the request; against an
    endpoint that never answers the call never settles, and an answer that
    comes after an hour is still accepted. In neither case does the call
    fail with a TimeoutError. *)
Lemma executor_deadline_counterexample :
  signal (executeSparql_init "ASK { ?s ?p ?o }") = None
  /\ executeSparql (H := example_host) silent_network "ASK { ?s ?p ?o }" = Pending
  /\ executeSparql (H := example_host)
       (fun _ _ => answering 3600000 shapeless) "ASK { ?s ?p ?o }"
     = Fulfilled 3600000 shapeless
  /\ ~ (exists t message,
          executeSparql (H := example_host) silent_network "ASK { ?s ?p ?o }"
          = Rejected t (Exn "TimeoutError" message)).
Proof.
  split; [reflexivity|]. split; [reflexivity|]. split; [reflexivity|].
  intros (t & message & Heq). discriminate Heq.
Qed.

Lemma executeSparql_settles `{Host} (net : Network) (query : string) :
  executeSparql net query =
  match net ENDPOINT (executeSparql_init query) with
  | Silent => Pending
  | Breaks t e => Rejected t e
  | Answers t r =>
      if ok r then
        match Response_json r with
        | inr v => Fulfilled t v
        | inl e => Rejected t e
        end
      else Rejected t (Error ("SPARQL request failed: " +:+ pretty (status r)
                              +:+ " " +:+ statusText r))
  end.
Proof.
  unfold executeSparql, fetch. simpl.
  destruct (net ENDPOINT (executeSparql_init query)) as [t r|t e|]; simpl; try done.
  destruct (ok r); simpl; [|done].
  by destruct (Response_json r).
Qed.

(** C2, amended: every call to the executor makes one request, without a
    signal or deadline, and settles as that request does and at its
    instant, however late: it stays pending while the endpoint is silent,
    fails with the transport's error, fails with an Error naming the status
    when the status is not a success, and otherwise is what
    [response.json()] gives; nothing is tried again. *)
Theorem executor_settles_with_its_request `{Host} (net : Network) (query : string) :
  method (executeSparql_init query) = "POST"
  /\ signal (executeSparql_init query) = None
  /\ executeSparql net query =
     match net ENDPOINT (executeSparql_init query) with
     | Silent => Pending
     | Breaks t e => Rejected t e
     | Answers t r =>
         if ok r then
           match Response_json r with
           | inr v => Fulfilled t v
           | inl e => Rejected t e
           end
         else Rejected t (Error ("SPARQL request failed: " +:+ pretty (status r)
                                 +:+ " " +:+ statusText r))
     end.
Proof.
  split; [reflexivity|]. split; [reflexivity|].
  apply executeSparql_settles.
Qed.

(** C3, as stated, fails: a successful answer whose body is the JSON object
    without results is returned as a result, and the tool answers with the
    empty list, not with a ParseError. *)
Lemma executor_shape_counterexample :
  lacks_bindings shapeless
  /\ executeSparql (H := example_host) (fun _ _ => answering 1 shapeless) "ASK {}"
     = Fulfilled 1 shapeless
  /\ executeSparqlTool (H := example_host) (fun _ _ => answering 1 shapeless) "ASK {}"
     = Fulfilled 1
         {| logged := ["Success, 0 rows"];
            response := {| content := ["[]"]; isError := false |} |}.
Proof. split; [exact I|]. split; reflexivity. Qed.

Lemma executeSparqlTool_fulfilled `{Host} net query t (body : SparqlResult) :
  executeSparql net query = Fulfilled t (Some body) ->
  executeSparqlTool net query =
  Fulfilled t (executeTool_settled
                 (ToolSuccess (compressSparqlResult (Some body))
                    (Some (guarded_row_count (Some body))))).
Proof.
  unfold executeSparqlTool. intros ->. unfold Promise_then.
  by rewrite row_count_guarded.
Qed.

(** On the body [null] the tool fails: reading [results] of it throws. *)
Lemma executeSparqlTool_null `{Host} net query t :
  executeSparql net query = Fulfilled t None ->
  executeSparqlTool net query
  = Fulfilled t (failure_of (Exn "TypeError" null_results_message)).
Proof. unfold executeSparqlTool. by intros ->. Qed.

(** C3, amended: the executor does not check the shape of a body. Of a
    successful answer, a body that is not JSON fails the call with the
    SyntaxError of the JSON reader, and a JSON body is returned as the
    result, whatever its shape; when it is not null and lacks results or
    bindings, the tool answers with the empty list. *)
Theorem executor_returns_any_json `{Host} (net : Network) (query : string)
  (t : nat) (r : Response) :
  net ENDPOINT (executeSparql_init query) = Answers t r ->
  ok r = true ->
  (forall text, payload r = NotJson text ->
     executeSparql net query = Rejected t (Exn "SyntaxError" (JSON_parse_message text)))
  /\ (forall v, payload r = Json v ->
        executeSparql net query = Fulfilled t v
        /\ (forall body, v = Some body -> lacks_bindings v ->
            executeSparqlTool net query =
            Fulfilled t
              {| logged := ["Success, 0 rows"];
                 response := {| content := ["[]"]; isError := false |} |})).
Proof.
  intros Hnet Hok.
  pose proof (executeSparql_settles net query) as Hex.
  rewrite Hnet, Hok in Hex. unfold Response_json in Hex.
  split.
  - intros text Hp. by rewrite Hp in Hex.
  - intros v Hp. rewrite Hp in Hex. split; [done|].
    intros body -> Hlack. unfold executeSparqlTool. rewrite Hex. unfold Promise_then.
    rewrite (row_count_lacking body Hlack). cbn [mbind throws_bind].
    rewrite (compress_lacking (Some body) Hlack).
    reflexivity.
Qed.

Lemma executor_returns_any_json_witness :
  executeSparql (H := example_host) (fun _ _ => answering 1 shapeless) "ASK {}"
  = Fulfilled 1 shapeless.
Proof.
  refine (proj1 (proj2 (executor_returns_any_json (H := example_host)
                          (fun _ _ => answering 1 shapeless) "ASK {}" 1
                          {| ok := true; status := 200; statusText := "OK";
                             payload := Json shapeless |}
                          eq_refl eq_refl) shapeless eq_refl)).
Defined.

(** ** Fan-out *)

Section FanOutFacts.
Context `{Host}.

Lemma first_rejection_elem {A : Type} (ps : list (promise A)) t e :
  first_rejection ps = Some (t, e) -> Rejected t e ∈ ps.
Proof.
  revert t e. induction ps as [|p ps IH]; intros t e; simpl; [done|].
  destruct p as [t0 a|t0 e0|].
  - intros Hf. apply list_elem_of_further. auto.
  - destruct (first_rejection ps) as [[t' e']|].
    + destruct (t0 <=? t')%nat.
      * intros [= <- <-]. apply list_elem_of_here.
      * intros [= <- <-]. apply list_elem_of_further. auto.
    + intros [= <- <-]. apply list_elem_of_here.
  - intros Hf. apply list_elem_of_further. auto.
Qed.

Lemma first_rejection_some {A : Type} (ps : list (promise A)) t e :
  Rejected t e ∈ ps -> is_Some (first_rejection ps).
Proof.
  induction ps as [|p ps IH]; [by intros ?%elem_of_nil|].
  rewrite elem_of_cons. intros [<-|Hin]; simpl.
  - destruct (first_rejection ps) as [[t' e']|]; [|by eexists].
    destruct (t <=? t')%nat; by eexists.
  - destruct (IH Hin) as [[t' e'] Hf]. rewrite Hf.
    destruct p as [t0 a|t0 e0|]; try by eexists.
    destruct (t0 <=? t')%nat; by eexists.
Qed.

(** [Promise.all] rejects as soon as one of its promises does, with the
    error of one of them. *)
Lemma Promise_all_rejects {A : Type} (ps : list (promise A)) t e :
  Rejected t e ∈ ps ->
  exists t' e', Rejected t' e' ∈ ps /\ Promise_all ps = Rejected t' e'.
Proof.
  intros Hin. destruct (first_rejection_some ps t e Hin) as [[t' e'] Hf].
  exists t', e'. split; [by apply first_rejection_elem|].
  unfold Promise_all. by rewrite Hf.
Qed.

Lemma executeTool_joins_rejection {A T : Type} `{ToValue T}
  (ps : list (promise A)) (f : list A -> exn + ToolResult T) t e :
  Rejected t e ∈ ps ->
  exists t' e', Rejected t' e' ∈ ps
    /\ executeTool (Promise_then (Promise_all ps) f) = Fulfilled t' (failure_of e').
Proof.
  intros Hin. destruct (Promise_all_rejects ps t e Hin) as (t' & e' & Hin' & Hall).
  exists t', e'. split; [done|]. by rewrite Hall.
Qed.

End FanOutFacts.

(** C9: every fan-out operation is all-or-nothing: when one of its
    sub-queries fails, the operation answers with the failure of a failed
    sub-query, the error flag and its message, and with nothing of what the
    other sub-queries returned. *)
Theorem fan_out_all_or_nothing `{Host}
  (subqueries : list (promise (option SparqlResult))) (operation : promise Executed) :
  fan_out subqueries operation ->
  (exists t e, Rejected t e ∈ subqueries) ->
  exists t e, Rejected t e ∈ subqueries /\ operation = Fulfilled t (failure_of e).
Proof.
  intros Hfan (t & e & Hin).
  destruct Hfan; unfold list_datasets, list_municipalities, list_provinces,
    inspect_concept, explore_catalog, explore_dataset, suggest_improvements,
    browse_vocabulary; eapply executeTool_joins_rejection; eassumption.
Qed.

Lemma fan_out_all_or_nothing_witness :
  Rejected 2 (Error "fetch failed")
    ∈ [executeSparql (H := example_host) belfiore_breaks "names";
       executeSparql (H := example_host) belfiore_breaks "belfiore";
       executeSparql (H := example_host) belfiore_breaks "count"]
  /\ exists t e,
       Rejected t e
         ∈ [executeSparql (H := example_host) belfiore_breaks "names";
            executeSparql (H := example_host) belfiore_breaks "belfiore";
            executeSparql (H := example_host) belfiore_breaks "count"]
       /\ list_municipalities (H := example_host) belfiore_breaks
            "names" "belfiore" "data" "count" 50 0 true
          = Fulfilled t (failure_of e).
Proof.
  assert (Hin : Rejected 2 (Error "fetch failed")
                  ∈ [executeSparql (H := example_host) belfiore_breaks "names";
                     executeSparql (H := example_host) belfiore_breaks "belfiore";
                     executeSparql (H := example_host) belfiore_breaks "count"]).
  { apply list_elem_of_further, list_elem_of_here. }
  split; [exact Hin|].
  apply (fan_out_all_or_nothing (H := example_host)).
  - apply (fan_list_municipalities_belfiore (H := example_host)).
  - exists 2%nat, (Error "fetch failed"). exact Hin.
Defined.

(** ** The reconciler *)

Section PropertyOrder.
Context {V : Type}.

Lemma insert_index_get_eq n k (v : V) o :
  obj_get k o = None -> obj_get k (insert_index n k v o) = Some v.
Proof.
  induction o as [|[k' v'] o IH]; simpl.
  { by rewrite String.eqb_refl. }
  destruct (String.eqb k k') eqn:E; [done|]. intros Ho.
  destruct (array_index k') as [n'|].
  - destruct (n' <? n); simpl.
    + rewrite E. by apply IH.
    + by rewrite String.eqb_refl.
  - simpl. by rewrite String.eqb_refl.
Qed.

Lemma insert_index_get_ne n k k' (v : V) o :
  k <> k' -> obj_get k' (insert_index n k v o) = obj_get k' o.
Proof.
  intros Hne. apply String.eqb_neq in Hne. rewrite String.eqb_sym in Hne.
  induction o as [|[k0 v0] o IH]; simpl.
  { by rewrite Hne. }
  destruct (array_index k0) as [n0|].
  - destruct (n0 <? n); simpl.
    + by rewrite IH.
    + by rewrite Hne.
  - simpl. by rewrite Hne.
Qed.

Lemma property_set_get_eq k (v : V) o : obj_get k (property_set k v o) = Some v.
Proof.
  unfold property_set. destruct (obj_get k o) as [v0|] eqn:Ho.
  - apply obj_get_set_eq.
  - destruct (array_index k); [by apply insert_index_get_eq|apply obj_get_set_eq].
Qed.

Lemma property_set_get_ne k k' (v : V) o :
  k <> k' -> obj_get k' (property_set k v o) = obj_get k' o.
Proof.
  intros Hne. unfold property_set. destruct (obj_get k o) as [v0|].
  - by apply obj_get_set_ne.
  - destruct (array_index k); [by apply insert_index_get_ne|by apply obj_get_set_ne].
Qed.

End PropertyOrder.

Section Dedupe.
Context {R : Type} (name_of key_of : R -> string) (make : string -> string -> R).
Hypothesis name_of_make : forall k n, name_of (make k n) = n.
Hypothesis key_of_make : forall k n, key_of (make k n) = k.

Lemma longest_so_far_snoc l x :
  longest_so_far (l ++ [x]) =
  match longest_so_far l with
  | None => Some x
  | Some b => if JsString.length b <? JsString.length x then Some x else Some b
  end.
Proof. unfold longest_so_far. by rewrite fold_left_app. Qed.



Lemma candidates_snoc k rows row :
  candidates k (rows ++ [row]) =
  candidates k rows ++ match candidate k row with Some n => [n] | None => [] end.
Proof.
  unfold candidates. rewrite omap_app. simpl. by destruct (candidate k row).
Qed.

Lemma is_object_set {V : Type} (o : list (string * V)) k v :
  is_object o -> is_object (obj_set k v o).
Proof.
  intros Ho. destruct (decide (k ∈ Object_keys o)) as [Hin|Hni].
  - unfold is_object. by rewrite obj_set_keys_present.
  - rewrite obj_set_fresh by done. unfold is_object, Object_keys in *.
    rewrite map_app. apply NoDup_app. split; [done|]. split.
    + intros x Hx. simpl. rewrite list_elem_of_singleton. by intros ->.
    + apply NoDup_singleton.
Qed.

Lemma obj_get_elem_object {V : Type} (o : list (string * V)) k v :
  is_object o -> (k, v) ∈ o -> obj_get k o = Some v.
Proof.
  induction o as [|[k' v'] o IH]; [by intros _ ?%elem_of_nil|].
  unfold is_object. simpl. rewrite NoDup_cons, elem_of_cons.
  intros [Hni Hnd] [[= <- <-]|Hin].
  - by rewrite String.eqb_refl.
  - destruct (String.eqb k k') eqn:E; [|by apply IH].
    apply String.eqb_eq in E as <-. exfalso. apply Hni.
    unfold Object_keys. apply list_elem_of_fmap. by exists (k, v).
Qed.

Lemma fold_throws_app {A B : Type} (f : A -> B -> exn + A) l1 l2 a :
  fold_throws f (l1 ++ l2) a = (a' ← fold_throws f l1 a; fold_throws f l2 a').
Proof.
  revert a. induction l1 as [|x l1 IH]; intros a; simpl; [done|].
  destruct (f a x) as [e|a']; simpl; [done|]. apply IH.
Qed.

Lemma insert_index_perm {V : Type} n k (v : V) o : insert_index n k v o ≡ₚ (k, v) :: o.
Proof.
  induction o as [|[k' v'] o IH]; simpl; [done|].
  destruct (array_index k') as [n'|]; [|done].
  destruct (n' <? n); [|done]. rewrite IH. apply Permutation_swap.
Qed.

Lemma is_object_property_set {V : Type} (o : list (string * V)) k v :
  is_object o -> is_object (property_set k v o).
Proof.
  intros Ho. unfold property_set.
  destruct (obj_get k o) as [v0|] eqn:Hget; [by apply is_object_set|].
  destruct (array_index k) as [n|]; [|by apply is_object_set].
  unfold is_object, Object_keys. rewrite insert_index_perm. simpl.
  apply NoDup_cons. split; [|done]. by apply obj_get_None.
Qed.

Lemma property_set_length {V : Type} (o : list (string * V)) k v :
  (List.length (property_set k v o) <= S (List.length o))%nat.
Proof.
  unfold property_set.
  assert (List.length (obj_set k v o) <= S (List.length o))%nat as Hset.
  { induction o as [|[k' v'] o IH]; simpl; [lia|].
    destruct (String.eqb k k'); simpl; lia. }
  destruct (obj_get k o); [done|]. destruct (array_index k) as [n|]; [|done].
  by rewrite insert_index_perm.
Qed.

(** What [o[k]] finds under a name that no prototype has. *)
Lemma property_get_plain {V : Type} (o : list (string * V)) k :
  k ∉ Object_prototype_names ->
  property_get k o = match obj_get k o with Some v => Own v | None => NoMember end.
Proof.
  intros Hk. unfold property_get. destruct (obj_get k o); [done|].
  destruct (String.eqb_spec k "__proto__") as [->|_].
  { exfalso. apply Hk. by apply (bool_decide_unpack _). }
  by rewrite bool_decide_eq_false_2.
Qed.

Lemma property_get_own {V : Type} (o : list (string * V)) k v :
  property_get k o = Own v <-> obj_get k o = Some v.
Proof.
  unfold property_get. destruct (obj_get k o) as [v0|].
  - split; by intros [= ->].
  - destruct (String.eqb k "__proto__"); [done|]. by destruct (bool_decide _).
Qed.

Lemma property_get_not_own {V : Type} (o : list (string * V)) k :
  (forall v, property_get k o <> Own v) -> obj_get k o = None.
Proof.
  intros Hno. destruct (obj_get k o) as [v|] eqn:E; [|done].
  apply property_get_own in E. by apply Hno in E.
Qed.

Lemma candidates_mono k rows row n :
  n ∈ candidates k rows -> n ∈ candidates k (rows ++ [row]).
Proof. rewrite candidates_snoc, elem_of_app. by left. Qed.

Lemma reconciled_skip rows row seen :
  (forall k, candidate k row = None) ->
  reconciled make rows seen -> reconciled make (rows ++ [row]) seen.
Proof.
  intros Hc (Hobj & Hget & Hall). split; [done|]. split.
  - intros k Hk. by rewrite candidates_snoc, Hc, app_nil_r, Hget.
  - intros k r Hr. destruct (Hall k r Hr) as (n & -> & Hn).
    exists n. split; [done|]. by apply candidates_mono.
Qed.

Lemma reconciled_keep rows row seen :
  (forall k, k ∉ Object_prototype_names ->
     longest_so_far (candidates k (rows ++ [row])) = longest_so_far (candidates k rows)) ->
  reconciled make rows seen -> reconciled make (rows ++ [row]) seen.
Proof.
  intros Hc (Hobj & Hget & Hall). split; [done|]. split.
  - intros k Hk. by rewrite Hc, Hget.
  - intros k r Hr. destruct (Hall k r Hr) as (n & -> & Hn).
    exists n. split; [done|]. by apply candidates_mono.
Qed.

Lemma reconciled_store rows row seen n nm :
  candidates n (rows ++ [row]) = candidates n rows ++ [nm] ->
  (forall k, n <> k -> candidates k (rows ++ [row]) = candidates k rows) ->
  (n ∉ Object_prototype_names ->
     longest_so_far (candidates n rows ++ [nm]) = Some nm) ->
  reconciled make rows seen ->
  reconciled make (rows ++ [row]) (property_set n (make n nm) seen).
Proof.
  intros Hsame Hother Hlong (Hobj & Hget & Hall).
  split; [by apply is_object_property_set|]. split.
  - intros k Hk. destruct (decide (n = k)) as [<-|Hne].
    + rewrite property_set_get_eq, Hsame, Hlong by done. done.
    + rewrite property_set_get_ne, Hother by done. by apply Hget.
  - intros k r. destruct (decide (n = k)) as [<-|Hne].
    + rewrite property_set_get_eq. intros [= <-]. exists nm. split; [done|].
      rewrite Hsame, elem_of_app, list_elem_of_singleton. by right.
    + rewrite property_set_get_ne by done. intros Hr.
      destruct (Hall k r Hr) as (n' & -> & Hn). exists n'. split; [done|].
      by apply candidates_mono.
Qed.

Lemma dedupe_step_reconciled `{Host} rows row seen seen' :
  reconciled make rows seen ->
  dedupe_step name_of make seen row = inr seen' ->
  reconciled make (rows ++ [row]) seen'.
Proof.
  intros Hrec. pose proof Hrec as (Hobj & Hget & Hall). unfold dedupe_step.
  destruct (binding_value "notation" row) as [n|] eqn:En.
  2:{ intros [= <-]. apply reconciled_skip; [|done].
      intros k. unfold candidate. by rewrite En. }
  destruct (binding_value "name" row) as [nm|] eqn:Enm.
  2:{ intros [= <-]. apply reconciled_skip; [|done].
      intros k. unfold candidate. by rewrite En, Enm. }
  destruct (truthy n) eqn:Tn; simpl.
  2:{ intros [= <-]. apply reconciled_skip; [|done].
      intros k. unfold candidate. by rewrite En, Enm, Tn. }
  destruct (truthy nm) eqn:Tnm; simpl.
  2:{ intros [= <-]. apply reconciled_skip; [|done].
      intros k. unfold candidate. by rewrite En, Enm, Tn, Tnm. }
  assert (Hother : forall k, n <> k -> candidates k (rows ++ [row]) = candidates k rows).
  { intros k Hne. rewrite candidates_snoc. unfold candidate.
    apply String.eqb_neq in Hne.
    rewrite En, Enm, Tn, Tnm, Hne. simpl. by rewrite app_nil_r. }
  assert (Hsame : candidates n (rows ++ [row]) = candidates n rows ++ [nm]).
  { rewrite candidates_snoc. unfold candidate.
    by rewrite En, Enm, Tn, Tnm, String.eqb_refl. }
  destruct (property_get n seen) as [existing|existing_name| |] eqn:Hprop.
  - apply property_get_own in Hprop.
    destruct (Hall n existing Hprop) as (b & -> & Hb). rewrite name_of_make.
    destruct (JsString.length b <? JsString.length nm) eqn:Hlt; intros [= <-].
    + apply (reconciled_store rows row seen n nm Hsame Hother); [|done].
      intros Hn. rewrite longest_so_far_snoc.
      rewrite (Hget n Hn) in Hprop.
      destruct (longest_so_far (candidates n rows)) as [b'|]; [|done].
      simpl in Hprop. injection Hprop as Hmake.
      assert (b' = b) as -> by (by rewrite <- (name_of_make n b'), Hmake, name_of_make).
      by rewrite Hlt.
    + apply reconciled_keep; [|done]. intros k Hk.
      destruct (decide (n = k)) as [<-|Hne]; [|by rewrite Hother].
      rewrite Hsame, longest_so_far_snoc. rewrite (Hget n Hk) in Hprop.
      destruct (longest_so_far (candidates n rows)) as [b'|]; [|done].
      simpl in Hprop. injection Hprop as Hmake.
      assert (b' = b) as -> by (by rewrite <- (name_of_make n b'), Hmake, name_of_make).
      by rewrite Hlt.
  - assert (Hn : n ∈ Object_prototype_names).
    { destruct (decide (n ∈ Object_prototype_names)) as [|Hn]; [done|].
      rewrite property_get_plain in Hprop by done. by destruct (obj_get n seen). }
    destruct (JsString.length existing_name <? JsString.length nm); intros [= <-].
    + by apply (reconciled_store rows row seen n nm Hsame Hother).
    + apply reconciled_keep; [|done]. intros k Hk.
      rewrite Hother; [done|]. by intros ->.
  - done.
  - intros [= <-].
    apply (reconciled_store rows row seen n nm Hsame Hother); [|done].
    intros Hn. rewrite longest_so_far_snoc.
    assert (obj_get n seen = None) as Hnone.
    { apply property_get_not_own. intros v. by rewrite Hprop. }
    rewrite (Hget n Hn) in Hnone.
    by destruct (longest_so_far (candidates n rows)).
Qed.

Lemma dedupe_lookup `{Host} rows seen :
  fold_throws (dedupe_step name_of make) rows [] = inr seen -> reconciled make rows seen.
Proof.
  revert seen. induction rows as [|row rows IH] using rev_ind; intros seen.
  { intros [= <-]. split; [apply NoDup_nil_2|]. split; [done|]. done. }
  rewrite fold_throws_app.
  destruct (fold_throws (dedupe_step name_of make) rows []) as [e|before]; [done|].
  simpl. destruct (dedupe_step name_of make before row) as [e|after] eqn:Hstep; [done|].
  intros [= <-]. by apply (dedupe_step_reconciled rows row before after (IH before eq_refl)).
Qed.

(** What [dedupe] has read when it returns. *)
Lemma dedupe_inr `{Host} (namesResult : option SparqlResult) seen :
  dedupe name_of make namesResult = inr seen ->
  fold_throws (dedupe_step name_of make)
    (default [] (result_bindings namesResult)) [] = inr seen.
Proof. unfold dedupe, unguarded_bindings. by destruct namesResult. Qed.


Lemma sort_insert_perm {A : Type} (cmp : A -> A -> Z) x l :
  sort_insert cmp x l ≡ₚ x :: l.
Proof.
  induction l as [|y l IH]; simpl; [done|].
  destruct (0 <? cmp x y); [|done].
  rewrite IH. apply Permutation_swap.
Qed.

Lemma Array_sort_perm {A : Type} (cmp : A -> A -> Z) l : Array_sort cmp l ≡ₚ l.
Proof.
  unfold Array_sort. induction l as [|x l IH]; simpl; [done|].
  by rewrite sort_insert_perm, IH.
Qed.


End Dedupe.

Lemma reconciled_cities_inr `{Host} namesResult belfioreResult cities :
  reconciled_cities namesResult belfioreResult = inr cities ->
  exists belfioreLookup cityMap,
    build_lookup "belfiore" belfioreResult = inr belfioreLookup
    /\ dedupe City.name (make_city belfioreLookup) namesResult = inr cityMap
    /\ cities = Array_sort (fun a b => localeCompare (City.notation a) (City.notation b))
                  (Object_values cityMap).
Proof.
  unfold reconciled_cities.
  destruct (build_lookup "belfiore" belfioreResult) as [e|belfioreLookup]; [done|].
  simpl.
  destruct (dedupe City.name (make_city belfioreLookup) namesResult) as [e|cityMap]
    eqn:Hmap; [done|].
  simpl. intros [= <-]. by exists belfioreLookup, cityMap.
Qed.

Lemma reconciled_provinces_inr `{Host} namesResult siglaResult metroResult provinces :
  reconciled_provinces namesResult siglaResult metroResult = inr provinces ->
  exists siglaLookup metroLookup provMap,
    build_lookup "sigla" siglaResult = inr siglaLookup
    /\ build_lookup "metro" metroResult = inr metroLookup
    /\ dedupe Province.name (make_province siglaLookup metroLookup) namesResult
       = inr provMap
    /\ provinces
       = Array_sort (fun a b => localeCompare (Province.notation a) (Province.notation b))
           (Object_values provMap).
Proof.
  unfold reconciled_provinces.
  destruct (build_lookup "sigla" siglaResult) as [e|siglaLookup]; [done|]. simpl.
  destruct (build_lookup "metro" metroResult) as [e|metroLookup]; [done|]. simpl.
  destruct (dedupe Province.name (make_province siglaLookup metroLookup) namesResult)
    as [e|provMap] eqn:Hmap; [done|].
  simpl. intros [= <-]. by exists siglaLookup, metroLookup, provMap.
Qed.



(** ** The JSON reader *)

Section JsonReader.
Import Json.

#[local] Arguments is_ws : simpl never.
#[local] Arguments digit_of : simpl never.

Lemma skip_ws_app s d r q :
  skip_ws s = String d r -> skip_ws (s +:+ q) = String d (r +:+ q).
Proof.
  induction s as [|a s IH]; simpl; [done|].
  destruct (is_ws a) eqn:E; [done|].
  by intros [= -> ->].
Qed.

Lemma strip_prefix_app lit s r q :
  strip_prefix lit s = Some r -> strip_prefix lit (s +:+ q) = Some (r +:+ q).
Proof.
  revert s. induction lit as [|a lit IH]; intros s; simpl.
  - by intros [= ->].
  - destruct s as [|b s]; [done|]. simpl.
    destruct (Ascii.eqb a b); [apply IH | done].
Qed.

Lemma prepend_app c x str r q :
  prepend c x = Some (str, r) ->
  forall y, (forall str' r', x = Some (str', r') -> y = Some (str', r' +:+ q)) ->
  prepend c y = Some (str, r +:+ q).
Proof.
  unfold prepend. destruct x as [[str' r']|]; [|done].
  intros [= <- <-] y Hy. by rewrite (Hy str' r' eq_refl).
Qed.

Lemma parse_string_app s str r q :
  parse_string s = Some (str, r) -> parse_string (s +:+ q) = Some (str, r +:+ q).
Proof.
  remember (String.length s) as n eqn:Hn.
  assert (Hle : (String.length s <= n)%nat) by lia. clear Hn.
  revert s str r Hle. induction n as [|n IH]; intros s str r Hle.
  { destruct s; [done | simpl in Hle; lia]. }
  destruct s as [|c rest]; [done|].
  simpl in Hle. simpl.
  destruct (Ascii.eqb c dquote); [by intros [= <- <-]|].
  destruct (Ascii.eqb c backslash).
  - destruct rest as [|e rest']; [done|]. simpl in Hle. simpl.
    destruct (Ascii.eqb e "u").
    + destruct rest' as [|h1 [|h2 [|h3 [|h4 rest'']]]]; try done.
      simpl in Hle. simpl.
      destruct (unescape_hex h1 h2 h3 h4); [|done].
      intros Hp. eapply prepend_app; [exact Hp|].
      intros str' r' Hs. apply IH; [lia | done].
    + destruct (unescape_simple e); [|done].
      intros Hp. eapply prepend_app; [exact Hp|].
      intros str' r' Hs. apply IH; [lia | done].
  - destruct (N_of_ascii c <? 32)%N; [done|].
    intros Hp. eapply prepend_app; [exact Hp|].
    intros str' r' Hs. apply IH; [lia | done].
Qed.

Lemma parse_digits_app acc s n r q :
  parse_digits acc s = (n, r) -> r <> "" ->
  parse_digits acc (s +:+ q) = (n, r +:+ q).
Proof.
  revert acc. induction s as [|c s IH]; intros acc; simpl.
  - by intros [= <- <-].
  - destruct (digit_of c) eqn:E; [apply IH|].
    by intros [= <- <-] _.
Qed.

Lemma parse_nat_app s n r q :
  parse_nat s = Some (n, r) -> r <> "" -> parse_nat (s +:+ q) = Some (n, r +:+ q).
Proof.
  destruct s as [|c s]; [done|]. unfold parse_nat. simpl.
  destruct (digit_of c) as [[|d|d]|]; try done.
  - by intros [= <- <-].
  - intros [= Hd] Hr. by rewrite (parse_digits_app _ _ _ _ q Hd Hr).
  - intros [= Hd] Hr. by rewrite (parse_digits_app _ _ _ _ q Hd Hr).
Qed.

Lemma parse_number_app s v r q :
  parse_number s = Some (v, r) -> r <> "" ->
  parse_number (s +:+ q) = Some (v, r +:+ q).
Proof.
  destruct s as [|c s]; [done|]. unfold parse_number.
  change (String c s +:+ q) with (String c (s +:+ q)). cbv beta iota.
  destruct (Ascii.eqb c "-").
  - destruct (parse_nat s) as [[n r']|] eqn:E; [|done].
    intros [= <- <-] Hr. by rewrite (parse_nat_app _ _ _ q E Hr).
  - destruct (parse_nat (String c s)) as [[n r']|] eqn:E; [|done].
    intros [= <- <-] Hr.
    change (String c (s +:+ q)) with (String c s +:+ q).
    by rewrite (parse_nat_app _ _ _ q E Hr).
Qed.

Lemma parse_number_is_number s v r :
  parse_number s = Some (v, r) -> exists n, v = JNum n.
Proof.
  destruct s as [|c s]; [done|]. unfold parse_number.
  destruct (Ascii.eqb c "-").
  - destruct (parse_nat s) as [[n r']|]; [|done]. intros [= <- <-]. eauto.
  - destruct (parse_nat (String c s)) as [[n r']|]; [|done]. intros [= <- <-]. eauto.
Qed.

Lemma parse_value_with_extends elements members :
  extends elements -> extends members ->
  extends_value (parse_value_with elements members).
Proof.
  intros He Hm s v r q. destruct s as [|c rest]; [done|].
  change (String c rest +:+ q) with (String c (rest +:+ q)).
  unfold parse_value_with.
  destruct (Ascii.eqb c "n").
  { destruct (strip_prefix "ull" rest) as [r'|] eqn:E; [|done].
    intros [= <- <-] _. by rewrite (strip_prefix_app _ _ _ q E). }
  destruct (Ascii.eqb c "t").
  { destruct (strip_prefix "rue" rest) as [r'|] eqn:E; [|done].
    intros [= <- <-] _. by rewrite (strip_prefix_app _ _ _ q E). }
  destruct (Ascii.eqb c "f").
  { destruct (strip_prefix "alse" rest) as [r'|] eqn:E; [|done].
    intros [= <- <-] _. by rewrite (strip_prefix_app _ _ _ q E). }
  destruct (Ascii.eqb c dquote).
  { destruct (parse_string rest) as [[str r']|] eqn:E; [|done].
    intros [= <- <-] _. by rewrite (parse_string_app _ _ _ q E). }
  destruct (Ascii.eqb c "[").
  { destruct (skip_ws rest) as [|d r0] eqn:E; [done|].
    rewrite (skip_ws_app _ _ _ q E).
    destruct (Ascii.eqb d "]"); [by intros [= <- <-]|].
    destruct (elements (String d r0)) as [[vs r']|] eqn:E'; [|done].
    intros [= <- <-] _.
    change (String d (r0 +:+ q)) with (String d r0 +:+ q).
    by rewrite (He _ _ _ q E'). }
  destruct (Ascii.eqb c "{").
  { destruct (skip_ws rest) as [|d r0] eqn:E; [done|].
    rewrite (skip_ws_app _ _ _ q E).
    destruct (Ascii.eqb d "}"); [by intros [= <- <-]|].
    destruct (members (String d r0)) as [[kvs r']|] eqn:E'; [|done].
    intros [= <- <-] _.
    change (String d (r0 +:+ q)) with (String d r0 +:+ q).
    by rewrite (Hm _ _ _ q E'). }
  intros Hn [Hr|Hv].
  - change (String c (rest +:+ q)) with (String c rest +:+ q).
    by apply parse_number_app.
  - destruct (parse_number_is_number _ _ _ Hn) as [n ->]. by destruct (Hv n).
Qed.

Lemma parse_elements_with_extends value elements :
  extends_value value -> extends elements -> elements "" = None ->
  extends (parse_elements_with value elements).
Proof.
  intros Hv He He0 s vs r q. unfold parse_elements_with.
  destruct (value s) as [[v r1]|] eqn:E; [|done].
  destruct (skip_ws r1) as [|d r'] eqn:Ews; [done|].
  assert (Hr1 : r1 <> "") by (by intros ->).
  rewrite (Hv _ _ _ q E (or_introl Hr1)), (skip_ws_app _ _ _ q Ews).
  destruct (Ascii.eqb d ",").
  - destruct (elements (skip_ws r')) as [[vs' r'']|] eqn:E'; [|done].
    intros [= <- <-].
    destruct (skip_ws r') as [|d' r3] eqn:Ews'; [congruence|].
    rewrite (skip_ws_app _ _ _ q Ews').
    change (String d' (r3 +:+ q)) with (String d' r3 +:+ q).
    by rewrite (He _ _ _ q E').
  - destruct (Ascii.eqb d "]"); [|done]. by intros [= <- <-].
Qed.

Lemma parse_members_with_extends value members :
  extends_value value -> value "" = None ->
  extends members -> members "" = None ->
  extends (parse_members_with value members).
Proof.
  intros Hv Hv0 Hm Hm0 s kvs r q. unfold parse_members_with.
  destruct s as [|c r0]; [done|].
  change (String c r0 +:+ q) with (String c (r0 +:+ q)). cbv beta iota.
  destruct (Ascii.eqb c dquote); [|done].
  destruct (parse_string r0) as [[k r1]|] eqn:Ek; [|done].
  rewrite (parse_string_app _ _ _ q Ek).
  destruct (skip_ws r1) as [|d r2] eqn:Ews1; [done|].
  rewrite (skip_ws_app _ _ _ q Ews1).
  destruct (Ascii.eqb d ":"); [|done].
  destruct (value (skip_ws r2)) as [[v r3]|] eqn:Ev; [|done].
  destruct (skip_ws r2) as [|d2 r2'] eqn:Ews2; [congruence|].
  rewrite (skip_ws_app _ _ _ q Ews2).
  destruct (skip_ws r3) as [|d3 r4] eqn:Ews3; [done|].
  assert (Hr3 : r3 <> "") by (by intros ->).
  change (String d2 (r2' +:+ q)) with (String d2 r2' +:+ q).
  rewrite (Hv _ _ _ q Ev (or_introl Hr3)), (skip_ws_app _ _ _ q Ews3).
  destruct (Ascii.eqb d3 ",").
  - destruct (members (skip_ws r4)) as [[kvs' r5]|] eqn:E'; [|done].
    intros [= <- <-].
    destruct (skip_ws r4) as [|d4 r4'] eqn:Ews4; [congruence|].
    rewrite (skip_ws_app _ _ _ q Ews4).
    try rewrite Ews4 in E'.
    change (String d4 (r4' +:+ q)) with (String d4 r4' +:+ q).
    by rewrite (Hm _ _ _ q E').
  - destruct (Ascii.eqb d3 "}"); [|done]. by intros [= <- <-].
Qed.

Lemma parse_empty fuel :
  parse_value fuel "" = None /\ parse_elements fuel "" = None
  /\ parse_members fuel "" = None.
Proof.
  induction fuel as [|fuel (IHv & IHe & IHm)]; [done|].
  repeat split; simpl; try done.
  unfold parse_elements_with. by rewrite IHv.
Qed.

(** Text after a parsed value does not change the value: the same fuel
    reads the same value from the longer text. *)
Lemma parse_extends fuel :
  extends_value (parse_value fuel) /\ extends (parse_elements fuel)
  /\ extends (parse_members fuel).
Proof.
  induction fuel as [|fuel (IHv & IHe & IHm)].
  { repeat split; intros ? ? ? ?; done. }
  destruct (parse_empty fuel) as (Hv0 & He0 & Hm0).
  repeat split; simpl.
  - by apply parse_value_with_extends.
  - by apply parse_elements_with_extends.
  - by apply parse_members_with_extends.
Qed.

Lemma parse_value_with_refines e e' m m' :
  refines e e' -> refines m m' ->
  refines (parse_value_with e m) (parse_value_with e' m').
Proof.
  intros He Hm s a. unfold parse_value_with.
  destruct s as [|c rest]; [done|].
  destruct (Ascii.eqb c "n"); [done|].
  destruct (Ascii.eqb c "t"); [done|].
  destruct (Ascii.eqb c "f"); [done|].
  destruct (Ascii.eqb c dquote); [done|].
  destruct (Ascii.eqb c "[").
  { destruct (skip_ws rest) as [|d r0]; [done|].
    destruct (Ascii.eqb d "]"); [done|].
    destruct (e (String d r0)) as [[vs r']|] eqn:E; [|done].
    by rewrite (He _ _ E). }
  destruct (Ascii.eqb c "{"); [|done].
  destruct (skip_ws rest) as [|d r0]; [done|].
  destruct (Ascii.eqb d "}"); [done|].
  destruct (m (String d r0)) as [[kvs r']|] eqn:E; [|done].
  by rewrite (Hm _ _ E).
Qed.

Lemma parse_elements_with_refines v v' e e' :
  refines v v' -> refines e e' ->
  refines (parse_elements_with v e) (parse_elements_with v' e').
Proof.
  intros Hv He s a. unfold parse_elements_with.
  destruct (v s) as [[x r]|] eqn:E; [|done]. rewrite (Hv _ _ E).
  destruct (skip_ws r) as [|d r']; [done|].
  destruct (Ascii.eqb d ","); [|done].
  destruct (e (skip_ws r')) as [[vs r'']|] eqn:E'; [|done].
  by rewrite (He _ _ E').
Qed.

Lemma parse_members_with_refines v v' m m' :
  refines v v' -> refines m m' ->
  refines (parse_members_with v m) (parse_members_with v' m').
Proof.
  intros Hv Hm s a. unfold parse_members_with.
  destruct s as [|c r0]; [done|].
  destruct (Ascii.eqb c dquote); [|done].
  destruct (parse_string r0) as [[k r1]|]; [|done].
  destruct (skip_ws r1) as [|d r2]; [done|].
  destruct (Ascii.eqb d ":"); [|done].
  destruct (v (skip_ws r2)) as [[x r3]|] eqn:E; [|done]. rewrite (Hv _ _ E).
  destruct (skip_ws r3) as [|d3 r4]; [done|].
  destruct (Ascii.eqb d3 ","); [|done].
  destruct (m (skip_ws r4)) as [[kvs r5]|] eqn:E'; [|done].
  by rewrite (Hm _ _ E').
Qed.

Lemma parse_fuel_step fuel :
  refines (parse_value fuel) (parse_value (S fuel))
  /\ refines (parse_elements fuel) (parse_elements (S fuel))
  /\ refines (parse_members fuel) (parse_members (S fuel)).
Proof.
  induction fuel as [|fuel (IHv & IHe & IHm)].
  { repeat split; intros ? ?; done. }
  repeat split.
  - by apply parse_value_with_refines.
  - by apply parse_elements_with_refines.
  - by apply parse_members_with_refines.
Qed.

(** More fuel reads the same. *)
Lemma parse_fuel_mono fuel fuel' :
  (fuel <= fuel')%nat ->
  refines (parse_value fuel) (parse_value fuel')
  /\ refines (parse_elements fuel) (parse_elements fuel')
  /\ refines (parse_members fuel) (parse_members fuel').
Proof.
  induction 1 as [|fuel' _ (IHv & IHe & IHm)].
  { repeat split; intros ? ?; done. }
  destruct (parse_fuel_step fuel') as (Sv & Se & Sm).
  repeat split; intros s a Hs; auto.
Qed.


(** *** What [stringify] writes, [parse] reads *)

Lemma all_digits_app s1 s2 : all_digits s1 -> all_digits s2 -> all_digits (s1 +:+ s2).
Proof. induction s1 as [|c s1 IH]; simpl; [done|]. intros [? ?] ?. auto. Qed.

Lemma parse_digits_all acc ds rest :
  all_digits ds -> no_digit_head rest ->
  exists n, parse_digits acc (ds +:+ rest) = (n, rest).
Proof.
  revert acc. induction ds as [|c ds IH]; intros acc; simpl.
  - intros _ Hrest. destruct rest as [|c r]; [by eexists|].
    simpl in *. rewrite Hrest. by eexists.
  - intros [[d Hd] Hds] Hrest. rewrite Hd. by apply IH.
Qed.

Lemma digit_of_pretty_N_char k :
  (k < 10)%N -> digit_of (pretty_N_char k) = Some (Z.of_N k).
Proof.
  intros Hk. destruct k as [|p]; [done|].
  do 4 (destruct p as [p|p|]; try done); lia.
Qed.

(** The decimal digits of a positive number: the first is not zero. *)
Lemma pretty_N_go_digits x s :
  (0 < x)%N ->
  exists c d ds,
    pretty_N_go x s = String c (ds +:+ s)
    /\ digit_of c = Some d /\ d <> 0 /\ all_digits ds.
Proof.
  revert s. induction (N.lt_wf_0 x) as [x _ IH]. intros s Hx.
  rewrite pretty_N_go_step by done.
  assert (Hmod : (x `mod` 10 < 10)%N) by (apply N.mod_lt; lia).
  pose proof (digit_of_pretty_N_char _ Hmod) as Hd.
  destruct (decide (x `div` 10 = 0)%N) as [Hz|Hnz].
  - rewrite Hz, pretty_N_go_0.
    exists (pretty_N_char (x `mod` 10)), (Z.of_N (x `mod` 10)), "".
    split; [done|]. split; [done|]. split; [|done].
    apply N.div_small_iff in Hz; [|lia].
    rewrite N.mod_small by done. lia.
  - destruct (IH (x `div` 10)%N) with (s := String (pretty_N_char (x `mod` 10)) s)
      as (c & d & ds & Heq & Hc & Hd0 & Hds).
    { apply N.div_lt; [exact Hx | reflexivity]. }
    { apply N.neq_0_lt_0. exact Hnz. }
    exists c, d, (ds +:+ String (pretty_N_char (x `mod` 10)) "").
    rewrite Heq, string_app_assoc. simpl.
    split; [done|]. split; [done|]. split; [done|].
    apply all_digits_app; [done|]. simpl. split; [by eexists | done].
Qed.

Lemma parse_nat_pretty_N_go x rest :
  (0 < x)%N -> no_digit_head rest ->
  exists n, parse_nat (pretty_N_go x "" +:+ rest) = Some (n, rest).
Proof.
  intros Hx Hrest.
  destruct (pretty_N_go_digits x "" Hx) as (c & d & ds & -> & Hc & Hd & Hds).
  simpl. rewrite string_app_assoc. simpl. unfold parse_nat. rewrite Hc.
  destruct (parse_digits_all d ds rest Hds Hrest) as [n Hn].
  exists n. destruct d; [done| |]; by rewrite Hn.
Qed.

Lemma parse_number_pretty z rest :
  no_digit_head rest ->
  exists v, parse_number (number_to_string z +:+ rest) = Some (v, rest).
Proof.
  intros Hrest. unfold number_to_string, pretty, pretty_Z.
  destruct z as [|p|p].
  - by eexists.
  - unfold pretty, pretty_positive, pretty, pretty_N. simpl decide.
    destruct (decide (N.pos p = 0%N)) as [|_]; [done|].
    destruct (parse_nat_pretty_N_go (N.pos p) rest) as [n Hn]; [done..|].
    destruct (pretty_N_go_digits (N.pos p) "" eq_refl) as (c & d & ds & Heq & Hc & Hd & Hds).
    rewrite Heq in *. simpl in *. rewrite string_app_assoc in *. simpl in *.
    unfold parse_number.
    assert (Ascii.eqb c "-" = false) as ->.
    { destruct (Ascii.eqb c "-") eqn:E; [|done].
      apply Ascii.eqb_eq in E as ->. done. }
    rewrite Hn. by eexists.
  - unfold pretty, pretty_positive, pretty, pretty_N.
    destruct (decide (N.pos p = 0%N)) as [|_]; [done|].
    destruct (parse_nat_pretty_N_go (N.pos p) rest) as [n Hn]; [done..|].
    simpl. unfold parse_number. simpl. rewrite Hn. by eexists.
Qed.

Lemma parse_string_quote_unit c tail :
  parse_string (quote_unit c +:+ tail) = prepend c (parse_string tail).
Proof. destruct c as [[] [] [] [] [] [] [] []]; reflexivity. Qed.

Lemma parse_string_quoted s rest :
  parse_string (concat_map quote_unit s +:+ String dquote rest) = Some (s, rest).
Proof.
  induction s as [|c s IH]; [done|].
  simpl. by rewrite string_app_assoc, parse_string_quote_unit, IH.
Qed.


Lemma stringify_JArr vs :
  stringify (JArr vs) = Some ("[" +:+ join "," (stringify_elements vs) +:+ "]").
Proof.
  reflexivity.
Qed.

Lemma stringify_JObj kvs :
  stringify (JObj kvs) = Some ("{" +:+ join "," (stringify_members kvs) +:+ "}").
Proof.
  reflexivity.
Qed.

(** Induction on values through the lists they hold. *)
Lemma jsval_induction (P : jsval -> Prop) :
  P JUndefined -> P JNull -> (forall b, P (JBool b)) -> (forall n, P (JNum n)) ->
  (forall s, P (JStr s)) ->
  (forall vs, Forall P vs -> P (JArr vs)) ->
  (forall kvs, Forall (fun kv => P (snd kv)) kvs -> P (JObj kvs)) ->
  forall v, P v.
Proof.
  intros Hu Hn Hb Hnum Hs Ha Ho.
  fix IH 1. intros v. destruct v as [| |b|n|s|vs|kvs].
  - exact Hu.
  - exact Hn.
  - apply Hb.
  - apply Hnum.
  - apply Hs.
  - apply Ha. induction vs as [|v vs IHvs]; constructor; [apply IH | exact IHvs].
  - apply Ho. induction kvs as [|[k v] kvs IHkvs]; constructor; [apply IH | exact IHkvs].
Qed.

(** A value starts with a unit that is neither blank nor a closing
    bracket. *)
Lemma parse_value_head fuel c r x :
  parse_value fuel (String c r) = Some x ->
  is_ws c = false /\ Ascii.eqb c "]" = false.
Proof.
  destruct fuel as [|fuel]; [done|]. simpl. intros Hp.
  split.
  - destruct (is_ws c) eqn:E; [|done]. unfold is_ws in E.
    repeat (apply orb_true_iff in E as [E|E]);
      apply Ascii.eqb_eq in E; subst c; discriminate Hp.
  - destruct (Ascii.eqb c "]") eqn:E; [|done].
    apply Ascii.eqb_eq in E; subst c; discriminate Hp.
Qed.

Lemma parse_value_skip fuel s x :
  parse_value fuel s = Some x -> skip_ws s = s.
Proof.
  destruct s as [|c r]; [done|]. intros Hp.
  destruct (parse_value_head _ _ _ _ Hp) as [Hws _]. simpl. by rewrite Hws.
Qed.

Lemma default_null_parses v :
  (forall t, stringify v = Some t ->
     forall rest fuel, no_digit_head rest -> (2 * String.length t < fuel)%nat ->
       exists v', parse_value fuel (t +:+ rest) = Some (v', rest)) ->
  forall rest fuel, no_digit_head rest ->
    (2 * String.length (default "null" (stringify v)) < fuel)%nat ->
    exists v', parse_value fuel (default "null" (stringify v) +:+ rest) = Some (v', rest).
Proof.
  intros IH rest fuel Hrest Hfuel.
  destruct (stringify v) as [t|]; [by apply IH|].
  simpl in *. destruct fuel as [|fuel]; [lia|]. by exists JNull.
Qed.

Lemma join_cons2_length sep x y l :
  String.length (join sep (x :: y :: l))
  = (String.length x + String.length sep + String.length (join sep (y :: l)))%nat.
Proof.
  change (join sep (x :: y :: l)) with (x +:+ sep +:+ join sep (y :: l)).
  rewrite !string_app_length. lia.
Qed.

Lemma elements_parse vs rest :
  vs <> [] ->
  Forall (fun v => forall t, stringify v = Some t ->
            forall rest fuel, no_digit_head rest -> (2 * String.length t < fuel)%nat ->
              exists v', parse_value fuel (t +:+ rest) = Some (v', rest)) vs ->
  forall fuel,
    (2 * String.length (join "," (stringify_elements vs)) + 1 < fuel)%nat ->
    exists vs',
      parse_elements fuel (join "," (stringify_elements vs) +:+ String "]" rest)
      = Some (vs', rest).
Proof.
  intros Hne Hall. induction Hall as [|v vs Hv Hall IH]; [done|]. clear Hne.
  intros fuel Hfuel. destruct fuel as [|fuel]; [lia|].
  pose proof (default_null_parses v Hv) as Hd.
  destruct vs as [|v2 vs].
  - simpl in *.
    destruct (Hd (String "]" rest) fuel) as [v' Hv']; [done|lia|].
    unfold parse_elements_with. rewrite Hv'. simpl. by eexists.
  - assert (Hts : exists t2 ts, stringify_elements (v2 :: vs) = t2 :: ts)
      by (by eexists _, _).
    destruct Hts as (t2 & ts & Hts).
    change (stringify_elements (v :: v2 :: vs))
      with (default "null" (stringify v) :: stringify_elements (v2 :: vs)) in *.
    rewrite Hts in *.
    rewrite join_cons2_length in Hfuel.
    change (join "," (?x :: t2 :: ts)) with (x +:+ "," +:+ join "," (t2 :: ts)).
    set (tail := join "," (t2 :: ts)) in *.
    rewrite !string_app_assoc.
    destruct (IH ltac:(done) fuel) as [vs' Hvs']; [simpl in *; lia|].
    destruct (Hd ("," +:+ tail +:+ String "]" rest) fuel) as [v' Hv']; [done|lia|].
    simpl. simpl in Hv'. unfold parse_elements_with. rewrite Hv'. simpl.
    assert (Hskip : skip_ws (tail +:+ String "]" rest) = tail +:+ String "]" rest).
    { destruct fuel as [|fuel']; [done|]. simpl in Hvs'.
      unfold parse_elements_with in Hvs'.
      destruct (parse_value fuel' (tail +:+ String "]" rest)) as [x|] eqn:E; [|done].
      by apply parse_value_skip in E. }
    rewrite Hskip, Hvs'. by eexists.
Qed.

Lemma members_parse kvs rest :
  stringify_members kvs <> [] ->
  Forall (fun kv => forall t, stringify (snd kv) = Some t ->
            forall rest fuel, no_digit_head rest -> (2 * String.length t < fuel)%nat ->
              exists v', parse_value fuel (t +:+ rest) = Some (v', rest)) kvs ->
  forall fuel,
    (2 * String.length (join "," (stringify_members kvs)) + 1 < fuel)%nat ->
    exists kvs',
      parse_members fuel (join "," (stringify_members kvs) +:+ String "}" rest)
      = Some (kvs', rest).
Proof.
  intros Hne Hall. induction Hall as [|[k v] kvs Hv Hall IH]; [done|].
  simpl in Hne, Hv |- *.
  destruct (stringify v) as [t|] eqn:Et; [|by apply IH].
  clear Hne. intros fuel Hfuel. destruct fuel as [|fuel]; [lia|].
  specialize (Hv t eq_refl).
  destruct (stringify_members kvs) as [|m ms] eqn:Ems.
  - simpl in Hfuel |- *. unfold quote in *. simpl in Hfuel |- *.
    rewrite !string_app_assoc. simpl.
    rewrite !string_app_length in Hfuel. simpl in Hfuel.
    destruct (Hv (String "}" rest) fuel) as [v' Hv']; [done|lia|].
    rewrite parse_string_quoted. simpl.
    rewrite (parse_value_skip _ _ _ Hv'), Hv'. simpl. by eexists.
  - rewrite join_cons2_length in Hfuel.
    change (join "," (?x :: m :: ms)) with (x +:+ "," +:+ join "," (m :: ms)).
    set (tail := join "," (m :: ms)) in *.
    destruct (IH ltac:(done) fuel) as [kvs' Hkvs']; [simpl in *; lia|].
    unfold quote in *. simpl in Hfuel |- *.
    rewrite !string_app_assoc. simpl. rewrite ?string_app_assoc.
    rewrite !string_app_length in Hfuel. simpl in Hfuel.
    destruct (Hv ("," +:+ tail +:+ String "}" rest) fuel) as [v' Hv']; [done|lia|].
    rewrite parse_string_quoted. simpl. simpl in Hv'.
    rewrite (parse_value_skip _ _ _ Hv'), Hv'. simpl.
    assert (Hskip : skip_ws (tail +:+ String "}" rest) = tail +:+ String "}" rest).
    { destruct fuel as [|fuel']; [done|]. simpl in Hkvs'.
      unfold parse_members_with in Hkvs'.
      destruct (tail +:+ String "}" rest) as [|c r0]; [done|].
      destruct (Ascii.eqb c dquote) eqn:E; [|done].
      apply Ascii.eqb_eq in E as ->. done. }
    rewrite Hskip, Hkvs'. by eexists.
Qed.

(** What [stringify] writes is read back as one value by any fuel above
    twice its length, whatever follows it (a digit apart). *)
Lemma stringify_parses v t :
  stringify v = Some t ->
  forall rest fuel, no_digit_head rest -> (2 * String.length t < fuel)%nat ->
    exists v', parse_value fuel (t +:+ rest) = Some (v', rest).
Proof.
  revert t. induction v as [| |b|n|s|vs IH|kvs IH] using jsval_induction;
    intros t Ht rest fuel Hrest Hfuel;
    (destruct fuel as [|fuel]; [lia|]).
  - done.
  - injection Ht as <-. by exists JNull.
  - destruct b; injection Ht as <-; by eexists.
  - destruct n as [|z|negative]; injection Ht as <-; [by exists JNull| |by exists JNull].
    destruct (parse_number_pretty z rest Hrest) as [v Hv].
    exists v. simpl. unfold parse_value_with.
    destruct (number_to_string z +:+ rest) as [|c r] eqn:E; [done|].
    unfold parse_number in Hv. 
    destruct (Ascii.eqb c "n") eqn:E1.
    { apply Ascii.eqb_eq in E1 as ->. done. }
    destruct (Ascii.eqb c "t") eqn:E2.
    { apply Ascii.eqb_eq in E2 as ->. done. }
    destruct (Ascii.eqb c "f") eqn:E3.
    { apply Ascii.eqb_eq in E3 as ->. done. }
    destruct (Ascii.eqb c dquote) eqn:E4.
    { apply Ascii.eqb_eq in E4 as ->. done. }
    destruct (Ascii.eqb c "[") eqn:E5.
    { apply Ascii.eqb_eq in E5 as ->. done. }
    destruct (Ascii.eqb c "{") eqn:E6.
    { apply Ascii.eqb_eq in E6 as ->. done. }
    exact Hv.
  - injection Ht as <-. unfold quote. simpl. unfold parse_value_with. simpl.
    rewrite string_app_assoc. simpl. rewrite parse_string_quoted. by eexists.
  - rewrite stringify_JArr in Ht. injection Ht as <-.
    simpl in Hfuel. rewrite !string_app_length in Hfuel. simpl in Hfuel.
    simpl. rewrite !string_app_assoc. simpl.
    destruct vs as [|v vs]; [eexists; reflexivity|].
    destruct (elements_parse (v :: vs) rest ltac:(done) IH fuel) as [vs' Hvs']; [lia|].
    set (text := join "," (stringify_elements (v :: vs)) +:+ String "]" rest) in *.
    clearbody text.
    assert (Hhead : exists c r,
               text = String c r /\ is_ws c = false /\ Ascii.eqb c "]" = false).
    { destruct fuel as [|fuel']; [done|]. simpl in Hvs'.
      unfold parse_elements_with in Hvs'.
      destruct (parse_value fuel' text) as [x|] eqn:E; [|done].
      destruct text as [|c r].
      { destruct (parse_empty fuel') as (He & _). congruence. }
      exists c, r. split; [done|]. by apply parse_value_head in E. }
    destruct Hhead as (c & r & Heq & Hws & Hbr).
    unfold parse_value_with. rewrite Heq in *. simpl. rewrite Hws, Hbr, Hvs'.
    by eexists.
  - rewrite stringify_JObj in Ht. injection Ht as <-.
    simpl in Hfuel. rewrite !string_app_length in Hfuel. simpl in Hfuel.
    simpl. rewrite !string_app_assoc. simpl.
    destruct (stringify_members kvs) as [|m ms] eqn:Ems; [eexists; reflexivity|].
    destruct (members_parse kvs rest) with (fuel := fuel) as [kvs' Hkvs'];
      [by rewrite Ems | done | rewrite Ems; lia |].
    rewrite Ems in Hkvs'.
    set (text := join "," (m :: ms) +:+ String "}" rest) in *.
    clearbody text.
    assert (Hhead : exists r, text = String dquote r).
    { destruct fuel as [|fuel']; [done|]. simpl in Hkvs'.
      unfold parse_members_with in Hkvs'.
      destruct text as [|c r]; [done|].
      destruct (Ascii.eqb c dquote) eqn:E; [|done].
      apply Ascii.eqb_eq in E as ->. by eexists. }
    destruct Hhead as (r & Heq).
    unfold parse_value_with. rewrite Heq in *. simpl. rewrite Hkvs'.
    by eexists.
Qed.


(** What [stringify] writes is JSON. *)
Lemma stringify_valid v t : stringify v = Some t -> is_Some (parse t).
Proof.
  intros Ht.
  destruct (stringify_parses v t Ht "" (fuel_for t) I) as [v' Hv'].
  { unfold fuel_for. lia. }
  rewrite string_app_nil_r in Hv'. unfold parse.
  rewrite (parse_value_skip _ _ _ Hv'), Hv'. by eexists.
Qed.

Lemma parse_value_number fuel s n r :
  parse_value fuel s = Some (JNum n, r) -> parse_number s = Some (JNum n, r).
Proof.
  destruct fuel as [|fuel]; [done|]. simpl. unfold parse_value_with.
  destruct s as [|c rest]; [done|].
  destruct (Ascii.eqb c "n"); [by destruct (strip_prefix _ _)|].
  destruct (Ascii.eqb c "t"); [by destruct (strip_prefix _ _)|].
  destruct (Ascii.eqb c "f"); [by destruct (strip_prefix _ _)|].
  destruct (Ascii.eqb c dquote); [by destruct (parse_string _) as [[]|]|].
  destruct (Ascii.eqb c "[").
  { destruct (skip_ws rest) as [|d r0]; [done|].
    destruct (Ascii.eqb d "]"); [done|].
    by destruct (parse_elements _ _) as [[]|]. }
  destruct (Ascii.eqb c "{"); [|done].
  destruct (skip_ws rest) as [|d r0]; [done|].
  destruct (Ascii.eqb d "}"); [done|].
  by destruct (parse_members _ _) as [[]|].
Qed.

Lemma parse_digits_before_brace acc s n r :
  parse_digits acc (s +:+ String rbrace "") = (n, r) -> r <> "".
Proof.
  revert acc. induction s as [|c s IH]; intros acc; simpl.
  - by intros [= <- <-].
  - destruct (digit_of c); [apply IH|]. by intros [= <- <-].
Qed.

(** A text that ends with a closing brace is not a number. *)
Lemma parse_number_before_brace s v :
  parse_number (s +:+ String rbrace "") <> Some (v, "").
Proof.
  assert (Hnat : forall s n, parse_nat (s +:+ String rbrace "") <> Some (n, "")).
  { intros [|c s'] n; [done|]. unfold parse_nat. simpl.
    destruct (digit_of c) as [[|d|d]|]; try done.
    - destruct s'; done.
    - intros [= Hd]. by apply parse_digits_before_brace in Hd.
    - intros [= Hd]. by apply parse_digits_before_brace in Hd. }
  destruct s as [|c s]; [done|]. unfold parse_number.
  change (String c s +:+ String rbrace "") with (String c (s +:+ String rbrace "")).
  cbv beta iota.
  destruct (Ascii.eqb c "-").
  - destruct (parse_nat (s +:+ String rbrace "")) as [[n r]|] eqn:E; [|done].
    intros [= _ ->]. by apply Hnat in E.
  - change (String c (s +:+ String rbrace "")) with (String c s +:+ String rbrace "").
    destruct (parse_nat (String c s +:+ String rbrace "")) as [[n r]|] eqn:E; [|done].
    intros [= _ ->]. by apply Hnat in E.
Qed.

(** No fuel reads a value, with only blanks after it, from a text that
    ends with a closing brace and that [stringify] goes on after. *)
Lemma proper_prefix_not_read v (p0 q : string) fuel v' r :
  stringify v = Some ((p0 +:+ String rbrace "") +:+ q) -> q <> "" ->
  parse_value fuel (skip_ws (p0 +:+ String rbrace "")) = Some (v', r) ->
  skip_ws r <> "".
Proof.
  intros Ht Hq Hp Hr.
  set (p := p0 +:+ String rbrace "") in *.
  set (big := (fuel + S (2 * String.length (p +:+ q)))%nat).
  destruct (stringify_parses v _ Ht "" big I) as [v0 Hv0]; [lia|].
  rewrite string_app_nil_r in Hv0.
  assert (Hskip : skip_ws p = p).
  { destruct p as [|c p'] eqn:Ep; [done|].
    apply parse_value_head in Hv0 as [Hws _]. simpl. by rewrite Hws. }
  rewrite Hskip in Hp.
  assert (Hext : parse_value fuel (p +:+ q) = Some (v', r +:+ q)).
  { destruct (parse_extends fuel) as (Hv & _). apply Hv; [done|].
    destruct r as [|c r']; [|by left]. right. intros n ->.
    apply parse_value_number in Hp. by apply parse_number_before_brace in Hp. }
  destruct (parse_fuel_mono fuel big ltac:(lia)) as (Hm & _).
  apply Hm in Hext. rewrite Hv0 in Hext. injection Hext as _ Hnil.
  symmetry in Hnil. by apply string_app_nil in Hnil as [_ ?].
Qed.

(** [JSON.parse] throws on a proper part of what [JSON.stringify] wrote,
    when the part ends with a closing brace. *)
Lemma proper_prefix_unparseable v (p0 q : string) :
  stringify v = Some ((p0 +:+ String rbrace "") +:+ q) -> q <> "" ->
  parse (p0 +:+ String rbrace "") = None.
Proof.
  intros Ht Hq. unfold parse.
  destruct (parse_value _ _) as [[v' r]|] eqn:Hp; [|done].
  pose proof (proper_prefix_not_read _ _ _ _ _ _ Ht Hq Hp) as Hr.
  by destruct (skip_ws r).
Qed.

Lemma skip_ws_length s : (String.length (skip_ws s) <= String.length s)%nat.
Proof.
  induction s as [|c s IH]; simpl; [done|].
  destruct (is_ws c); simpl; lia.
Qed.

Lemma strip_prefix_length lit s r :
  strip_prefix lit s = Some r -> (String.length r <= String.length s)%nat.
Proof.
  revert s. induction lit as [|a lit IH]; intros s; simpl.
  - by intros [= ->].
  - destruct s as [|b s]; [done|]. destruct (Ascii.eqb a b); [|done].
    intros Hs. apply IH in Hs. simpl. lia.
Qed.

Lemma prepend_length c x str r :
  prepend c x = Some (str, r) -> exists str', x = Some (str', r).
Proof. unfold prepend. destruct x as [[str' r']|]; [|done]. intros [= _ <-]. eauto. Qed.

Lemma parse_string_length s str r :
  parse_string s = Some (str, r) -> (String.length r < String.length s)%nat.
Proof.
  remember (String.length s) as n eqn:Hn.
  assert (Hle : (String.length s <= n)%nat) by lia. clear Hn.
  revert s str r Hle. induction n as [|n IH]; intros s str r Hle.
  { destruct s; [done | simpl in Hle; lia]. }
  destruct s as [|c rest]; [done|].
  simpl in Hle. simpl.
  destruct (Ascii.eqb c dquote); [intros [= <- <-]; lia|].
  destruct (Ascii.eqb c backslash).
  - destruct rest as [|e rest']; [done|]. simpl in Hle. simpl.
    destruct (Ascii.eqb e "u").
    + destruct rest' as [|h1 [|h2 [|h3 [|h4 rest'']]]]; try done.
      simpl in Hle. simpl.
      destruct (unescape_hex h1 h2 h3 h4); [|done].
      intros Hp. apply prepend_length in Hp as [str' Hp].
      apply IH in Hp; lia.
    + destruct (unescape_simple e); [|done].
      intros Hp. apply prepend_length in Hp as [str' Hp].
      apply IH in Hp; lia.
  - destruct (N_of_ascii c <? 32)%N; [done|].
    intros Hp. apply prepend_length in Hp as [str' Hp].
    apply IH in Hp; lia.
Qed.

Lemma parse_digits_length acc s n r :
  parse_digits acc s = (n, r) -> (String.length r <= String.length s)%nat.
Proof.
  revert acc. induction s as [|c s IH]; intros acc; simpl.
  - by intros [= <- <-].
  - destruct (digit_of c).
    + intros Hd. apply IH in Hd. lia.
    + by intros [= <- <-].
Qed.

Lemma parse_nat_length s n r :
  parse_nat s = Some (n, r) -> (String.length r < String.length s)%nat.
Proof.
  destruct s as [|c s]; [done|]. unfold parse_nat.
  destruct (digit_of c) as [[|d|d]|]; try done.
  - intros [= <- <-]. simpl. lia.
  - intros [= Hd]. apply parse_digits_length in Hd. simpl. lia.
  - intros [= Hd]. apply parse_digits_length in Hd. simpl. lia.
Qed.

Lemma parse_number_length s v r :
  parse_number s = Some (v, r) -> (String.length r < String.length s)%nat.
Proof.
  destruct s as [|c s]; [done|]. unfold parse_number.
  destruct (Ascii.eqb c "-").
  - destruct (parse_nat s) as [[n r']|] eqn:E; [|done].
    intros [= <- <-]. apply parse_nat_length in E. simpl. lia.
  - destruct (parse_nat (String c s)) as [[n r']|] eqn:E; [|done].
    intros [= <- <-]. by apply parse_nat_length in E.
Qed.

(** Every reader takes at least one unit. *)
Lemma parse_consumes fuel :
  (forall s v r, parse_value fuel s = Some (v, r) ->
     (String.length r < String.length s)%nat)
  /\ (forall s vs r, parse_elements fuel s = Some (vs, r) ->
        (String.length r < String.length s)%nat)
  /\ (forall s kvs r, parse_members fuel s = Some (kvs, r) ->
        (String.length r < String.length s)%nat).
Proof.
  induction fuel as [|fuel (IHv & IHe & IHm)]; [done|].
  split; [|split].
  - intros s v r. simpl. unfold parse_value_with.
    destruct s as [|c rest]; [done|].
    destruct (Ascii.eqb c "n").
    { destruct (strip_prefix "ull" rest) eqn:E; [|done]. intros [= <- <-].
      apply strip_prefix_length in E. simpl. lia. }
    destruct (Ascii.eqb c "t").
    { destruct (strip_prefix "rue" rest) eqn:E; [|done]. intros [= <- <-].
      apply strip_prefix_length in E. simpl. lia. }
    destruct (Ascii.eqb c "f").
    { destruct (strip_prefix "alse" rest) eqn:E; [|done]. intros [= <- <-].
      apply strip_prefix_length in E. simpl. lia. }
    destruct (Ascii.eqb c dquote).
    { destruct (parse_string rest) as [[str r']|] eqn:E; [|done]. intros [= <- <-].
      apply parse_string_length in E. simpl. lia. }
    pose proof (skip_ws_length rest) as Hws.
    destruct (Ascii.eqb c "[").
    { destruct (skip_ws rest) as [|d r0] eqn:E; [done|]. simpl in Hws.
      destruct (Ascii.eqb d "]"); [intros [= <- <-]; simpl; lia|].
      destruct (parse_elements fuel (String d r0)) as [[vs r']|] eqn:E'; [|done].
      intros [= <- <-]. apply IHe in E'. simpl in *. lia. }
    destruct (Ascii.eqb c "{").
    { destruct (skip_ws rest) as [|d r0] eqn:E; [done|]. simpl in Hws.
      destruct (Ascii.eqb d "}"); [intros [= <- <-]; simpl; lia|].
      destruct (parse_members fuel (String d r0)) as [[kvs r']|] eqn:E'; [|done].
      intros [= <- <-]. apply IHm in E'. simpl in *. lia. }
    apply parse_number_length.
  - intros s vs r. simpl. unfold parse_elements_with.
    destruct (parse_value fuel s) as [[v r1]|] eqn:E; [|done].
    apply IHv in E. pose proof (skip_ws_length r1) as Hws1.
    destruct (skip_ws r1) as [|d r2]; [done|]. simpl in Hws1.
    destruct (Ascii.eqb d ",").
    + pose proof (skip_ws_length r2) as Hws2.
      destruct (parse_elements fuel (skip_ws r2)) as [[vs' r']|] eqn:E'; [|done].
      intros [= <- <-]. apply IHe in E'. lia.
    + destruct (Ascii.eqb d "]"); [|done]. intros [= <- <-]. lia.
  - intros s kvs r. simpl. unfold parse_members_with.
    destruct s as [|c r0]; [done|].
    destruct (Ascii.eqb c dquote); [|done].
    destruct (parse_string r0) as [[k r1]|] eqn:Ek; [|done].
    apply parse_string_length in Ek. pose proof (skip_ws_length r1) as Hws1.
    destruct (skip_ws r1) as [|d r2]; [done|]. simpl in Hws1.
    destruct (Ascii.eqb d ":"); [|done].
    pose proof (skip_ws_length r2) as Hws2.
    destruct (parse_value fuel (skip_ws r2)) as [[v r3]|] eqn:Ev; [|done].
    apply IHv in Ev. pose proof (skip_ws_length r3) as Hws3.
    destruct (skip_ws r3) as [|d3 r4]; [done|]. simpl in Hws3.
    destruct (Ascii.eqb d3 ",").
    + pose proof (skip_ws_length r4) as Hws4.
      destruct (parse_members fuel (skip_ws r4)) as [[kvs' r5]|] eqn:E'; [|done].
      intros [= <- <-]. apply IHm in E'. simpl. lia.
    + destruct (Ascii.eqb d3 "}"); [|done]. intros [= <- <-]. simpl. lia.
Qed.

(** What some fuel reads, every fuel above twice the length read reads. *)
Lemma parse_fuel_bound fuel :
  (forall s v r, parse_value fuel s = Some (v, r) ->
     forall fuel', (2 * String.length s < fuel' + 2 * String.length r)%nat ->
       parse_value fuel' s = Some (v, r))
  /\ (forall s vs r, parse_elements fuel s = Some (vs, r) ->
        forall fuel', (2 * String.length s <= fuel' + 2 * String.length r)%nat ->
          parse_elements fuel' s = Some (vs, r))
  /\ (forall s kvs r, parse_members fuel s = Some (kvs, r) ->
        forall fuel', (2 * String.length s <= fuel' + 2 * String.length r)%nat ->
          parse_members fuel' s = Some (kvs, r)).
Proof.
  induction fuel as [|fuel (IHv & IHe & IHm)]; [done|].
  destruct (parse_consumes fuel) as (Cv & Ce & Cm).
  destruct (parse_consumes (S fuel)) as (Cv' & Ce' & Cm').
  split; [|split].
  - intros s v r Hp fuel' Hfuel. pose proof (Cv' _ _ _ Hp) as Hlt.
    destruct fuel' as [|fuel']; [lia|].
    revert Hp. simpl. unfold parse_value_with.
    destruct s as [|c rest]; [done|].
    destruct (Ascii.eqb c "n"); [done|].
    destruct (Ascii.eqb c "t"); [done|].
    destruct (Ascii.eqb c "f"); [done|].
    destruct (Ascii.eqb c dquote); [done|].
    pose proof (skip_ws_length rest) as Hws.
    destruct (Ascii.eqb c "[").
    { destruct (skip_ws rest) as [|d r0] eqn:E; [done|]. simpl in Hws.
      destruct (Ascii.eqb d "]"); [done|].
      destruct (parse_elements fuel (String d r0)) as [[vs r']|] eqn:E'; [|done].
      intros [= <- <-]. rewrite (IHe _ _ _ E'); [done|]. simpl in *. lia. }
    destruct (Ascii.eqb c "{"); [|done].
    destruct (skip_ws rest) as [|d r0] eqn:E; [done|]. simpl in Hws.
    destruct (Ascii.eqb d "}"); [done|].
    destruct (parse_members fuel (String d r0)) as [[kvs r']|] eqn:E'; [|done].
    intros [= <- <-]. rewrite (IHm _ _ _ E'); [done|]. simpl in *. lia.
  - intros s vs r Hp fuel' Hfuel. pose proof (Ce' _ _ _ Hp) as Hlt.
    destruct fuel' as [|fuel']; [lia|].
    revert Hp. simpl. unfold parse_elements_with.
    destruct (parse_value fuel s) as [[v r1]|] eqn:E; [|done].
    pose proof (Cv _ _ _ E) as Hlt1. pose proof (skip_ws_length r1) as Hws1.
    destruct (skip_ws r1) as [|d r2] eqn:E1; [done|]. simpl in Hws1.
    destruct (Ascii.eqb d ",") eqn:Ed.
    + pose proof (skip_ws_length r2) as Hws2.
      destruct (parse_elements fuel (skip_ws r2)) as [[vs' r']|] eqn:E'; [|done].
      intros [= <- <-]. pose proof (Ce _ _ _ E') as Hlt2.
      rewrite (IHv _ _ _ E) by lia. rewrite E1, Ed.
      rewrite (IHe _ _ _ E') by lia. done.
    + destruct (Ascii.eqb d "]") eqn:Ed'; [|done]. intros [= <- <-].
      rewrite (IHv _ _ _ E) by lia. by rewrite E1, Ed, Ed'.
  - intros s kvs r Hp fuel' Hfuel. pose proof (Cm' _ _ _ Hp) as Hlt.
    destruct fuel' as [|fuel']; [lia|].
    revert Hp. simpl. unfold parse_members_with.
    destruct s as [|c r0]; [done|].
    destruct (Ascii.eqb c dquote); [|done].
    destruct (parse_string r0) as [[k r1]|] eqn:Ek; [|done].
    apply parse_string_length in Ek. pose proof (skip_ws_length r1) as Hws1.
    destruct (skip_ws r1) as [|d r2]; [done|]. simpl in Hws1.
    destruct (Ascii.eqb d ":"); [|done].
    pose proof (skip_ws_length r2) as Hws2.
    destruct (parse_value fuel (skip_ws r2)) as [[v r3]|] eqn:Ev; [|done].
    pose proof (Cv _ _ _ Ev) as Hlt3. pose proof (skip_ws_length r3) as Hws3.
    destruct (skip_ws r3) as [|d3 r4] eqn:E3; [done|]. simpl in Hws3.
    destruct (Ascii.eqb d3 ",") eqn:Ed.
    + pose proof (skip_ws_length r4) as Hws4.
      destruct (parse_members fuel (skip_ws r4)) as [[kvs' r5]|] eqn:E'; [|done].
      intros [= <- <-]. pose proof (Cm _ _ _ E') as Hlt5.
      rewrite (IHv _ _ _ Ev) by (simpl in *; lia). rewrite E3, Ed.
      rewrite (IHm _ _ _ E') by (simpl in *; lia). done.
    + destruct (Ascii.eqb d3 "}") eqn:Ed'; [|done]. intros [= <- <-].
      rewrite (IHv _ _ _ Ev) by (simpl in *; lia). by rewrite E3, Ed, Ed'.
Qed.

(** The fuel of [parse] is enough: a text that is JSON is read. *)
Lemma parse_fuel_enough text : is_json text -> is_Some (parse text).
Proof.
  intros (fuel & v & r & Hp & Hr). unfold parse.
  destruct (parse_fuel_bound fuel) as (Hv & _).
  pose proof (skip_ws_length text) as Hws.
  rewrite (Hv _ _ _ Hp); [rewrite Hr; by eexists|].
  unfold fuel_for. lia.
Qed.

(** [parse] reads a text exactly when it is JSON. *)
Lemma parse_iff_json text : is_Some (parse text) <-> is_json text.
Proof.
  split; [|apply parse_fuel_enough].
  intros [v Hv]. unfold parse in Hv.
  destruct (parse_value _ _) as [[v' r]|] eqn:E; [|done].
  exists (fuel_for text), v', r. split; [done|]. by destruct (skip_ws r).
Qed.

End JsonReader.

(** ** Truncation *)

Section ExecuteToolFacts.
Context `{Host}.
Import Json.

Lemma truncated_envelope_stringify :
  stringify (JObj [("_truncated", JBool true);
                   ("_message", JStr truncation_message);
                   ("data", JNull)]) = Some truncated_envelope.
Proof. reflexivity. Qed.

Lemma parse_null : parse "null" = Some JNull.
Proof. reflexivity. Qed.

(** What a successful invocation answers, by the length of the serialised
    data and by the closing braces of its first [CHARACTER_LIMIT] units. *)
Lemma executeTool_success_cases data rowCount jsonText :
  stringify data = Some jsonText ->
  (JsString.length jsonText <= CHARACTER_LIMIT
   /\ executeTool_success data rowCount
      = inr {| logged := [success_summary rowCount false];
               response := {| content := [jsonText]; isError := false |} |})
  \/ (CHARACTER_LIMIT < JsString.length jsonText
      /\ lastIndexOf (slice jsonText 0 CHARACTER_LIMIT) rbrace = -1
      /\ executeTool_success data rowCount
         = inr {| logged := [success_summary rowCount true];
                  response := {| content := [truncated_envelope];
                                 isError := false |} |})
  \/ (CHARACTER_LIMIT < JsString.length jsonText
      /\ lastIndexOf (slice jsonText 0 CHARACTER_LIMIT) rbrace <> -1
      /\ exists cut,
           slice (slice jsonText 0 CHARACTER_LIMIT) 0
             (lastIndexOf (slice jsonText 0 CHARACTER_LIMIT) rbrace + 1) = cut
           /\ executeTool_success data rowCount
              = inl ([success_summary rowCount true],
                     Exn "SyntaxError" (JSON_parse_message cut))).
Proof.
  intros Hjson. unfold executeTool_success, truncateResult. rewrite Hjson.
  destruct (JsString.length jsonText <=? CHARACTER_LIMIT) eqn:Hlen.
  { left. apply Z.leb_le in Hlen. split; [done|].
    unfold success_summary. by rewrite string_app_nil_r. }
  right. apply Z.leb_gt in Hlen.
  set (text := slice jsonText 0 CHARACTER_LIMIT).
  assert (Htext : text = take (Z.to_nat CHARACTER_LIMIT) jsonText).
  { apply slice_take. unfold CHARACTER_LIMIT in *. lia. }
  destruct (cut_at_last_brace text) as [[Hidx Hcut]|(a & b & Hab & Hcut)].
  - left. split; [done|]. split; [done|].
    cbv zeta. rewrite Hcut. simpl truthy. cbv iota.
    by rewrite parse_null, truncated_envelope_stringify.
  - right. split; [done|]. split.
    { intros Hidx. rewrite Hidx in Hcut. destruct text, a; discriminate. }
    exists (a +:+ String rbrace "").
    split; [done|].
    cbv zeta. rewrite Hcut.
    assert (truthy (a +:+ String rbrace "") = true) as -> by (by destruct a).
    rewrite (proper_prefix_unparseable data a (b +:+ drop (Z.to_nat CHARACTER_LIMIT) jsonText)).
    + done.
    + rewrite Hjson. f_equal.
      rewrite <- string_app_assoc, <- Hab, Htext. symmetry. apply take_drop.
    + intros Hnil. apply string_app_nil in Hnil as [_ Hdrop].
      pose proof (take_drop (Z.to_nat CHARACTER_LIMIT) jsonText) as Htd.
      rewrite Hdrop, string_app_nil_r in Htd.
      pose proof (take_length (Z.to_nat CHARACTER_LIMIT) jsonText) as Htl.
      rewrite Htd in Htl. unfold JsString.length, CHARACTER_LIMIT in *. lia.
Qed.

End ExecuteToolFacts.

Section Budget.
Context `{Host}.
Import Json.

(** The text of a failure is not JSON. *)
Lemma error_text_not_json message : ~ is_json ("Error: " +:+ message).
Proof.
  intros (fuel & v & r & Hp & _). destruct fuel as [|fuel]; discriminate Hp.
Qed.

Lemma executeTool_settled_success {T : Type} `{ToValue T} (data : T) rowCount :
  executeTool_settled (ToolSuccess data rowCount)
  = match executeTool_success (to_value data) rowCount with
    | inr done => done
    | inl (before, error) => executeTool_caught before error
    end.
Proof. reflexivity. Qed.

End Budget.

(** Within the limit the text is the serialised data, which is JSON. *)
Lemma untruncated_output_is_json `{Host} {T : Type} `{ToValue T}
  (data : T) (rowCount : option Z) (jsonText : string) :
  Json.stringify (to_value data) = Some jsonText ->
  JsString.length jsonText <= CHARACTER_LIMIT ->
  executeTool_settled (ToolSuccess data rowCount)
  = {| logged := [success_summary rowCount false];
       response := {| content := [jsonText]; isError := false |} |}
  /\ is_json jsonText.
Proof.
  intros Hjson Hlen.
  destruct (executeTool_success_cases (to_value data) rowCount jsonText Hjson)
    as [[_ Hex]|[(Hgt & _)|(Hgt & _)]]; [|lia..].
  split.
  - by rewrite executeTool_settled_success, Hex.
  - apply parse_iff_json. by apply (stringify_valid (to_value data)).
Qed.

(** Above the limit, and with no closing brace among the first 50,000
    units, the text is the truncation marker around [null], which is JSON. *)
Lemma truncated_output_without_brace `{Host} {T : Type} `{ToValue T}
  (data : T) (rowCount : option Z) (jsonText : string) :
  Json.stringify (to_value data) = Some jsonText ->
  CHARACTER_LIMIT < JsString.length jsonText ->
  lastIndexOf (slice jsonText 0 CHARACTER_LIMIT) rbrace = -1 ->
  executeTool_settled (ToolSuccess data rowCount)
  = {| logged := [success_summary rowCount true];
       response := {| content := [truncated_envelope]; isError := false |} |}
  /\ is_json truncated_envelope.
Proof.
  intros Hjson Hlen Hbrace.
  destruct (executeTool_success_cases (to_value data) rowCount jsonText Hjson)
    as [[Hle _]|[(_ & _ & Hex)|(_ & Hidx & _)]]; [lia| |done].
  split.
  - by rewrite executeTool_settled_success, Hex.
  - apply parse_iff_json. by eexists.
Qed.

(** What [truncateResult] returns is within the limit, and is the text
    itself unless the text is longer. *)
Lemma truncateResult_within (text : string) :
  JsString.length (fst (truncateResult text)) <= CHARACTER_LIMIT
  /\ (snd (truncateResult text) = false -> fst (truncateResult text) = text)
  /\ (snd (truncateResult text) = true <-> CHARACTER_LIMIT < JsString.length text).
Proof.
  unfold truncateResult.
  destruct (JsString.length text <=? CHARACTER_LIMIT) eqn:E; simpl.
  - apply Z.leb_le in E. repeat split; try done. lia.
  - apply Z.leb_gt in E. split; [|split; [done|by split]].
    rewrite slice_take by (unfold CHARACTER_LIMIT in *; lia).
    unfold JsString.length in *. rewrite take_length.
    unfold CHARACTER_LIMIT in *. lia.
Qed.

(** The pagination examples of the specification (section 8). *)
Example pagination_examples :
  has_more (make_pagination (Int 120) 20 100 20) = false
  /\ next_offset (make_pagination (Int 120) 20 100 20) = None
  /\ has_more (make_pagination (Int 120) 50 0 50) = true
  /\ next_offset (make_pagination (Int 120) 50 0 50) = Some (Int 50).
Proof. repeat split. Qed.

(** C1, on the code: when the serialised data of a successful invocation
    exceeds the limit and one of its first 50,000 units is a closing brace,
    [JSON.parse] throws on the cut text, and the invocation answers with
    the error flag and the text of that error, which is not JSON. *)
Theorem truncated_output_is_not_json `{Host} {T : Type} `{ToValue T}
  (data : T) (rowCount : option Z) (jsonText : string) :
  Json.stringify (to_value data) = Some jsonText ->
  CHARACTER_LIMIT < JsString.length jsonText ->
  lastIndexOf (slice jsonText 0 CHARACTER_LIMIT) rbrace <> -1 ->
  exists cut,
    executeTool_settled (ToolSuccess data rowCount)
    = {| logged := [success_summary rowCount true;
                    "Error: " +:+ JSON_parse_message cut];
         response := {| content := ["Error: " +:+ JSON_parse_message cut];
                        isError := true |} |}
    /\ ~ is_json ("Error: " +:+ JSON_parse_message cut).
Proof.
  intros Hjson Hlen Hbrace.
  destruct (executeTool_success_cases (to_value data) rowCount jsonText Hjson)
    as [[Hle _]|[(_ & Hidx & _)|(_ & _ & cut & _ & Hex)]]; [lia|done|].
  exists cut. split; [|apply error_text_not_json].
  rewrite executeTool_settled_success, Hex. reflexivity.
Qed.

Lemma serialized_Some {T : Type} `{ToValue T} (data : T) :
  is_Some (Json.stringify (to_value data)) ->
  Json.stringify (to_value data) = Some (serialized data).
Proof. intros [t Ht]. unfold serialized. by rewrite Ht. Qed.

Lemma truncated_output_is_not_json_witness :
  CHARACTER_LIMIT
    < JsString.length (serialized (compressSparqlResult five_long_rows))
  /\ lastIndexOf
       (slice (serialized (compressSparqlResult five_long_rows)) 0 CHARACTER_LIMIT)
       rbrace <> -1
  /\ exists cut,
       executeTool_settled (H := example_host)
         (ToolSuccess (compressSparqlResult five_long_rows) (Some 5))
       = {| logged := ["Success, 5 rows (truncated)";
                       "Error: Unexpected end of JSON input"];
            response := {| content := ["Error: Unexpected end of JSON input"];
                           isError := true |} |}
       /\ ~ is_json ("Error: " +:+ JSON_parse_message (Host := example_host) cut).
Proof.
  assert (Hsome : is_Some (Json.stringify
                             (to_value (compressSparqlResult five_long_rows)))).
  { apply (bool_decide_unpack _). vm_compute. reflexivity. }
  assert (Hlen : CHARACTER_LIMIT
                 < JsString.length (serialized (compressSparqlResult five_long_rows))).
  { vm_compute. reflexivity. }
  assert (Hbrace : lastIndexOf
                     (slice (serialized (compressSparqlResult five_long_rows))
                        0 CHARACTER_LIMIT) rbrace <> -1).
  { vm_compute. discriminate. }
  split; [exact Hlen|]. split; [exact Hbrace|].
  exact (truncated_output_is_not_json (H := example_host)
           (compressSparqlResult five_long_rows) (Some 5)
           (serialized (compressSparqlResult five_long_rows))
           (serialized_Some (compressSparqlResult five_long_rows) Hsome)
           Hlen Hbrace).
Defined.

(** The failing input evaluated: [query_sparql] on five rows of 12,000
    units each. *)
Example truncated_output_evaluated :
  executeSparqlTool (H := example_host) (fun _ _ => answering 7 five_long_rows) "q"
  = Fulfilled 7
      {| logged := ["Success, 5 rows (truncated)";
                    "Error: Unexpected end of JSON input"];
         response := {| content := ["Error: Unexpected end of JSON input"];
                        isError := true |} |}.
Proof. vm_compute. reflexivity. Qed.

(** C5, on the code: the text of a failure is not cut. An invocation
    whose handler fails, by a throw or by a failure result, answers with
    the error flag and with [Error: ] and the whole message; for a message
    of more than 49,993 units that text is over the limit of 50,000 units. *)
Theorem failure_output_exceeds_budget `{Host} {T : Type} `{ToValue T}
  (handler : promise (ToolResult T)) (t : nat) (message : string) :
  fails_with handler t message ->
  CHARACTER_LIMIT - 7 < JsString.length message ->
  exists done more,
    executeTool handler = Fulfilled t done
    /\ response done
       = {| content := ["Error: " +:+ message +:+ more]; isError := true |}
    /\ within_budget (response done) = false.
Proof.
  intros Hfails Hlong.
  assert (Hover : forall more,
            within_budget
              {| content := ["Error: " +:+ message +:+ more]; isError := true |}
            = false).
  { intros more. unfold within_budget. simpl. rewrite andb_true_r.
    apply Z.leb_gt. unfold JsString.length in *. simpl String.length.
    rewrite string_app_length. unfold CHARACTER_LIMIT in *. lia. }
  destruct Hfails as [[name ->]|[suggestion ->]].
  - exists (executeTool_caught [] (Exn name message)), "".
    split; [reflexivity|]. unfold executeTool_caught, error_response, getErrorMessage.
    cbn [response exn_message]. rewrite string_app_nil_r. split; [reflexivity|].
    rewrite <- (string_app_nil_r message) at 1. apply Hover.
  - exists (executeTool_settled (ToolError message suggestion)). eexists.
    split; [reflexivity|]. cbn [executeTool_settled response].
    split; [reflexivity|]. apply Hover.
Qed.

Lemma failure_output_exceeds_budget_witness :
  exists done more,
    executeSparqlTool (H := example_host) long_status "ASK {}" = Fulfilled 1 done
    /\ response done
       = {| content := ["Error: "
                        +:+ ("SPARQL request failed: 500 "
                             +:+ repeat_unit "x" (Z.to_nat 50000)) +:+ more];
            isError := true |}
    /\ within_budget (response done) = false.
Proof.
  unfold executeSparqlTool.
  refine (failure_output_exceeds_budget (H := example_host) _ 1%nat
            ("SPARQL request failed: 500 " +:+ repeat_unit "x" (Z.to_nat 50000)) _ _).
  - left. exists "Error". rewrite executeSparql_settles.
    cbn [long_status ok Promise_then status statusText]. do 2 f_equal.
  - vm_compute. reflexivity.
Defined.

(** The failing input evaluated: a handler that returns a failure with a
    message of 50,000 units, and an endpoint that answers [query_sparql]
    with a status text of 50,000 units, both give a text of more than
    50,000 units. *)
Example output_budget_evaluated :
  within_budget
    (response (executeTool_settled (H := example_host) (T := jsval)
                 (ToolError (repeat_unit "x" (Z.to_nat 50000)) None))) = false
  /\ match executeSparqlTool (H := example_host) long_status "ASK {}" with
     | Fulfilled _ done => within_budget (response done) = false
     | _ => False
     end.
Proof. split; vm_compute; reflexivity. Qed.

(* ===================================================================== *)
(** * Part III: further properties                                       *)
(* ===================================================================== *)

Section Literals.

Lemma read_escape_unit c tail :
  read_string_literal (escape_unit c +:+ tail)
  = Json.prepend c (read_string_literal tail).
Proof. destruct c as [[] [] [] [] [] [] [] []]; reflexivity. Qed.

Lemma read_escaped s rest :
  read_string_literal (concat_map escape_unit s +:+ String dquote rest) = Some (s, rest).
Proof.
  induction s as [|c s IH]; simpl; [reflexivity|].
  rewrite string_app_assoc, read_escape_unit, IH. reflexivity.
Qed.

(** X1: written between the quotes of a SPARQL literal, the output of
    the string sanitizer is read as one literal that closes at the quote
    the template writes after it, whatever text follows, and that stands
    for the input: no input closes the literal early or leaves it open. *)
Theorem sanitized_literal_closes (s rest : string) :
  read_string_literal (sanitizeSparqlString s +:+ QUOTE +:+ rest) = Some (s, rest).
Proof.
  rewrite sanitize_by_unit. apply read_escaped.
Qed.

Lemma escape_unit_length c :
  String.length (escape_unit c) = (1 + if is_escaped_unit c then 1 else 0)%nat.
Proof. destruct c as [[] [] [] [] [] [] [] []]; reflexivity. Qed.

Lemma concat_map_escape_length s :
  String.length (concat_map escape_unit s)
  = (String.length s + count_units is_escaped_unit s)%nat.
Proof.
  induction s as [|c s IH]; simpl; [reflexivity|].
  rewrite string_app_length, escape_unit_length, IH.
  destruct (is_escaped_unit c); lia.
Qed.

Lemma concat_map_escape_fixed s :
  count_units is_escaped_unit s = O -> concat_map escape_unit s = s.
Proof.
  induction s as [|c s IH]; simpl; [reflexivity|].
  destruct (is_escaped_unit c) eqn:E; [discriminate|].
  simpl. intros Hs. rewrite (IH Hs).
  revert E. destruct c as [[] [] [] [] [] [] [] []]; (discriminate || reflexivity).
Qed.

(** X2: the string sanitizer adds one unit for each backslash, quote,
    line feed and carriage return of its input and keeps every other unit:
    the output is the input exactly when the input has none of the four,
    and the output holds no line feed and no carriage return. *)
Theorem sanitized_length (s : string) :
  String.length (sanitizeSparqlString s)
  = (String.length s + count_units is_escaped_unit s)%nat
  /\ (sanitizeSparqlString s = s <-> count_units is_escaped_unit s = O)
  /\ count_units (fun c => Ascii.eqb c LF || Ascii.eqb c CR) (sanitizeSparqlString s) = O.
Proof.
  rewrite sanitize_by_unit. split; [apply concat_map_escape_length|]. split.
  - split.
    + intros E. pose proof (concat_map_escape_length s) as L.
      rewrite E in L. lia.
    + apply concat_map_escape_fixed.
  - induction s as [|c s IH]; simpl; [reflexivity|].
    assert (forall a b, count_units (fun c => Ascii.eqb c LF || Ascii.eqb c CR) (a +:+ b)
                        = (count_units (fun c => Ascii.eqb c LF || Ascii.eqb c CR) a
                           + count_units (fun c => Ascii.eqb c LF || Ascii.eqb c CR) b)%nat) as Happ.
    { intros a b. induction a as [|x a IHa]; simpl; [reflexivity|]. rewrite IHa. lia. }
    rewrite Happ, IH.
    destruct c as [[] [] [] [] [] [] [] []]; reflexivity.
Qed.

End Literals.

Section Uris.

Lemma strip_prefix_Some lit s r :
  Json.strip_prefix lit s = Some r <-> s = lit +:+ r.
Proof.
  revert s. induction lit as [|a lit IH]; intros s; simpl.
  - split; [by intros [= ->]|by intros ->].
  - destruct s as [|b s]; [split; [done|by intros ?]|].
    destruct (Ascii.eqb_spec a b) as [->|Hab].
    + rewrite IH. split; [by intros ->|by intros [= ->]].
    + split; [done|]. intros [= -> ->]. done.
Qed.

Lemma test_uri_tail_spec s :
  test_uri_tail s = true
  <-> exists rest, rest <> "" /\ all_uri_units rest = true /\ s = "://" +:+ rest.
Proof.
  unfold test_uri_tail. destruct (Json.strip_prefix "://" s) as [rest|] eqn:E.
  - apply strip_prefix_Some in E. subst s. rewrite andb_true_iff. split.
    + intros [Ht Ha]. exists rest. split; [by destruct rest|]. done.
    + intros (rest' & Hne & Ha & Heq). simpl in Heq. injection Heq as <-.
      split; [by destruct rest|done].
  - split; [done|]. intros (rest & _ & _ & ->). simpl in E. done.
Qed.

Lemma test_uri_spec input : test_uri input = true <-> is_web_uri input.
Proof.
  unfold test_uri, is_web_uri.
  destruct (Json.strip_prefix "http" input) as [r|] eqn:E.
  - apply strip_prefix_Some in E. subst input.
    destruct r as [|c r'].
    + split; [done|]. intros (rest & _ & _ & [Heq|Heq]); simpl in Heq; done.
    + rewrite orb_true_iff, andb_true_iff, !test_uri_tail_spec. split.
      * intros [[Hc (rest & Hne & Ha & Heq)]|(rest & Hne & Ha & Heq)].
        -- apply Ascii.eqb_eq in Hc. subst c r'. exists rest. repeat split; auto.
        -- rewrite Heq. exists rest. repeat split; auto.
      * intros (rest & Hne & Ha & [Heq|Heq]); simpl in Heq.
        -- right. exists rest. injection Heq as -> ->. repeat split; auto.
        -- left. injection Heq as -> ->. split; [done|]. exists rest. repeat split; auto.
  - split; [done|]. intros (rest & _ & _ & [-> | ->]); simpl in E; done.
Qed.

(** X3: the URI check returns its input unchanged when the input is
    http:// or https:// followed by one unit or more, none of them a
    blank, an angle bracket, a quote, a brace, a bar, a backslash, a caret
    or a backtick; for every other input, the empty one and a bare scheme
    included, it throws the Error Invalid URI followed by the input. *)
Theorem sanitizeSparqlUri_cases (input : string) :
  (is_web_uri input /\ sanitizeSparqlUri input = inr input)
  \/ (~ is_web_uri input
      /\ sanitizeSparqlUri input = inl (Error ("Invalid URI: " +:+ input))).
Proof.
  unfold sanitizeSparqlUri. destruct (test_uri input) eqn:E; simpl.
  - left. split; [by apply test_uri_spec|done].
  - right. split; [|done]. intros Hw. apply test_uri_spec in Hw. congruence.
Qed.

Lemma uri_unit_escape c : is_uri_excluded c = false -> escape_unit c = String c "".
Proof. destruct c as [[] [] [] [] [] [] [] []]; (discriminate || reflexivity). Qed.

Lemma uri_units_escape s : all_uri_units s = true -> concat_map escape_unit s = s.
Proof.
  induction s as [|c s IH]; simpl; [done|].
  rewrite andb_true_iff, negb_true_iff. intros [Hc Hs].
  by rewrite (uri_unit_escape c Hc), (IH Hs).
Qed.

Lemma all_uri_units_app a b :
  all_uri_units (a +:+ b) = all_uri_units a && all_uri_units b.
Proof. induction a as [|c a IH]; simpl; [done|]. by rewrite IH, andb_assoc. Qed.

Lemma is_web_uri_units input : is_web_uri input -> all_uri_units input = true.
Proof.
  intros (rest & _ & Ha & [-> | ->]); rewrite all_uri_units_app, Ha; reflexivity.
Qed.

Lemma read_iriref_units s rest u r :
  all_uri_units s = true ->
  read_iriref (s +:+ String ">" rest) = Some (u, r) -> u = s /\ r = rest.
Proof.
  revert u. induction s as [|c s IH]; intros u; simpl.
  - by intros _ [= <- <-].
  - rewrite andb_true_iff, negb_true_iff. intros [Hc Hs].
    assert (Ascii.eqb c ">" = false) as ->.
    { revert Hc. destruct c as [[] [] [] [] [] [] [] []]; (discriminate || reflexivity). }
    destruct (is_iri_excluded c); [done|].
    destruct (read_iriref (s +:+ String ">" rest)) as [[u' r']|] eqn:E; [|done].
    simpl. intros [= <- <-]. destruct (IH u' Hs eq_refl) as [-> ->]. done.
Qed.

Lemma read_iriref_clean s rest :
  all_uri_units s = true -> no_control_unit s = true ->
  read_iriref (s +:+ String ">" rest) = Some (s, rest).
Proof.
  induction s as [|c s IH]; simpl; [done|].
  rewrite !andb_true_iff, negb_true_iff. intros [Hc Hs] [Hn Hs'].
  assert (Ascii.eqb c ">" = false /\ is_iri_excluded c = false) as [-> ->].
  { revert Hc Hn. destruct c as [[] [] [] [] [] [] [] []]; (discriminate || done). }
  by rewrite (IH Hs Hs').
Qed.

(** X4: a URI that passed the check needs no escaping where the
    templates write it. The string sanitizer leaves it as it is; between
    quotes it is read as one literal that closes at the quote of the
    template; between angle brackets the IRI cannot end before the bracket
    of the template, and is read as that IRI when it has no control unit
    (the check lets the control units that are not blanks through). *)
Theorem accepted_uri_keeps_its_place (input uri rest : string) :
  sanitizeSparqlUri input = inr uri ->
  uri = input
  /\ sanitizeSparqlString uri = uri
  /\ read_string_literal (uri +:+ QUOTE +:+ rest) = Some (uri, rest)
  /\ (forall u r, read_iriref (uri +:+ ">" +:+ rest) = Some (u, r) -> u = uri /\ r = rest)
  /\ (no_control_unit uri = true ->
      read_iriref (uri +:+ ">" +:+ rest) = Some (uri, rest)).
Proof.
  intros Hs. destruct (sanitizeSparqlUri_cases input) as [[Hw E]|[_ E]];
    rewrite E in Hs; [|done]. injection Hs as <-.
  pose proof (is_web_uri_units input Hw) as Hu.
  split; [done|].
  assert (sanitizeSparqlString input = input) as Hfix.
  { rewrite sanitize_by_unit. by apply uri_units_escape. }
  split; [done|]. split.
  - rewrite <- Hfix at 1. rewrite sanitize_by_unit. apply read_escaped.
  - split.
    + intros u r. by apply read_iriref_units.
    + by apply read_iriref_clean.
Qed.

Lemma accepted_uri_keeps_its_place_witness :
  sanitizeSparqlUri "https://w3id.org/italia/onto/CPV" = inr "https://w3id.org/italia/onto/CPV"
  /\ read_iriref ("https://w3id.org/italia/onto/CPV" +:+ ">" +:+ " ?p ?o .")
     = Some ("https://w3id.org/italia/onto/CPV", " ?p ?o .").
Proof.
  split; [reflexivity|].
  apply (accepted_uri_keeps_its_place "https://w3id.org/italia/onto/CPV"
           "https://w3id.org/italia/onto/CPV" " ?p ?o ."); reflexivity.
Defined.

End Uris.

Section UriToolFacts.
Context `{Host}.

Lemma executeTool_not_rejected {T : Type} `{ToValue T}
  (handler : promise (ToolResult T)) t e :
  executeTool handler <> Rejected t e.
Proof. by destruct handler. Qed.

Lemma executeSparqlTool_not_rejected net query t e :
  executeSparqlTool net query <> Rejected t e.
Proof. apply executeTool_not_rejected. Qed.

Lemma guards_sanitized uri (k : string -> promise Executed) :
  (forall safeUri t e, k safeUri <> Rejected t e) ->
  guards uri match sanitizeSparqlUri uri with
             | inl thrown => Rejected 0 thrown
             | inr safeUri => k safeUri
             end.
Proof.
  intros Hk. destruct (sanitizeSparqlUri_cases uri) as [[Hw ->]|[Hw ->]]; split.
  - done.
  - intros _. apply Hk.
  - done.
  - done.
Qed.

(** X5: check_coverage, explore_ontology, get_property_details,
    describe_resource and find_relations check their URI before they call
    the executor, outside [executeTool]: for a URI that fails the check the
    callback rejects at once with the Error Invalid URI followed by that
    URI, whatever the network would answer (find_relations checks the
    source first, check_coverage only a URI that is given and not empty);
    for a URI that passes, the callback never rejects. *)
Theorem uri_tools_reject_bad_uris (net : Network) :
  (forall targetUri,
     targetUri <> "" -> guards targetUri (check_coverage net (Some targetUri)))
  /\ (forall t e, check_coverage net None <> Rejected t e
                  /\ check_coverage net (Some "") <> Rejected t e)
  /\ (forall ontologyUri, guards ontologyUri (explore_ontology net ontologyUri))
  /\ (forall propertyUri, guards propertyUri (get_property_details net propertyUri))
  /\ (forall uri depth, guards uri (describe_resource net uri depth))
  /\ (forall sourceUri targetUri,
        (~ is_web_uri sourceUri ->
         find_relations net sourceUri targetUri
         = Rejected 0 (Error ("Invalid URI: " +:+ sourceUri)))
        /\ (is_web_uri sourceUri ->
            guards targetUri (find_relations net sourceUri targetUri))).
Proof.
  assert (forall uri (query : string -> string),
            guards uri match sanitizeSparqlUri uri with
                       | inl thrown => Rejected 0 thrown
                       | inr safeUri => executeSparqlTool net (query safeUri)
                       end) as Hguard.
  { intros uri query.
    apply (guards_sanitized uri (fun safeUri => executeSparqlTool net (query safeUri))).
    intros. apply executeSparqlTool_not_rejected. }
  split; [|split; [|split; [|split; [|split]]]].
  - intros targetUri Hne. unfold check_coverage. simpl default.
    destruct targetUri; [done|]. simpl truthy. cbv iota. apply Hguard.
  - intros t e. split; apply executeSparqlTool_not_rejected.
  - intros ontologyUri. apply Hguard.
  - intros propertyUri. apply Hguard.
  - intros uri depth. unfold describe_resource.
    apply (Hguard uri (fun safeUri => match depth with Int 2 => _ | _ => _ end)).
  - intros sourceUri targetUri. unfold find_relations.
    destruct (sanitizeSparqlUri_cases sourceUri) as [[Hw Hs]|[Hw Hs]]; rewrite Hs.
    + split; [done|]. intros _. apply Hguard.
    + split; [done|]. done.
Qed.

End UriToolFacts.

Section ExecuteToolShape.
Context `{Host}.

Lemma truncated_envelope_is_json : is_json truncated_envelope.
Proof. apply parse_iff_json. by eexists. Qed.

Lemma executeTool_success_shape (data : jsval) (rowCount : option Z) :
  match executeTool_success data rowCount with
  | inr done =>
      exists text truncated,
        done = {| logged := [success_summary rowCount truncated];
                  response := {| content := [text]; isError := false |} |}
        /\ is_json text
  | inl (before, error) =>
      before = [] \/ before = [success_summary rowCount true]
  end.
Proof.
  destruct (Json.stringify data) as [jsonText|] eqn:Hjson.
  - destruct (executeTool_success_cases data rowCount jsonText Hjson)
      as [[_ ->]|[(_ & _ & ->)|(_ & _ & cut & _ & ->)]].
    + exists jsonText, false. split; [done|].
      apply parse_iff_json. by apply (stringify_valid data).
    + exists truncated_envelope, true. split; [done|].
      apply truncated_envelope_is_json.
    + by right.
  - unfold executeTool_success. rewrite Hjson. by left.
Qed.

(** X6: [executeTool] never rejects: it stays pending exactly while
    its handler does, and otherwise answers at the instant the handler
    settles with one text. That text is JSON when the error flag is off;
    when the flag is on it starts with the error marker and is not JSON. *)
Theorem executeTool_answers_json_or_error {T : Type} `{ToValue T}
  (handler : promise (ToolResult T)) :
  match executeTool handler with
  | Fulfilled t done =>
      answers_json_or_error done
      /\ ((exists result, handler = Fulfilled t result)
          \/ (exists error, handler = Rejected t error))
  | Rejected _ _ => False
  | Pending => handler = Pending
  end.
Proof.
  assert (forall message,
            answers_json_or_error
              {| logged := []; response := error_response message |}) as Herr.
  { intros message. exists ("Error: " +:+ message). split; [done|]. simpl.
    split; [by eexists|apply error_text_not_json]. }
  destruct handler as [t result|t error|]; simpl; [| |done].
  - split; [|left; by eexists].
    destruct result as [data rowCount|error suggestion]; simpl.
    + pose proof (executeTool_success_shape (to_value data) rowCount) as Hs.
      destruct (executeTool_success (to_value data) rowCount) as [[before error]|done].
      * apply (Herr (getErrorMessage error)).
      * destruct Hs as (text & truncated & -> & Hjson). by exists text.
    + eexists. split; [reflexivity|]. simpl.
      split; [by eexists|]. apply error_text_not_json.
  - split; [|right; by eexists]. apply (Herr (getErrorMessage error)).
Qed.

(** X7: an invocation that settles hands [logUsage] one summary: that
    of the success when the error flag is off, and that of the error when
    it is on, the error text of the response being the logged summary with
    at most the suggestion after it. The one exception has two summaries:
    when the truncated text could not be wrapped, the summary of the
    truncated success comes first and that of the error second. *)
Theorem executeTool_logs_its_outcome {T : Type} `{ToValue T}
  (handler : promise (ToolResult T)) (t : nat) (done : Executed) :
  executeTool handler = Fulfilled t done -> logs_its_outcome done.
Proof.
  destruct handler as [t' result|t' error|]; simpl; [| |done]; intros [= _ <-].
  - destruct result as [data rowCount|error suggestion]; simpl.
    + pose proof (executeTool_success_shape (to_value data) rowCount) as Hs.
      destruct (executeTool_success (to_value data) rowCount) as [[before error]|done].
      * right. exists (getErrorMessage error), "". simpl.
        rewrite string_app_nil_r. split; [done|]. split; [by left|].
        destruct Hs as [-> | ->]; [by left|right; split; [done|by exists rowCount]].
      * destruct Hs as (text & truncated & -> & _). left. split; [done|].
        by exists rowCount, truncated.
    + right. exists error. eexists. split; [reflexivity|]. split; [|by left].
      destruct suggestion as [[|c suggestion]|]; [by left| |by left].
      right. by exists (String c suggestion).
  - right. exists (getErrorMessage error), "". simpl.
    rewrite string_app_nil_r. split; [done|]. split; by left.
Qed.

End ExecuteToolShape.

Lemma executeTool_logs_its_outcome_witness :
  executeTool (H := example_host) (T := jsval) (Rejected 2 (Error "fetch failed"))
  = Fulfilled 2 (failure_of (Error "fetch failed"))
  /\ logs_its_outcome (failure_of (Error "fetch failed")).
Proof.
  split; [reflexivity|].
  apply (executeTool_logs_its_outcome (H := example_host) (T := jsval)
           (Rejected 2 (Error "fetch failed")) 2).
  reflexivity.
Defined.

Section CompressorMore.

Lemma compressed_stringifies (c : CompressedResult) :
  is_Some (Json.stringify (to_value c)).
Proof. destruct c; by eexists. Qed.

Lemma compressed_length_row_count (result : option SparqlResult) :
  compressed_length (compressSparqlResult result) = guarded_row_count result.
Proof.
  unfold compressSparqlResult, guarded_row_count.
  destruct (result_bindings result) as [rows|]; [|done].
  destruct (Z.of_nat (List.length rows) =? 0) eqn:E0.
  { apply Z.eqb_eq in E0. simpl. lia. }
  destruct (5 <? Z.of_nat (List.length rows)); simpl; by rewrite length_map.
Qed.

(** X8: the row count that [executeSparqlTool] logs is the number of
    rows that the compressed data shows, in either of its shapes and for
    every answer that is not null: the records of the small shape, the rows
    of the table, and none when the answer has no bindings. On the answer
    null no count is logged: the tool fails with the TypeError of reading
    its results. *)
Theorem rows_logged_are_rows_shown `{Host} :
  (forall body,
     row_count (Some body)
     = inr (compressed_length (compressSparqlResult (Some body))))
  /\ (forall net query t body,
        executeSparql net query = Fulfilled t (Some body) ->
        exists done truncated after,
          executeSparqlTool net query = Fulfilled t done
          /\ logged done
             = success_summary
                 (Some (compressed_length (compressSparqlResult (Some body)))) truncated
               :: after)
  /\ (forall net query t,
        executeSparql net query = Fulfilled t None ->
        executeSparqlTool net query
        = Fulfilled t
            {| logged := ["Error: " +:+ null_results_message];
               response := {| content := ["Error: " +:+ null_results_message];
                              isError := true |} |}).
Proof.
  split; [|split].
  { intros body. by rewrite compressed_length_row_count, row_count_guarded. }
  2:{ intros net query t Hv. by rewrite (executeSparqlTool_null net query t Hv). }
  intros net query t body Hv.
  rewrite (executeSparqlTool_fulfilled net query t body Hv).
  rewrite compressed_length_row_count. set (v := Some body).
  exists (executeTool_settled
            (ToolSuccess (compressSparqlResult v) (Some (guarded_row_count v)))).
  simpl executeTool_settled.
  pose proof (executeTool_success_shape (to_value (compressSparqlResult v))
                (Some (guarded_row_count v))) as Hs.
  destruct (compressed_stringifies (compressSparqlResult v)) as [jsonText Hjson].
  destruct (executeTool_success (to_value (compressSparqlResult v))
              (Some (guarded_row_count v))) as [[before error]|done] eqn:E.
  - destruct Hs as [-> | ->].
    + exfalso. unfold executeTool_success in E. rewrite Hjson in E.
      destruct (truncateResult jsonText) as [text [|]]; simpl in E.
      * destruct (Json.parse _); [|discriminate].
        destruct (Json.stringify _); discriminate.
      * discriminate.
    + exists true. eexists. split; [reflexivity|]. reflexivity.
  - destruct Hs as (text & truncated & -> & _). exists truncated, []. done.
Qed.

(** X9: when an answer of more than five rows has no list of
    variables, the headers of the table are the keys of its first row, in
    the order of that row: every row gives one cell per header, its value
    or null, so the first row has no null, and a variable that the first
    row does not bind has no column. *)
Theorem compress_table_without_head (result : option SparqlResult)
  (rows : list SparqlBinding) (first : SparqlBinding) :
  result_bindings result = Some rows ->
  result_vars result = None ->
  (5 < List.length rows)%nat ->
  rows !! 0%nat = Some first ->
  exists table,
    compressSparqlResult result = CompressedTabular (Object_keys first) table
    /\ List.length table = List.length rows
    /\ (forall i row, rows !! i = Some row ->
          table !! i
          = Some (map (fun h => value <$> obj_get h row) (Object_keys first)))
    /\ (is_object first ->
        table !! 0%nat = Some (map (fun kv => Some (value (snd kv))) first)).
Proof.
  intros Hb Hv Hlen Hfirst. unfold compressSparqlResult. rewrite Hb, Hv, Hfirst.
  destruct (Z.of_nat (List.length rows) =? 0) eqn:E0; [lia|].
  destruct (5 <? Z.of_nat (List.length rows)) eqn:E5; [|lia].
  eexists. split; [reflexivity|]. split; [by rewrite length_map|].
  assert (forall i row, rows !! i = Some row ->
            map (fun b => map (fun h => value <$> obj_get h b) (Object_keys first)) rows !! i
            = Some (map (fun h => value <$> obj_get h row) (Object_keys first))) as Hrow.
  { intros i row Hi. by rewrite lookup_map, Hi. }
  split; [exact Hrow|].
  intros Hobj. rewrite (Hrow 0%nat first Hfirst). f_equal.
  unfold Object_keys. rewrite map_map. apply map_ext_in.
  intros [k v] Hin. simpl.
  rewrite (obj_get_elem_object first k v Hobj); [done|].
  by apply list_elem_of_In.
Qed.

Lemma compress_table_without_head_witness :
  exists table,
    compressSparqlResult (headless six_rows) = CompressedTabular ["s"; "p"] table
    /\ List.length table = 6%nat
    /\ (forall i row, six_rows !! i = Some row ->
          table !! i = Some (map (fun h => value <$> obj_get h row) ["s"; "p"]))
    /\ (is_object [("s", literal "a"); ("p", literal "b")] ->
        table !! 0%nat = Some [Some "a"; Some "b"]).
Proof.
  apply (compress_table_without_head (headless six_rows) six_rows
           [("s", literal "a"); ("p", literal "b")]).
  - reflexivity.
  - reflexivity.
  - simpl. lia.
  - reflexivity.
Defined.

End CompressorMore.

Section Truncation.

(** X10: [truncateResult] keeps the head of the text: the result is a
    prefix of the text, of the length of the text or of the limit, whichever
    is smaller; the flag says whether something was cut; and truncating the
    result again changes nothing. *)
Theorem truncateResult_keeps_prefix (text : string) :
  exists cut,
    text = fst (truncateResult text) +:+ cut
    /\ JsString.length (fst (truncateResult text))
       = Z.min (JsString.length text) CHARACTER_LIMIT
    /\ (snd (truncateResult text) = true <-> cut <> "")
    /\ truncateResult (fst (truncateResult text)) = (fst (truncateResult text), false).
Proof.
  unfold truncateResult.
  destruct (JsString.length text <=? CHARACTER_LIMIT) eqn:E; simpl.
  - apply Z.leb_le in E. exists "". rewrite string_app_nil_r.
    split; [done|]. split; [lia|]. split; [by split|].
    apply Z.leb_le in E. by rewrite E.
  - apply Z.leb_gt in E.
    assert (Hs : slice text 0 CHARACTER_LIMIT = take (Z.to_nat CHARACTER_LIMIT) text).
    { apply slice_take. unfold CHARACTER_LIMIT in *. lia. }
    rewrite Hs.
    assert (Hl : JsString.length (take (Z.to_nat CHARACTER_LIMIT) text) = CHARACTER_LIMIT).
    { unfold JsString.length in *. rewrite take_length.
      unfold CHARACTER_LIMIT in *. lia. }
    exists (drop (Z.to_nat CHARACTER_LIMIT) text).
    split; [by rewrite take_drop|]. split; [lia|]. split.
    + split; [|done]. intros _ Hnil.
      pose proof (take_drop (Z.to_nat CHARACTER_LIMIT) text) as Htd.
      rewrite Hnil, string_app_nil_r in Htd. rewrite Htd in Hl. lia.
    + rewrite Hl. reflexivity.
Qed.

(** X11: when the serialised data is over the limit and its first
    50,000 units hold no closing brace (a long string, an array of
    strings), the invocation succeeds with the truncation marker around
    null: nothing of the data is returned, and the summary says truncated. *)
Theorem oversize_without_brace_answers_null `{Host} {T : Type} `{ToValue T}
  (data : T) (rowCount : option Z) (jsonText : string) :
  Json.stringify (to_value data) = Some jsonText ->
  CHARACTER_LIMIT < JsString.length jsonText ->
  lastIndexOf (slice jsonText 0 CHARACTER_LIMIT) rbrace = -1 ->
  executeTool_settled (ToolSuccess data rowCount)
  = {| logged := [success_summary rowCount true];
       response := {| content := [truncated_envelope]; isError := false |} |}
  /\ Json.parse truncated_envelope
     = Some (JObj [("_truncated", JBool true);
                   ("_message",
                     JStr "Result exceeded 50000 characters and was truncated");
                   ("data", JNull)]).
Proof.
  intros Hjson Hlen Hbrace. split; [|reflexivity].
  by apply (truncated_output_without_brace data rowCount jsonText).
Qed.

Lemma oversize_without_brace_answers_null_witness :
  executeTool_settled (H := example_host) (ToolSuccess long_text None)
  = {| logged := ["Success (truncated)"];
       response := {| content := [truncated_envelope]; isError := false |} |}
  /\ Json.parse truncated_envelope
     = Some (JObj [("_truncated", JBool true);
                   ("_message",
                     JStr "Result exceeded 50000 characters and was truncated");
                   ("data", JNull)]).
Proof.
  apply (oversize_without_brace_answers_null (H := example_host)
           long_text None (serialized long_text)).
  - apply serialized_Some. apply (bool_decide_unpack _). vm_compute. reflexivity.
  - vm_compute. reflexivity.
  - vm_compute. reflexivity.
Defined.

End Truncation.

Section FanOutSettles.
Context `{Host}.

Lemma all_fulfilled_Some {A : Type} (ps : list (promise A)) :
  (forall t e, Rejected t e ∉ ps) -> Pending ∉ ps ->
  exists values,
    all_fulfilled ps = Some (latest (omap fulfilled_at ps), values)
    /\ List.length (omap fulfilled_at ps) = List.length ps.
Proof.
  induction ps as [|p ps IH]; intros Hr Hp.
  { by exists []. }
  destruct IH as (values & Hall & Hlen).
  { intros t e Hin. apply (Hr t e). by apply list_elem_of_further. }
  { intros Hin. apply Hp. by apply list_elem_of_further. }
  destruct p as [t a|t e|].
  - exists (a :: values). simpl. rewrite Hall. split; [done|]. f_equal. exact Hlen.
  - exfalso. apply (Hr t e), list_elem_of_here.
  - exfalso. apply Hp, list_elem_of_here.
Qed.

Lemma all_fulfilled_None {A : Type} (ps : list (promise A)) :
  Pending ∈ ps -> all_fulfilled ps = None.
Proof.
  induction ps as [|p ps IH]; [by intros ?%elem_of_nil|].
  rewrite elem_of_cons. intros [<-|Hin]; [done|].
  simpl. rewrite (IH Hin). by destruct p.
Qed.

Lemma first_rejection_None {A : Type} (ps : list (promise A)) :
  (forall t e, Rejected t e ∉ ps) -> first_rejection ps = None.
Proof.
  intros Hr. destruct (first_rejection ps) as [[t e]|] eqn:E; [|done].
  apply first_rejection_elem in E. by apply Hr in E.
Qed.

Lemma executeTool_joins {A T : Type} `{ToValue T}
  (ps : list (promise A)) (f : list A -> exn + ToolResult T) :
  (forall t e, Rejected t e ∉ ps) ->
  (Pending ∈ ps -> executeTool (Promise_then (Promise_all ps) f) = Pending)
  /\ (Pending ∉ ps ->
      List.length (omap fulfilled_at ps) = List.length ps
      /\ exists done,
           executeTool (Promise_then (Promise_all ps) f)
           = Fulfilled (latest (omap fulfilled_at ps)) done).
Proof.
  intros Hr. unfold Promise_all. rewrite (first_rejection_None ps Hr). split.
  - intros Hp. by rewrite (all_fulfilled_None ps Hp).
  - intros Hp. destruct (all_fulfilled_Some ps Hr Hp) as (values & -> & Hlen).
    split; [done|]. simpl. destruct (f values) as [e|result]; by eexists.
Qed.

End FanOutSettles.

(** X12: a fan-out operation none of whose sub-queries is rejected
    answers when the last of them is fulfilled, and not before: it is
    pending as long as one sub-query is pending, whatever the others
    returned, and otherwise it is fulfilled at the latest of their
    instants. *)
Theorem fan_out_waits_for_all `{Host}
  (subqueries : list (promise (option SparqlResult))) (operation : promise Executed) :
  fan_out subqueries operation ->
  (forall t e, Rejected t e ∉ subqueries) ->
  (Pending ∈ subqueries -> operation = Pending)
  /\ (Pending ∉ subqueries ->
      List.length (omap fulfilled_at subqueries) = List.length subqueries
      /\ exists done,
           operation = Fulfilled (latest (omap fulfilled_at subqueries)) done).
Proof.
  intros Hfan Hr.
  destruct Hfan; unfold list_datasets, list_municipalities, list_provinces,
    inspect_concept, explore_catalog, explore_dataset, suggest_improvements,
    browse_vocabulary; by apply executeTool_joins.
Qed.

Lemma fan_out_waits_for_all_witness :
  exists done,
    list_datasets (H := example_host)
      (scripted [("names", answering 4 rome_twice);
                 ("count", answering 9 five_cities)]) "names" "count" 0
    = Fulfilled 9 done.
Proof.
  destruct (fan_out_waits_for_all (H := example_host)
              [executeSparql (H := example_host)
                 (scripted [("names", answering 4 rome_twice);
                            ("count", answering 9 five_cities)]) "names";
               executeSparql (H := example_host)
                 (scripted [("names", answering 4 rome_twice);
                            ("count", answering 9 five_cities)]) "count"]
              (list_datasets (H := example_host)
                 (scripted [("names", answering 4 rome_twice);
                            ("count", answering 9 five_cities)]) "names" "count" 0))
    as [_ Hall].
  - apply (fan_list_datasets (H := example_host)).
  - intros t e Hin. apply elem_of_cons in Hin as [Hin|Hin]; [discriminate|].
    apply elem_of_cons in Hin as [Hin|Hin]; [discriminate|].
    by apply elem_of_nil in Hin.
  - destruct Hall as [_ Hdone]; [|exact Hdone].
    intros Hin. apply elem_of_cons in Hin as [Hin|Hin]; [discriminate|].
    apply elem_of_cons in Hin as [Hin|Hin]; [discriminate|].
    by apply elem_of_nil in Hin.
Defined.

Section Profile.

Lemma fold_left_ext_in {A B : Type} (f g : A -> B -> A) (l : list B) (a : A) :
  (forall acc x, x ∈ l -> f acc x = g acc x) -> fold_left f l a = fold_left g l a.
Proof.
  revert a. induction l as [|x l IH]; intros a Hfg; simpl; [done|].
  rewrite (Hfg a x) by apply list_elem_of_here.
  apply IH. intros acc y Hy. apply Hfg. by apply list_elem_of_further.
Qed.

Lemma sections_keys entries answers k :
  k ∈ Object_keys (sections entries answers) -> k ∈ map fst entries.
Proof.
  unfold sections, Object_keys. rewrite !list_elem_of_fmap.
  intros ([k' c] & -> & Hin). apply list_elem_of_omap in Hin as ([e a] & Hin & Hea).
  simpl in Hea. destruct a as [r|]; [|done]. injection Hea as <- <-.
  exists e. split; [done|]. by apply elem_of_zip_l in Hin.
Qed.

Lemma sections_snoc entries answers e a :
  List.length answers = List.length entries ->
  sections (entries ++ [e]) (answers ++ [a])
  = sections entries answers
    ++ match a with
       | Some r => [(fst e, compressSparqlResult (Some r))]
       | None => []
       end.
Proof.
  intros Hlen. unfold sections.
  rewrite zip_with_app by (symmetry; exact Hlen). rewrite omap_app. f_equal.
  simpl. by destruct a.
Qed.

(** X13: the loop of inspect_concept pairs each query name with the
    answer at the same position: for names that are distinct and as many
    answers as queries, the profile holds, in the order of the queries, each
    name with the compressed answer to its own query, and no section for a
    query whose answer is null. *)
Theorem inspect_concept_results_sections (entries : list (string * string))
  (sparqlResults : list (option SparqlResult)) :
  NoDup (map fst entries) ->
  List.length sparqlResults = List.length entries ->
  inspect_concept_results entries sparqlResults = sections entries sparqlResults.
Proof.
  revert sparqlResults.
  induction entries as [|e entries IH] using rev_ind; intros answers Hnd Hlen.
  { by destruct answers. }
  destruct answers as [|a answers _] using rev_ind.
  { rewrite length_app in Hlen. simpl in Hlen. lia. }
  rewrite !length_app in Hlen. simpl in Hlen.
  assert (Hlen' : List.length answers = List.length entries) by lia.
  rewrite map_app in Hnd. apply NoDup_app in Hnd as (Hnd & Hfresh & _).
  rewrite sections_snoc by done.
  unfold inspect_concept_results. rewrite length_app. simpl.
  rewrite Nat.add_1_r, seq_S, fold_left_app. simpl.
  rewrite (list_lookup_middle entries [] e (List.length entries) eq_refl).
  rewrite (list_lookup_middle answers [] a (List.length entries) (eq_sym Hlen')).
  simpl.
  rewrite (fold_left_ext_in _
             (fun results i =>
                match entries !! i, mjoin (answers !! i) with
                | Some entry, Some sparqlResult =>
                    obj_set (fst entry) (compressSparqlResult (Some sparqlResult)) results
                | _, _ => results
                end)).
  2:{ intros acc i Hi. apply elem_of_seq in Hi.
      rewrite !lookup_app_l by lia. done. }
  fold (inspect_concept_results entries answers). rewrite (IH answers Hnd Hlen').
  destruct a as [r|]; [|by rewrite app_nil_r].
  apply obj_set_fresh. intros Hin. apply sections_keys in Hin.
  apply (Hfresh (fst e)); [done|]. simpl. apply list_elem_of_here.
Qed.

Lemma inspect_concept_results_sections_witness :
  inspect_concept_results profile_entries
    [two_titles; None; one_dataset; shapeless; rome_twice]
  = sections profile_entries [two_titles; None; one_dataset; shapeless; rome_twice].
Proof.
  apply (inspect_concept_results_sections profile_entries
           [two_titles; None; one_dataset; shapeless; rome_twice]).
  - by apply (bool_decide_unpack _).
  - reflexivity.
Defined.

End Profile.

Section Lookups.

Lemma build_lookup_fold field rows k :
  obj_get k (fold_left (lookup_step field) rows [])
  = if String.eqb k "__proto__" then None else last (omap (coded field k) rows).
Proof.
  induction rows as [|row rows IH] using rev_ind.
  { simpl. by destruct (String.eqb k "__proto__"). }
  rewrite fold_left_app, omap_app. cbn [fold_left omap list_omap].
  unfold lookup_step at 1, coded at 2.
  destruct (binding_value "notation" row) as [n|]; [|by rewrite app_nil_r].
  destruct (binding_value field row) as [v|]; [|by rewrite app_nil_r].
  destruct (truthy n && truthy v); cbn [andb]; [|by rewrite app_nil_r].
  unfold assign. destruct (String.eqb_spec n "__proto__") as [->|Hproto].
  - rewrite IH. destruct (String.eqb k "__proto__") eqn:Hk; [done|].
    rewrite String.eqb_sym, Hk. by rewrite app_nil_r.
  - destruct (String.eqb_spec n k) as [Heq|Hne].
    + subst k. rewrite obj_get_set_eq, last_snoc.
      by destruct (String.eqb_spec n "__proto__").
    + rewrite obj_get_set_ne by done. by rewrite app_nil_r.
Qed.

Lemma build_lookup_inr `{Host} field (body : SparqlResult) :
  build_lookup field (Some body)
  = inr (fold_left (lookup_step field) (default [] (result_bindings (Some body))) []).
Proof. reflexivity. Qed.

Lemma build_lookup_Some `{Host} field result lookup :
  build_lookup field result = inr lookup -> exists body, result = Some body.
Proof. destruct result as [body|]; [by exists body|done]. Qed.

(** X14: the lookup tables of list_municipalities and list_provinces
    are built when the answer is not null (on the answer null the loop
    throws the TypeError of reading its results). A table has, under a
    notation other than [__proto__], the code of the last row that has this
    notation and a code, both not empty, and no entry when there is no such
    row; it has no entry under [__proto__], whatever the rows. Reading the
    table under a notation that no prototype has finds that code or
    nothing. (The names, by contrast, keep the first longest: C7.) *)
Theorem build_lookup_keeps_last `{Host} (field : string) (result : option SparqlResult) :
  match result with
  | None => build_lookup field result = inl (Exn "TypeError" null_results_message)
  | Some _ =>
      exists lookup,
        build_lookup field result = inr lookup
        /\ (forall k, k <> "__proto__" ->
              obj_get k lookup = last (codes field k result))
        /\ obj_get "__proto__" lookup = None
        /\ (forall k, k ∉ Object_prototype_names ->
              property_get k lookup
              = match last (codes field k result) with
                | Some code => Own code
                | None => NoMember
                end)
  end.
Proof.
  destruct result as [body|]; [|reflexivity].
  eexists. split; [apply build_lookup_inr|].
  assert (Hget : forall k, k <> "__proto__" ->
            obj_get k
              (fold_left (lookup_step field)
                 (default [] (result_bindings (Some body))) [])
            = last (codes field k (Some body))).
  { intros k Hk. rewrite build_lookup_fold.
    by destruct (String.eqb_spec k "__proto__"). }
  split; [exact Hget|]. split.
  - by rewrite build_lookup_fold.
  - intros k Hk. rewrite property_get_plain by done. rewrite Hget; [done|].
    intros ->. apply Hk. by apply (bool_decide_unpack _).
Qed.

Lemma coded_truthy field k row v : coded field k row = Some v -> truthy v = true.
Proof.
  unfold coded. destruct (binding_value "notation" row) as [n|]; [|done].
  destruct (binding_value field row) as [v'|]; [|done].
  destruct (truthy n) eqn:Tn, (truthy v') eqn:Tv, (String.eqb n k); simpl; try done.
  by intros [= <-].
Qed.

Lemma build_lookup_truthy `{Host} field result lookup k v :
  build_lookup field result = inr lookup ->
  obj_get k lookup = Some v -> truthy v = true.
Proof.
  intros Hb. destruct (build_lookup_Some field result lookup Hb) as [body ->].
  rewrite build_lookup_inr in Hb. injection Hb as <-.
  rewrite build_lookup_fold. destruct (String.eqb k "__proto__"); [done|].
  intros Hl. apply last_Some_elem_of in Hl.
  apply list_elem_of_omap in Hl as (row & _ & Hc).
  by apply coded_truthy in Hc.
Qed.

End Lookups.

Section Records.
Context {R : Type} (name_of : R -> string) (make : string -> string -> R).
Hypothesis name_of_make : forall k n, name_of (make k n) = n.

Lemma candidate_truthy k row n :
  candidate k row = Some n -> truthy k = true /\ truthy n = true.
Proof.
  unfold candidate. destruct (binding_value "notation" row) as [k'|]; [|done].
  destruct (binding_value "name" row) as [n'|]; [|done].
  destruct (truthy k') eqn:Tk, (truthy n') eqn:Tn; simpl; try done.
  destruct (String.eqb_spec k' k) as [->|]; [|done]. by intros [= <-].
Qed.

Lemma longest_so_far_elem l x : longest_so_far l = Some x -> x ∈ l.
Proof.
  revert x. induction l as [|y l IH] using rev_ind; intros x; [done|].
  rewrite longest_so_far_snoc. rewrite elem_of_app, list_elem_of_singleton.
  destruct (longest_so_far l) as [b|].
  - destruct (_ <? _); intros [= <-]; [by right|left; by apply IH].
  - intros [= <-]. by right.
Qed.

(** What the deduplicated map holds: for a key, the record made of the key
    and of a name that a row proposes for it, neither of them empty. *)
Lemma dedupe_values `{Host} (cmp : R -> R -> Z) (namesResult : option SparqlResult)
  seen r :
  dedupe name_of make namesResult = inr seen ->
  r ∈ Array_sort cmp (Object_values seen) ->
  exists k n,
    r = make k n /\ k <> "" /\ n <> ""
    /\ n ∈ candidates k (default [] (result_bindings namesResult)).
Proof.
  intros Hseen. apply dedupe_inr in Hseen.
  rewrite Array_sort_perm. unfold Object_values.
  set (rows := default [] (result_bindings namesResult)) in *.
  destruct (dedupe_lookup name_of make name_of_make rows seen Hseen)
    as (Hobj & _ & Hall).
  rewrite list_elem_of_fmap. intros ([k r'] & -> & Hin). simpl.
  apply (obj_get_elem_object _ _ _ Hobj) in Hin.
  destruct (Hall k r' Hin) as (n & -> & Hn). exists k, n.
  pose proof Hn as Hn'. unfold candidates in Hn'.
  apply list_elem_of_omap in Hn' as (row & _ & Hc).
  apply candidate_truthy in Hc as [Tk Tn].
  split; [done|]. split; [by destruct k|]. split; [by destruct n|done].
Qed.

Lemma dedupe_length `{Host} (cmp : R -> R -> Z) (namesResult : option SparqlResult)
  seen :
  dedupe name_of make namesResult = inr seen ->
  (List.length (Array_sort cmp (Object_values seen))
   <= List.length (default [] (result_bindings namesResult)))%nat.
Proof.
  intros Hseen. apply dedupe_inr in Hseen.
  rewrite Array_sort_perm. unfold Object_values. rewrite length_map.
  revert seen Hseen.
  induction (default [] (result_bindings namesResult)) as [|row rows IH] using rev_ind;
    intros seen.
  { by intros [= <-]. }
  rewrite fold_throws_app, length_app. simpl.
  destruct (fold_throws (dedupe_step name_of make) rows []) as [e|before]; [done|].
  specialize (IH before eq_refl). simpl.
  assert (forall k v, List.length (property_set k v before) <= List.length rows + 1)%nat
    as Hset.
  { intros k v. pose proof (property_set_length before k v). lia. }
  unfold dedupe_step.
  destruct (binding_value "notation" row) as [n|]; [|intros [= <-]; lia].
  destruct (binding_value "name" row) as [nm|]; [|intros [= <-]; lia].
  destruct (negb (truthy n) || negb (truthy nm)); [intros [= <-]; lia|].
  destruct (property_get n before) as [existing|existing_name| |]; [| |done|].
  - destruct (_ <? _); intros [= <-]; [apply Hset|lia].
  - destruct (_ <? _); intros [= <-]; [apply Hset|lia].
  - intros [= <-]. apply Hset.
Qed.

End Records.

(** X15: what the reconciled lists hold, when they are returned: a
    list has at most as many records as the names answer has rows; every
    record has a notation and a name that are not empty, the name being one
    that a row proposes for the notation; and its codes are what reading
    the lookup tables under its notation finds (Belfiore for a city, sigla
    and metro for a province): the code that the table has, nothing when it
    has none, or, for a notation that is a name of [Object.prototype] and
    has no code, the member that the table inherits. *)
Theorem reconciled_records_carry_lookups `{Host}
  (namesResult belfioreResult siglaResult metroResult : option SparqlResult) :
  let rows := default [] (result_bindings namesResult) in
  (forall cities,
     reconciled_cities namesResult belfioreResult = inr cities ->
     exists belfioreLookup,
       build_lookup "belfiore" belfioreResult = inr belfioreLookup
       /\ (List.length cities <= List.length rows)%nat
       /\ forall c, c ∈ cities ->
            City.notation c <> "" /\ City.name c <> ""
            /\ City.name c ∈ candidates (City.notation c) rows
            /\ City.belfiore c = property_get (City.notation c) belfioreLookup)
  /\ (forall provinces,
        reconciled_provinces namesResult siglaResult metroResult = inr provinces ->
        exists siglaLookup metroLookup,
          build_lookup "sigla" siglaResult = inr siglaLookup
          /\ build_lookup "metro" metroResult = inr metroLookup
          /\ (List.length provinces <= List.length rows)%nat
          /\ forall p, p ∈ provinces ->
               Province.notation p <> "" /\ Province.name p <> ""
               /\ Province.name p ∈ candidates (Province.notation p) rows
               /\ Province.sigla p = property_get (Province.notation p) siglaLookup
               /\ Province.metro p = property_get (Province.notation p) metroLookup).
Proof.
  intros rows. split.
  - intros cities Hcities.
    apply reconciled_cities_inr in Hcities
      as (belfioreLookup & cityMap & Hlookup & Hmap & ->).
    exists belfioreLookup. split; [done|].
    split; [by apply (dedupe_length City.name (make_city belfioreLookup))|].
    intros c Hc.
    apply (dedupe_values City.name (make_city belfioreLookup) (fun _ _ => eq_refl)
             _ namesResult cityMap c Hmap) in Hc as (k & n & -> & Hk & Hn & Hin).
    simpl. repeat split; try done.
    destruct (property_get k belfioreLookup) as [b| | |] eqn:Hb; try done.
    apply property_get_own in Hb.
    by rewrite (build_lookup_truthy _ _ _ _ _ Hlookup Hb).
  - intros provinces Hprovinces.
    apply reconciled_provinces_inr in Hprovinces
      as (siglaLookup & metroLookup & provMap & Hsigla & Hmetro & Hmap & ->).
    exists siglaLookup, metroLookup. split; [done|]. split; [done|].
    split; [by apply (dedupe_length Province.name
                        (make_province siglaLookup metroLookup))|].
    intros p Hp.
    apply (dedupe_values Province.name (make_province siglaLookup metroLookup)
             (fun _ _ => eq_refl) _ namesResult provMap p Hmap) in Hp
      as (k & n & -> & Hk & Hn & Hin).
    simpl. by repeat split.
Qed.

Section Sorting.
Context {A : Type} (cmp : A -> A -> Z).
Hypothesis cmp_consistent : forall a b, 0 < cmp a b -> cmp b a <= 0.




End Sorting.





Section Totals.

#[local] Arguments Json.digit_of : simpl never.

Lemma pretty_N_go_app x s : pretty_N_go x s = pretty_N_go x "" +:+ s.
Proof.
  revert s. induction (N.lt_wf_0 x) as [x _ IH]. intros s.
  destruct (decide (0 < x)%N) as [Hx|Hx].
  - rewrite !(pretty_N_go_step x) by done.
    assert (Hlt : (x `div` 10 < x)%N) by (by apply N.div_lt).
    rewrite (IH (x `div` 10)%N Hlt (String (pretty_N_char (x `mod` 10)) s)).
    rewrite (IH (x `div` 10)%N Hlt (String (pretty_N_char (x `mod` 10)) "")).
    by rewrite string_app_assoc.
  - assert (x = 0%N) as -> by lia. by rewrite !pretty_N_go_0.
Qed.

Lemma parse_digits_pretty_N_go x s acc :
  (0 < x)%N ->
  exists k, Json.parse_digits acc (pretty_N_go x s)
            = Json.parse_digits (acc * 10 ^ k + Z.of_N x) s /\ 0 <= k.
Proof.
  revert s. induction (N.lt_wf_0 x) as [x _ IH]. intros s Hx.
  rewrite pretty_N_go_step by done.
  assert (Hmod : (x `mod` 10 < 10)%N) by (apply N.mod_lt; lia).
  pose proof (digit_of_pretty_N_char _ Hmod) as Hd.
  pose proof (N.div_mod x 10 ltac:(done)) as Hdm.
  destruct (decide (x `div` 10 = 0)%N) as [Hz|Hnz].
  - rewrite Hz, pretty_N_go_0. exists 1. simpl Json.parse_digits. rewrite Hd.
    split; [|lia]. f_equal. rewrite Hz in Hdm. lia.
  - destruct (IH (x `div` 10)%N) with (s := String (pretty_N_char (x `mod` 10)) s)
      as (k & Heq & Hk).
    { apply N.div_lt; [exact Hx | reflexivity]. }
    { apply N.neq_0_lt_0. exact Hnz. }
    exists (k + 1). rewrite Heq. simpl Json.parse_digits. rewrite Hd.
    split; [|lia]. f_equal. rewrite Z.pow_add_r by lia. lia.
Qed.

Lemma parse_digits_stop acc rest :
  no_digit_head rest -> Json.parse_digits acc rest = (acc, rest).
Proof. destruct rest as [|c r]; simpl; [done|]. by intros ->. Qed.

Lemma parse_radix10_pretty_N_go negative x rest :
  (0 < x)%N -> no_digit_head rest ->
  parse_radix10 negative (pretty_N_go x "" +:+ rest)
  = to_Number (if negative then - Z.of_N x else Z.of_N x)
  /\ exists c r, pretty_N_go x "" +:+ rest = String c r
                 /\ is_Some (Json.digit_of c).
Proof.
  intros Hx Hrest.
  destruct (pretty_N_go_digits x "" Hx) as (c & d & ds & Heq & Hc & _ & _).
  destruct (parse_digits_pretty_N_go x rest 0 Hx) as (k & Hk & _).
  rewrite (pretty_N_go_app x rest) in Hk. rewrite Heq in Hk |- *.
  change (String c (ds +:+ "") +:+ rest) with (String c ((ds +:+ "") +:+ rest)) in *.
  cbn [Json.parse_digits] in Hk. rewrite Hc in Hk.
  replace (10 * 0 + d) with d in Hk by lia.
  replace (0 * 10 ^ k + Z.of_N x) with (Z.of_N x) in Hk by lia.
  split.
  - unfold parse_radix10. rewrite Hc, Hk. by rewrite parse_digits_stop.
  - exists c. eexists. split; [reflexivity|by eexists].
Qed.

Lemma digit_not_blank c d :
  Json.digit_of c = Some d ->
  is_StrWhiteSpaceChar c = false /\ Ascii.eqb c "-" = false /\ Ascii.eqb c "+" = false.
Proof. destruct c as [[] [] [] [] [] [] [] []]; (discriminate || done). Qed.

Lemma parseInt_pretty (z : Z) (rest : string) :
  no_digit_head rest -> parseInt (pretty z +:+ rest) = to_Number z.
Proof.
  intros Hrest. unfold pretty, pretty_Z. destruct z as [|p|p].
  - change (parseInt (String "0" rest) = Int 0).
    transitivity (to_Number (fst (Json.parse_digits 0 rest))); [reflexivity|].
    by rewrite parse_digits_stop.
  - unfold pretty, pretty_positive, pretty, pretty_N.
    destruct (decide (N.pos p = 0%N)) as [|_]; [done|].
    destruct (parse_radix10_pretty_N_go false (N.pos p) rest eq_refl Hrest)
      as (Hv & c & r & Heq & [d Hd]).
    unfold parseInt. rewrite Heq in *. simpl.
    destruct (digit_not_blank c d Hd) as (-> & -> & ->). exact Hv.
  - unfold pretty, pretty_positive, pretty, pretty_N.
    destruct (decide (N.pos p = 0%N)) as [|_]; [done|].
    destruct (parse_radix10_pretty_N_go true (N.pos p) rest eq_refl Hrest)
      as (Hv & _).
    unfold parseInt. simpl. exact Hv.
Qed.

Lemma parseInt_not_numeric text : not_numeric text -> parseInt text = NaN.
Proof.
  destruct text as [|c r]; [done|]. intros (Hb & Hm & Hp & Hd).
  unfold parseInt. simpl. rewrite Hb.
  apply Ascii.eqb_neq in Hm, Hp. rewrite Hm, Hp.
  unfold parse_radix10. by rewrite Hd.
Qed.

(** X17: the total of a listing is read off the first row of the count
    answer alone, when that answer is not null (on the answer null reading
    it throws a TypeError): it is 0 when there is no first row or no total
    in it; it is the double nearest to the integer whose decimal digits the
    total starts with, sign included, whatever follows the digits, which is
    that integer itself up to 2^53; and it is NaN when the total starts
    with neither blank, sign nor digit, in which case the listing reports
    no further page. *)
Theorem count_total_reads_first_row `{Host} (countResult : option SparqlResult) :
  match countResult with
  | None => count_total countResult = inl (Exn "TypeError" null_results_message)
  | Some _ =>
      count_total countResult
      = inr (parseInt (default "0" (spelled_total countResult)))
      /\ (spelled_total countResult = None -> count_total countResult = inr (Int 0))
      /\ (forall z rest,
            spelled_total countResult = Some (pretty z +:+ rest) ->
            no_digit_head rest ->
            count_total countResult = inr (to_Number z)
            /\ (safe z -> count_total countResult = inr (Int z)))
      /\ (forall text,
            spelled_total countResult = Some text -> not_numeric text ->
            count_total countResult = inr NaN
            /\ forall count skip page,
                 has_more (make_pagination NaN count skip page) = false
                 /\ next_offset (make_pagination NaN count skip page) = None)
  end.
Proof.
  destruct countResult as [body|]; [|reflexivity].
  assert (Hdef : count_total (Some body)
                 = inr (parseInt (default "0" (spelled_total (Some body)))))
    by reflexivity.
  split; [done|]. split; [|split].
  - intros Hnone. by rewrite Hdef, Hnone.
  - intros z rest Hsome Hrest. rewrite Hdef, Hsome. simpl default.
    rewrite parseInt_pretty by done. split; [done|].
    intros Hsafe. by rewrite to_Number_safe.
  - intros text Hsome Hnot. split.
    + rewrite Hdef, Hsome. simpl default. by rewrite parseInt_not_numeric.
    + intros count skip page. unfold make_pagination. simpl.
      by destruct (to_Number (skip + page)).
Qed.

(** The doubles around 2^53: the odd integers above it are not doubles. *)
Example parseInt_rounds :
  parseInt "9007199254740993" = Int 9007199254740992
  /\ parseInt "9007199254740995" = Int 9007199254740996
  /\ parseInt "-9007199254740993" = Int (-9007199254740992)
  /\ parseInt "100000000000000000000000" = Int 99999999999999991611392.
Proof. repeat split; vm_compute; reflexivity. Qed.

End Totals.

(** X18: the keyword filter of list_municipalities and list_provinces
    is empty without a keyword and with an empty one alike; with any other
    keyword it is one FILTER whose literal is read to the quote of the
    template and stands for the keyword, so a keyword cannot leave its
    literal. *)
Theorem keywordFilter_closes (rest : string) :
  keywordFilter None = ""
  /\ keywordFilter (Some "") = ""
  /\ forall keyword, keyword <> "" ->
       exists literal,
         keywordFilter (Some keyword)
         = "FILTER(REGEX(?name, " +:+ QUOTE +:+ literal +:+ QUOTE
           +:+ ", " +:+ QUOTE +:+ "i" +:+ QUOTE +:+ "))"
         /\ read_string_literal (literal +:+ QUOTE +:+ rest) = Some (keyword, rest).
Proof.
  split; [done|]. split; [done|]. intros keyword Hne.
  exists (sanitizeSparqlString keyword). split.
  - unfold keywordFilter. by destruct keyword.
  - rewrite sanitize_by_unit. apply read_escaped.
Qed.

Section OneLine.

Lemma count_units_app p a b :
  count_units p (a +:+ b) = (count_units p a + count_units p b)%nat.
Proof. induction a as [|x a IH]; simpl; [done|]. rewrite IH. lia. Qed.

Lemma one_line_app a b : one_line a -> one_line b -> one_line (a +:+ b).
Proof. unfold one_line. rewrite count_units_app. lia. Qed.

Lemma quote_unit_one_line c : one_line (Json.quote_unit c).
Proof. destruct c as [[] [] [] [] [] [] [] []]; reflexivity. Qed.

Lemma quote_one_line s : one_line (Json.quote s).
Proof.
  unfold Json.quote. apply (one_line_app (String dquote "")); [done|].
  apply one_line_app; [|done].
  induction s as [|c s IH]; simpl; [done|].
  apply one_line_app; [apply quote_unit_one_line|done].
Qed.

Lemma all_digits_one_line s : all_digits s -> one_line s.
Proof.
  induction s as [|c s IH]; simpl; [done|]. intros [[d Hd] Hs].
  unfold one_line. simpl.
  assert (Ascii.eqb c LF = false) as ->.
  { destruct (Ascii.eqb_spec c LF) as [->|]; [discriminate|done]. }
  by apply IH.
Qed.

Lemma pretty_N_go_one_line x : (0 < x)%N -> one_line (pretty_N_go x "").
Proof.
  intros Hx.
  destruct (pretty_N_go_digits x "" Hx) as (c & d & ds & -> & Hc & _ & Hds).
  apply (all_digits_one_line (String c (ds +:+ ""))). simpl.
  split; [by eexists|]. by apply all_digits_app.
Qed.

Lemma number_one_line z : one_line (Json.number_to_string z).
Proof.
  unfold Json.number_to_string, pretty, pretty_Z. destruct z as [|p|p]; [done| |].
  - unfold pretty, pretty_positive, pretty, pretty_N.
    destruct (decide (N.pos p = 0%N)) as [|_]; [done|].
    by apply pretty_N_go_one_line.
  - unfold pretty, pretty_positive, pretty, pretty_N.
    destruct (decide (N.pos p = 0%N)) as [|_]; [done|].
    apply (one_line_app "-"); [done|]. by apply pretty_N_go_one_line.
Qed.

Lemma join_one_line l : Forall one_line l -> one_line (Json.join "," l).
Proof.
  induction l as [|x l IH]; [done|]. intros Hl.
  apply Forall_cons in Hl as [Hx Hl]. destruct l as [|y l]; [done|].
  change (Json.join "," (x :: y :: l)) with (x +:+ "," +:+ Json.join "," (y :: l)).
  apply one_line_app; [done|]. apply (one_line_app ","); [done|]. by apply IH.
Qed.

Lemma stringify_one_line v t : Json.stringify v = Some t -> one_line t.
Proof.
  revert t. induction v as [| |b|n|s|vs IH|kvs IH] using jsval_induction; intros t.
  - done.
  - by intros [= <-].
  - destruct b; by intros [= <-].
  - destruct n as [|z|negative]; simpl; intros [= <-];
      [done|apply number_one_line|done].
  - simpl. intros [= <-]. apply quote_one_line.
  - rewrite stringify_JArr. intros [= <-].
    apply (one_line_app "["); [done|]. apply one_line_app; [|done].
    apply join_one_line. unfold Json.stringify_elements.
    induction IH as [|x l Hx _ IHl]; simpl; [constructor|].
    constructor; [|done].
    destruct (Json.stringify x) as [tx|]; simpl; [by apply Hx|done].
  - rewrite stringify_JObj. intros [= <-].
    apply (one_line_app "{"); [done|]. apply one_line_app; [|done].
    apply join_one_line.
    induction IH as [|[k x] l Hx _ IHl]; simpl; [constructor|].
    simpl in Hx. destruct (Json.stringify x) as [tx|]; [|done].
    constructor; [|done].
    apply one_line_app; [apply quote_one_line|].
    apply (one_line_app ":"); [done|]. by apply Hx.
Qed.

End OneLine.

Section PreviewFacts.

Lemma split_nonempty sep s : Preview.split sep s <> [].
Proof.
  induction s as [|c s IH]; simpl; [done|].
  destruct (Ascii.eqb c sep); [done|]. by destruct (Preview.split sep s).
Qed.

Lemma join_cons sep x l :
  l <> [] -> Json.join sep (x :: l) = x +:+ sep +:+ Json.join sep l.
Proof. by destruct l. Qed.

Lemma split_join s : Json.join (String LF "") (Preview.split LF s) = s.
Proof.
  induction s as [|c s IH]; simpl; [done|].
  destruct (Ascii.eqb_spec c LF) as [->|Hne].
  - rewrite join_cons by apply split_nonempty. simpl. by rewrite IH.
  - pose proof (split_nonempty LF s) as Hn.
    destruct (Preview.split LF s) as [|piece pieces]; [done|].
    destruct pieces as [|q pieces]; simpl in *; by rewrite <- IH.
Qed.

Lemma split_one_line s : Forall one_line (Preview.split LF s).
Proof.
  induction s as [|c s IH]; simpl; [by repeat constructor|].
  destruct (Ascii.eqb c LF) eqn:E; [by constructor|].
  pose proof (split_nonempty LF s) as Hn.
  destruct (Preview.split LF s) as [|piece pieces]; [done|].
  apply Forall_cons in IH as [Hp Hps]. constructor; [|done].
  unfold one_line in *. simpl. by rewrite E.
Qed.

(** The first [k] of some lines, joined: a part of the joined lines that
    stops before a line feed, with [k - 1] line feeds at most. *)
Lemma join_firstn (k : nat) (lines : list string) :
  (0 < k)%nat -> lines <> [] -> Forall one_line lines ->
  exists cut,
    Json.join (String LF "") lines
    = Json.join (String LF "") (firstn k lines) +:+ cut
    /\ (cut = "" \/ exists more, cut = String LF more)
    /\ (count_units (fun c => Ascii.eqb c LF)
          (Json.join (String LF "") (firstn k lines)) < k)%nat
    /\ ((List.length lines <= k)%nat -> cut = "").
Proof.
  revert k. induction lines as [|x lines IH]; intros k Hk Hne Hl; [done|].
  apply Forall_cons in Hl as [Hx Hl].
  destruct k as [|k]; [lia|]. simpl firstn.
  destruct lines as [|y lines].
  { exists "". rewrite firstn_nil. simpl. rewrite string_app_nil_r.
    split; [done|]. split; [by left|]. split; [|done].
    unfold one_line in Hx. lia. }
  destruct k as [|k].
  { exists (String LF "" +:+ Json.join (String LF "") (y :: lines)).
    rewrite join_cons by done. simpl firstn.
    split; [done|]. split; [right; by eexists|]. split.
    - unfold one_line in Hx. simpl Json.join. lia.
    - simpl. lia. }
  destruct (IH (S k)) as (cut & Heq & Hcut & Hcount & Hall); [lia|done|done|].
  exists cut. rewrite join_cons by done. rewrite Heq.
  rewrite join_cons by done.
  rewrite !string_app_assoc. split; [done|]. split; [done|]. split.
  - rewrite !count_units_app. unfold one_line in Hx. simpl in *. lia.
  - simpl. intros Hlen. apply Hall. simpl. lia.
Qed.

(** X19: outside the JSON branch, the preview of a distribution is the
    head of the text up to, and without, its fifteenth line feed: it is a
    prefix of the text with fourteen line feeds at most, what is cut starts
    with a line feed, and a text of fifteen lines or fewer is previewed
    whole. *)
Theorem preview_keeps_first_lines (json_preview : string -> string)
  (url contentType text : string) :
  Preview.includes contentType "json" || Preview.endsWith url ".json" = false ->
  exists cut,
    text = preview_of json_preview url contentType text +:+ cut
    /\ (cut = "" \/ exists more, cut = String LF more)
    /\ (count_units (fun c => Ascii.eqb c LF)
          (preview_of json_preview url contentType text) <= 14)%nat
    /\ ((count_units (fun c => Ascii.eqb c LF) text <= 14)%nat -> cut = "").
Proof.
  intros Hkind. unfold preview_of. rewrite Hkind.
  destruct (join_firstn 15 (Preview.split LF text)) as (cut & Heq & Hcut & Hcount & Hall).
  { lia. } { apply split_nonempty. } { apply split_one_line. }
  rewrite split_join in Heq. exists cut. split; [done|]. split; [done|].
  split; [lia|]. intros Hfew.
  destruct Hcut as [->|[more ->]]; [done|]. exfalso.
  rewrite Heq in Hfew. rewrite count_units_app in Hfew. simpl in Hfew.
  assert (List.length (Preview.split LF text) <= 15 -> False)%nat as Hlong.
  { intros Hlen. by specialize (Hall Hlen). }
  assert (forall (l : list string), Forall one_line l -> (15 < List.length l)%nat ->
            count_units (fun c => Ascii.eqb c LF)
              (Json.join (String LF "") (firstn 15 l)) = 14%nat) as Hfull.
  { clear. intros l Hl Hlen.
    do 16 (destruct l as [|? l]; [simpl in Hlen; lia|]).
    repeat (apply Forall_cons in Hl as [? Hl]).
    unfold one_line in *. simpl firstn.
    repeat (rewrite join_cons by done). change (Json.join (String LF "") [s13]) with s13.
    rewrite !count_units_app. simpl. lia. }
  rewrite Hfull in Hfew; [lia|apply split_one_line|lia].
Qed.

Lemma preview_keeps_first_lines_witness :
  exists cut,
    twenty_lines
    = preview_of (fun text => text) "http://example.org/file.csv" "text/csv"
        twenty_lines +:+ cut
    /\ (cut = "" \/ exists more, cut = String LF more)
    /\ (count_units (fun c => Ascii.eqb c LF)
          (preview_of (fun text => text) "http://example.org/file.csv" "text/csv"
             twenty_lines) <= 14)%nat
    /\ ((count_units (fun c => Ascii.eqb c LF) twenty_lines <= 14)%nat -> cut = "").
Proof.
  apply (preview_keeps_first_lines (fun text => text)
           "http://example.org/file.csv" "text/csv" twenty_lines).
  reflexivity.
Defined.

End PreviewFacts.

(** X20: the deadline of preview_distribution covers the wait for the
    response, not for its text. With no response within 10,000 ms the tool
    answers at that instant with the error of the abort; a transport error
    within the deadline is answered as it comes; a response with a failure
    status answers with the error Failed to fetch distribution, its status
    and status text; and once a successful response has come the text is
    awaited without limit: the tool is pending while the text is. *)
Theorem preview_deadline_covers_the_headers `{Host} (web : Preview.Web)
  (json_preview : string -> string) (url : string) :
  (match web url with
   | Preview.Arrives t _ => (Z.to_nat 10000 < t)%nat
   | Preview.Fails t _ => (Z.to_nat 10000 < t)%nat
   | Preview.Never => True
   end ->
   preview_distribution web json_preview url
   = Fulfilled (Z.to_nat 10000) (failure_of AbortError))
  /\ (forall t e, web url = Preview.Fails t e -> (t <= Z.to_nat 10000)%nat ->
        preview_distribution web json_preview url = Fulfilled t (failure_of e))
  /\ (forall t d, web url = Preview.Arrives t d -> (t <= Z.to_nat 10000)%nat ->
        (Preview.ok d = false ->
         preview_distribution web json_preview url
         = Fulfilled t
             (failure_of (Error ("Failed to fetch distribution: "
                                 +:+ pretty (Preview.status d) +:+ " "
                                 +:+ Preview.statusText d))))
        /\ (Preview.ok d = true ->
            match Preview.text d with
            | Pending => preview_distribution web json_preview url = Pending
            | Rejected t' e =>
                preview_distribution web json_preview url = Fulfilled t' (failure_of e)
            | Fulfilled t' _ =>
                exists done,
                  preview_distribution web json_preview url = Fulfilled t' done
            end)).
Proof.
  unfold preview_distribution, preview_distribution_handler, Preview.fetch.
  split; [|split].
  - destruct (web url) as [t d|t e|]; [| |done].
    + intros Ht. apply Nat.leb_gt in Ht. by rewrite Ht.
    + intros Ht. apply Nat.leb_gt in Ht. by rewrite Ht.
  - intros t e -> Ht. apply Nat.leb_le in Ht. by rewrite Ht.
  - intros t d -> Ht. apply Nat.leb_le in Ht. rewrite Ht. split.
    + intros ->. simpl. unfold failure_of. simpl.
      by rewrite !string_app_nil_r.
    + intros ->. simpl. destruct (Preview.text d); [by eexists|done..].
Qed.

Example preview_of_twenty_lines :
  preview_distribution (H := example_host) (fun _ => csv_download 3 twenty_lines)
    (fun text => text) "http://example.org/file.csv"
  = Fulfilled 8
      {| logged := ["Success"];
         response :=
           {| content :=
                [serialized ("Preview of http://example.org/file.csv:

" +:+ Json.join (String LF "") (repeat "a,b" 15))];
              isError := false |} |}.
Proof. vm_compute. reflexivity. Qed.

Section RoundTrip.
Import Json.

#[local] Arguments is_ws : simpl never.
#[local] Arguments digit_of : simpl never.

Lemma stringify_None v : stringify v = None -> v = JUndefined.
Proof.
  destruct v as [| |b|n|s|vs|kvs]; try done.
  - by destruct b.
  - by destruct n.
Qed.

(** The digits of a positive number: the first is not zero, and the
    digits after it complete it to the number. *)
Lemma pretty_N_go_value x rest :
  (0 < x)%N -> no_digit_head rest ->
  exists c d r,
    pretty_N_go x "" +:+ rest = String c r
    /\ digit_of c = Some d /\ d <> 0
    /\ parse_digits d r = (Z.of_N x, rest).
Proof.
  intros Hx Hrest.
  destruct (pretty_N_go_digits x "" Hx) as (c & d & ds & Heq & Hc & Hd & _).
  destruct (parse_digits_pretty_N_go x rest 0 Hx) as (k & Hk & _).
  rewrite (pretty_N_go_app x rest) in Hk. rewrite Heq in Hk |- *.
  change (String c (ds +:+ "") +:+ rest) with (String c ((ds +:+ "") +:+ rest)) in *.
  cbn [parse_digits] in Hk. rewrite Hc in Hk.
  replace (10 * 0 + d) with d in Hk by lia.
  replace (0 * 10 ^ k + Z.of_N x) with (Z.of_N x) in Hk by lia.
  exists c, d. eexists. split; [reflexivity|]. split; [done|]. split; [done|].
  rewrite Hk. by apply parse_digits_stop.
Qed.

Lemma parse_nat_pretty_value x rest :
  (0 < x)%N -> no_digit_head rest ->
  parse_nat (pretty_N_go x "" +:+ rest) = Some (Z.of_N x, rest)
  /\ exists c r, pretty_N_go x "" +:+ rest = String c r /\ is_Some (digit_of c).
Proof.
  intros Hx Hrest.
  destruct (pretty_N_go_value x rest Hx Hrest) as (c & d & r & -> & Hc & Hd & Hv).
  split; [|exists c, r; split; [done|by eexists]].
  unfold parse_nat. rewrite Hc. destruct d; [done| |]; by rewrite Hv.
Qed.

Lemma parse_number_value z rest :
  no_digit_head rest ->
  parse_number (number_to_string z +:+ rest) = Some (JNum (Int z), rest).
Proof.
  intros Hrest. unfold number_to_string, pretty, pretty_Z.
  destruct z as [|p|p].
  - change (parse_number (String "0" rest) = Some (JNum (Int 0), rest)).
    reflexivity.
  - unfold pretty, pretty_positive, pretty, pretty_N.
    destruct (decide (N.pos p = 0%N)) as [|_]; [done|].
    destruct (parse_nat_pretty_value (N.pos p) rest eq_refl Hrest)
      as (Hv & c & r & Heq & [d Hd]).
    unfold parse_number. rewrite Heq in *.
    destruct (digit_not_blank c d Hd) as (_ & -> & _). by rewrite Hv.
  - unfold pretty, pretty_positive, pretty, pretty_N.
    destruct (decide (N.pos p = 0%N)) as [|_]; [done|].
    destruct (parse_nat_pretty_value (N.pos p) rest eq_refl Hrest) as (Hv & _).
    unfold parse_number. simpl. by rewrite Hv.
Qed.

Lemma default_null_revives v :
  revives v ->
  forall rest fuel, no_digit_head rest ->
    (2 * String.length (default "null" (stringify v)) < fuel)%nat ->
    parse_value fuel (default "null" (stringify v) +:+ rest) = Some (revive v, rest).
Proof.
  intros IH rest fuel Hrest Hfuel.
  destruct (stringify v) as [t|] eqn:Et; [by apply IH|].
  apply stringify_None in Et as ->.
  simpl in *. destruct fuel as [|fuel]; [lia|]. done.
Qed.

Lemma elements_revive vs rest :
  vs <> [] -> Forall revives vs ->
  forall fuel,
    (2 * String.length (join "," (stringify_elements vs)) + 1 < fuel)%nat ->
    parse_elements fuel (join "," (stringify_elements vs) +:+ String "]" rest)
    = Some (map revive vs, rest).
Proof.
  intros Hne Hall. induction Hall as [|v vs Hv Hall IH]; [done|]. clear Hne.
  intros fuel Hfuel. destruct fuel as [|fuel]; [lia|].
  pose proof (default_null_revives v Hv) as Hd.
  destruct vs as [|v2 vs].
  - simpl in *.
    pose proof (Hd (String "]" rest) fuel ltac:(done) ltac:(lia)) as Hv'.
    unfold parse_elements_with. rewrite Hv'. done.
  - assert (Hts : exists t2 ts, stringify_elements (v2 :: vs) = t2 :: ts)
      by (by eexists _, _).
    destruct Hts as (t2 & ts & Hts).
    change (stringify_elements (v :: v2 :: vs))
      with (default "null" (stringify v) :: stringify_elements (v2 :: vs)) in *.
    rewrite Hts in *.
    rewrite join_cons2_length in Hfuel.
    change (join "," (?x :: t2 :: ts)) with (x +:+ "," +:+ join "," (t2 :: ts)).
    set (tail := join "," (t2 :: ts)) in *.
    rewrite !string_app_assoc.
    pose proof (IH ltac:(done) fuel ltac:(simpl in *; lia)) as Hvs'.
    pose proof (Hd ("," +:+ tail +:+ String "]" rest) fuel ltac:(done) ltac:(lia)) as Hv'.
    simpl. simpl in Hv'. unfold parse_elements_with. rewrite Hv'. simpl.
    assert (Hskip : skip_ws (tail +:+ String "]" rest) = tail +:+ String "]" rest).
    { destruct fuel as [|fuel']; [done|]. simpl in Hvs'.
      unfold parse_elements_with in Hvs'.
      destruct (parse_value fuel' (tail +:+ String "]" rest)) as [x|] eqn:E; [|done].
      by apply parse_value_skip in E. }
    rewrite Hskip, Hvs'. done.
Qed.

Lemma members_revive kvs rest :
  stringify_members kvs <> [] ->
  Forall (fun kv => revives (snd kv)) kvs ->
  forall fuel,
    (2 * String.length (join "," (stringify_members kvs)) + 1 < fuel)%nat ->
    parse_members fuel (join "," (stringify_members kvs) +:+ String "}" rest)
    = Some (revive_members revive kvs, rest).
Proof.
  intros Hne Hall. induction Hall as [|[k v] kvs Hv Hall IH]; [done|].
  simpl in Hne, Hv |- *.
  destruct (stringify v) as [t|] eqn:Et.
  2:{ apply stringify_None in Et as ->. by apply IH. }
  assert (Hkeep : match v with
                  | JUndefined => revive_members revive kvs
                  | _ => (k, revive v) :: revive_members revive kvs
                  end = (k, revive v) :: revive_members revive kvs).
  { by destruct v. }
  rewrite Hkeep.
  clear Hne. intros fuel Hfuel. destruct fuel as [|fuel]; [lia|].
  specialize (Hv t Et).
  destruct (stringify_members kvs) as [|m ms] eqn:Ems.
  - assert (Hnone : revive_members revive kvs = []).
    { clear -Ems. induction kvs as [|[k' x] kvs IH]; [done|]. simpl in *.
      destruct (stringify x) eqn:Ex; [done|].
      apply stringify_None in Ex as ->. by apply IH. }
    rewrite Hnone.
    simpl in Hfuel |- *. unfold quote in *. simpl in Hfuel |- *.
    rewrite !string_app_assoc. simpl.
    rewrite !string_app_length in Hfuel. simpl in Hfuel.
    pose proof (Hv (String "}" rest) fuel ltac:(done) ltac:(lia)) as Hv'.
    rewrite parse_string_quoted. simpl.
    rewrite (parse_value_skip _ _ _ Hv'), Hv'. done.
  - rewrite join_cons2_length in Hfuel.
    change (join "," (?x :: m :: ms)) with (x +:+ "," +:+ join "," (m :: ms)).
    set (tail := join "," (m :: ms)) in *.
    pose proof (IH ltac:(done) fuel ltac:(simpl in *; lia)) as Hkvs'.
    unfold quote in *. simpl in Hfuel |- *.
    rewrite !string_app_assoc. simpl. rewrite ?string_app_assoc.
    rewrite !string_app_length in Hfuel. simpl in Hfuel.
    pose proof (Hv ("," +:+ tail +:+ String "}" rest) fuel ltac:(done) ltac:(lia)) as Hv'.
    rewrite parse_string_quoted. simpl. simpl in Hv'.
    rewrite (parse_value_skip _ _ _ Hv'), Hv'. simpl.
    assert (Hskip : skip_ws (tail +:+ String "}" rest) = tail +:+ String "}" rest).
    { destruct fuel as [|fuel']; [done|]. simpl in Hkvs'.
      unfold parse_members_with in Hkvs'.
      destruct (tail +:+ String "}" rest) as [|c r0]; [done|].
      destruct (Ascii.eqb c dquote) eqn:E; [|done].
      apply Ascii.eqb_eq in E as ->. done. }
    rewrite Hskip, Hkvs'. done.
Qed.

Lemma stringify_revives v : revives v.
Proof.
  induction v as [| |b|n|s|vs IH|kvs IH] using jsval_induction;
    intros t Ht rest fuel Hrest Hfuel;
    (destruct fuel as [|fuel]; [lia|]).
  - done.
  - by injection Ht as <-.
  - destruct b; by injection Ht as <-.
  - destruct n as [|z|negative]; injection Ht as <-; [done| |done].
    pose proof (parse_number_value z rest Hrest) as Hv.
    simpl. unfold parse_value_with.
    destruct (number_to_string z +:+ rest) as [|c r] eqn:E; [done|].
    unfold parse_number in Hv.
    destruct (Ascii.eqb c "n") eqn:E1.
    { apply Ascii.eqb_eq in E1 as ->. done. }
    destruct (Ascii.eqb c "t") eqn:E2.
    { apply Ascii.eqb_eq in E2 as ->. done. }
    destruct (Ascii.eqb c "f") eqn:E3.
    { apply Ascii.eqb_eq in E3 as ->. done. }
    destruct (Ascii.eqb c dquote) eqn:E4.
    { apply Ascii.eqb_eq in E4 as ->. done. }
    destruct (Ascii.eqb c "[") eqn:E5.
    { apply Ascii.eqb_eq in E5 as ->. done. }
    destruct (Ascii.eqb c "{") eqn:E6.
    { apply Ascii.eqb_eq in E6 as ->. done. }
    exact Hv.
  - injection Ht as <-. unfold quote. simpl. unfold parse_value_with. simpl.
    rewrite string_app_assoc. simpl. by rewrite parse_string_quoted.
  - rewrite stringify_JArr in Ht. injection Ht as <-.
    simpl in Hfuel. rewrite !string_app_length in Hfuel. simpl in Hfuel.
    simpl. rewrite !string_app_assoc. simpl.
    destruct vs as [|v vs]; [reflexivity|].
    pose proof (elements_revive (v :: vs) rest ltac:(done) IH fuel ltac:(lia)) as Hvs'.
    set (text := join "," (stringify_elements (v :: vs)) +:+ String "]" rest) in *.
    clearbody text.
    assert (Hhead : exists c r,
               text = String c r /\ is_ws c = false /\ Ascii.eqb c "]" = false).
    { destruct fuel as [|fuel']; [done|]. simpl in Hvs'.
      unfold parse_elements_with in Hvs'.
      destruct (parse_value fuel' text) as [x|] eqn:E; [|done].
      destruct text as [|c r].
      { destruct (parse_empty fuel') as (He & _). congruence. }
      exists c, r. split; [done|]. by apply parse_value_head in E. }
    destruct Hhead as (c & r & Heq & Hws & Hbr).
    unfold parse_value_with. rewrite Heq in *. simpl. rewrite Hws, Hbr, Hvs'.
    done.
  - rewrite stringify_JObj in Ht. injection Ht as <-.
    simpl in Hfuel. rewrite !string_app_length in Hfuel. simpl in Hfuel.
    simpl. rewrite !string_app_assoc. simpl.
    destruct (stringify_members kvs) as [|m ms] eqn:Ems.
    { assert (Hnone : revive_members revive kvs = []).
      { clear -Ems. induction kvs as [|[k' x] kvs IH]; [done|]. simpl in *.
        destruct (stringify x) eqn:Ex; [done|].
        apply stringify_None in Ex as ->. by apply IH. }
      rewrite Hnone. reflexivity. }
    pose proof (members_revive kvs rest) as Hm. rewrite Ems in Hm.
    pose proof (Hm ltac:(done) IH fuel ltac:(lia)) as Hkvs'.
    set (text := join "," (m :: ms) +:+ String "}" rest) in *.
    clearbody text.
    assert (Hhead : exists r, text = String dquote r).
    { destruct fuel as [|fuel']; [done|]. simpl in Hkvs'.
      unfold parse_members_with in Hkvs'.
      destruct text as [|c r]; [done|].
      destruct (Ascii.eqb c dquote) eqn:E; [|done].
      apply Ascii.eqb_eq in E as ->. by eexists. }
    destruct Hhead as (r & Heq).
    unfold parse_value_with. rewrite Heq in *. simpl. rewrite Hkvs'.
    done.
Qed.

(** What [stringify] writes, [parse] reads back as the revived value. *)
Lemma parse_stringify v t : stringify v = Some t -> parse t = Some (revive v).
Proof.
  intros Ht.
  pose proof (stringify_revives v t Ht "" (fuel_for t) I) as Hv.
  rewrite string_app_nil_r in Hv. unfold parse.
  rewrite (parse_value_skip _ _ _ (Hv ltac:(unfold fuel_for; lia))).
  by rewrite Hv by (unfold fuel_for; lia).
Qed.

End RoundTrip.

Section Decoding.

Lemma fold_obj_set_fresh {V : Type} (kvs acc : list (string * V)) :
  NoDup (map fst (acc ++ kvs)) ->
  fold_left (fun o kv => obj_set (fst kv) (snd kv) o) kvs acc = acc ++ kvs.
Proof.
  revert acc. induction kvs as [|[k v] kvs IH]; intros acc Hnd; simpl.
  { by rewrite app_nil_r. }
  rewrite obj_set_fresh.
  - rewrite IH; rewrite <- app_assoc; done.
  - rewrite map_app in Hnd. apply NoDup_app in Hnd as (_ & Hfresh & _).
    intros Hin. apply (Hfresh k Hin). simpl. apply list_elem_of_here.
Qed.

Lemma revive_row (row : list (string * string)) :
  is_object row ->
  revive (JObj (map (fun kv => (fst kv, JStr (snd kv))) row))
  = JObj (map (fun kv => (fst kv, JStr (snd kv))) row).
Proof.
  intros Hobj. simpl. f_equal.
  assert (Hm : revive_members revive (map (fun kv => (fst kv, JStr (snd kv))) row)
               = map (fun kv => (fst kv, JStr (snd kv))) row).
  { clear. induction row as [|[k v] row IH]; simpl; [done|]. by rewrite IH. }
  rewrite Hm. apply (fold_obj_set_fresh _ []). simpl.
  rewrite map_map. exact Hobj.
Qed.

Lemma simplify_binding_is_object (binding : SparqlBinding) :
  is_object (simplify_binding binding).
Proof.
  unfold simplify_binding.
  assert (forall keys (row : list (string * string)),
            is_object row ->
            is_object (fold_left
                         (fun row key =>
                            match obj_get key binding with
                            | Some bindingValue => assign key (value bindingValue) row
                            | None => row
                            end) keys row)) as Hfold.
  { induction keys as [|key keys IH]; intros row Hrow; simpl; [done|].
    apply IH. destruct (obj_get key binding); [|done].
    unfold assign. destruct (String.eqb key "__proto__"); [done|].
    by apply is_object_set. }
  apply Hfold. apply NoDup_nil_2.
Qed.

Lemma revive_cells (cells : list (option string)) :
  map revive (map cell_to_value cells) = map cell_to_value cells.
Proof. induction cells as [|[c|] cells IH]; simpl; by rewrite ?IH. Qed.

Lemma revive_table headers rows :
  revive (tabular_to_value headers rows) = tabular_to_value headers rows.
Proof.
  unfold tabular_to_value. cbn [revive revive_members]. simpl fold_left.
  f_equal. f_equal.
  - f_equal. f_equal. induction headers as [|h headers IH]; simpl; by rewrite ?IH.
  - f_equal. f_equal. f_equal.
    induction rows as [|r rows IH]; simpl; [done|].
    by rewrite revive_cells, IH.
Qed.

Lemma revive_compressed (result : option SparqlResult) :
  revive (to_value (compressSparqlResult result))
  = to_value (compressSparqlResult result).
Proof.
  unfold compressSparqlResult.
  destruct (result_bindings result) as [rows|]; [|done].
  destruct (Z.of_nat (List.length rows) =? 0); [done|].
  destruct (5 <? Z.of_nat (List.length rows)).
  - apply revive_table.
  - unfold to_value, CompressedResult_to_value. cbn [revive]. f_equal.
    rewrite !map_map. apply map_ext. intros binding.
    apply revive_row, simplify_binding_is_object.
Qed.

(** X21: the text of a success within the limit decodes to the data:
    [JSON.parse] of the text is the value of the data, with null for NaN
    and for an undefined element, and without the undefined properties. *)
Theorem success_text_decodes `{Host} {T : Type} `{ToValue T}
  (data : T) (rowCount : option Z) (jsonText : string) :
  Json.stringify (to_value data) = Some jsonText ->
  JsString.length jsonText <= CHARACTER_LIMIT ->
  response (executeTool_settled (ToolSuccess data rowCount))
  = {| content := [jsonText]; isError := false |}
  /\ Json.parse jsonText = Some (revive (to_value data)).
Proof.
  intros Hjson Hlen.
  destruct (untruncated_output_is_json data rowCount jsonText Hjson Hlen) as [-> _].
  split; [done|]. by apply parse_stringify.
Qed.

Lemma success_text_decodes_witness :
  response (executeTool_settled (H := example_host)
              (ToolSuccess (JArr [JNum NaN; JUndefined; JObj [("a", JUndefined)]])
                 None))
  = {| content := ["[null,null,{}]"]; isError := false |}
  /\ Json.parse "[null,null,{}]" = Some (JArr [JNull; JNull; JObj []]).
Proof.
  assert (Hlen : JsString.length "[null,null,{}]" <= CHARACTER_LIMIT).
  { vm_compute. discriminate. }
  exact (success_text_decodes (H := example_host)
           (JArr [JNum NaN; JUndefined; JObj [("a", JUndefined)]]) None
           "[null,null,{}]" eq_refl Hlen).
Defined.

(** X22: what a query tool returns within the limit, for an answer
    that is not null, decodes to exactly the compressed rows: the text of
    [executeSparqlTool] parses to the value of [compressSparqlResult] of
    the answer, nothing lost and nothing merged (a compressed row never has
    a key twice), and the summary counts the rows of the answer. *)
Theorem query_rows_decode `{Host} (net : Network) (query : string)
  (t : nat) (body : SparqlResult) :
  executeSparql net query = Fulfilled t (Some body) ->
  JsString.length (serialized (compressSparqlResult (Some body))) <= CHARACTER_LIMIT ->
  executeSparqlTool net query
  = Fulfilled t
      {| logged := [success_summary (Some (guarded_row_count (Some body))) false];
         response := {| content := [serialized (compressSparqlResult (Some body))];
                        isError := false |} |}
  /\ Json.parse (serialized (compressSparqlResult (Some body)))
     = Some (to_value (compressSparqlResult (Some body))).
Proof.
  intros Hv Hlen.
  pose proof (serialized_Some (compressSparqlResult (Some body))
                (compressed_stringifies _)) as Hjson.
  rewrite (executeSparqlTool_fulfilled net query t body Hv).
  destruct (untruncated_output_is_json (compressSparqlResult (Some body))
              (Some (guarded_row_count (Some body))) _ Hjson Hlen) as [-> _].
  split; [done|].
  rewrite (parse_stringify _ _ Hjson). by rewrite revive_compressed.
Qed.

Lemma query_rows_decode_witness :
  executeSparqlTool (H := example_host) (fun _ _ => answering 3 rome_twice) "q"
  = Fulfilled 3
      {| logged := ["Success, 2 rows"];
         response := {| content := [serialized (compressSparqlResult rome_twice)];
                        isError := false |} |}
  /\ Json.parse (serialized (compressSparqlResult rome_twice))
     = Some (JArr [JObj [("notation", JStr "060"); ("name", JStr "Roma")];
                   JObj [("notation", JStr "060"); ("name", JStr "Roma Capitale")]]).
Proof.
  assert (Hlen : JsString.length (serialized (compressSparqlResult rome_twice))
                 <= CHARACTER_LIMIT).
  { vm_compute. discriminate. }
  exact (query_rows_decode (H := example_host)
           (fun _ _ => answering 3 rome_twice) "q" 3
           {| head := Some {| vars := Some ["notation"; "name"] |};
              results := Some {| bindings := result_bindings rome_twice |} |}
           eq_refl Hlen).
Defined.

End Decoding.

(** X23: [logUsage] appends one line to the log and never fails: a
    refused write leaves the file as it was; otherwise the file grows by the
    serialised entry and a line feed, the entry itself holding no line feed
    (those of a query argument are escaped), and the entry decodes to the
    timestamp, the tool, the arguments and the summary that were logged. *)
Theorem logUsage_appends_one_line (timestamp toolName : string)
  (args : list (string * jsval)) (resultSummary : string) (file : option string) :
  (forall e, logUsage (Some e) timestamp toolName args resultSummary file = file)
  /\ exists line,
       logUsage None timestamp toolName args resultSummary file
       = Some (default "" file +:+ line +:+ String LF "")
       /\ one_line line
       /\ Json.parse line
          = Some (JObj [("timestamp", JStr timestamp); ("tool", JStr toolName);
                        ("args", revive (JObj args));
                        ("summary", JStr resultSummary)]).
Proof.
  split; [done|].
  destruct (Json.stringify (log_entry timestamp toolName args resultSummary))
    as [line|] eqn:Hline; [|done].
  exists line. unfold logUsage. rewrite Hline. split; [done|].
  split; [by apply (stringify_one_line _ _ Hline)|].
  by rewrite (parse_stringify _ _ Hline).
Qed.

Section LogLines.

Lemma log_line_stringify c :
  Json.stringify
    (log_entry (logged_timestamp c) (logged_tool c) (logged_args c) (logged_summary c))
  = Some (log_line c).
Proof.
  unfold log_line, serialized, to_value, jsval_to_value, log_entry.
  by rewrite stringify_JObj.
Qed.

Lemma log_line_decodes c : Json.parse (log_line c) = Some (log_value c).
Proof. by rewrite (parse_stringify _ _ (log_line_stringify c)). Qed.

Lemma log_line_one_line c : one_line (log_line c).
Proof. apply (stringify_one_line _ _ (log_line_stringify c)). Qed.

(** A line of the log is between braces. *)
Lemma log_line_braces c : exists body, log_line c = String "{" (body +:+ "}").
Proof.
  unfold log_line, serialized, to_value, jsval_to_value, log_entry.
  rewrite stringify_JObj. eexists. reflexivity.
Qed.

Lemma logUsage_line c file :
  logUsage None (logged_timestamp c) (logged_tool c) (logged_args c)
    (logged_summary c) file
  = Some (default "" file +:+ log_line c +:+ String LF "").
Proof. unfold logUsage. by rewrite log_line_stringify. Qed.

End LogLines.

Section Trimming.

Lemma trim_end_kept a c blanks :
  is_StrWhiteSpaceChar c = false -> trim_end blanks = "" ->
  trim_end (a +:+ String c blanks) = a +:+ String c "".
Proof.
  intros Hc Hb. induction a as [|x a IH]; simpl.
  - by rewrite Hb, Hc.
  - rewrite IH. by destruct a.
Qed.

Lemma split_line_app line rest :
  one_line line ->
  Preview.split LF (line +:+ String LF rest) = line :: Preview.split LF rest.
Proof.
  induction line as [|c line IH]; simpl; [done|]. unfold one_line. simpl.
  destruct (Ascii.eqb c LF) eqn:E; [done|]. simpl. intros Hl.
  by rewrite IH.
Qed.

Lemma split_line line : one_line line -> Preview.split LF line = [line].
Proof.
  induction line as [|c line IH]; simpl; [done|]. unfold one_line. simpl.
  destruct (Ascii.eqb c LF) eqn:E; [done|]. simpl. intros Hl.
  by rewrite IH.
Qed.

Lemma split_joined lines :
  Forall one_line lines -> lines <> [] ->
  Preview.split LF (Json.join (String LF "") lines) = lines.
Proof.
  induction 1 as [|x lines Hx Hl IH]; [done|]. intros _.
  destruct lines as [|y lines]; [by apply split_line|].
  rewrite join_cons by done.
  set (rest := Json.join (String LF "") (y :: lines)) in *.
  change (x +:+ String LF "" +:+ rest) with (x +:+ String LF rest).
  rewrite split_line_app by done. by rewrite IH.
Qed.

End Trimming.

Section Analysis.

Lemma log_after_text calls :
  log_after calls = match calls with [] => None | _ => Some (log_text calls) end.
Proof.
  unfold log_after.
  assert (forall file,
            fold_left
              (fun file c =>
                 logUsage None (logged_timestamp c) (logged_tool c) (logged_args c)
                   (logged_summary c) file) calls file
            = match calls with
              | [] => file
              | _ => Some (default "" file +:+ log_text calls)
              end) as Hfold.
  { induction calls as [|c calls IH]; intros file; [done|].
    cbn [fold_left]. rewrite logUsage_line, IH.
    cbn [log_text]. generalize (log_line c). intros line.
    destruct calls as [|c' calls]; [done|].
    generalize (log_text (c' :: calls)). intros text.
    cbn [default id]. unfold id. by rewrite !string_app_assoc. }
  rewrite Hfold. by destruct calls.
Qed.

Lemma log_text_joined calls :
  calls <> [] ->
  log_text calls
  = Json.join (String LF "") (map log_line calls) +:+ String LF "".
Proof.
  induction calls as [|c calls IH]; [done|]. intros _.
  destruct calls as [|c' calls]; [reflexivity|].
  change (log_text (c :: c' :: calls))
    with (log_line c +:+ String LF (log_text (c' :: calls))).
  rewrite IH by done. cbn [map].
  generalize (log_line c) (log_line c') (map log_line calls). intros x y l.
  rewrite (join_cons _ x (y :: l)) by done.
  generalize (Json.join (String LF "") (y :: l)). intros rest.
  by rewrite !string_app_assoc.
Qed.

(** The joined lines of a log start and end with a brace. *)
Lemma joined_braces calls :
  calls <> [] ->
  exists body,
    Json.join (String LF "") (map log_line calls) = String "{" (body +:+ "}").
Proof.
  induction calls as [|c calls IH]; [done|]. intros _.
  destruct (log_line_braces c) as [body Hc].
  destruct calls as [|c' calls]; [by exists body|].
  destruct IH as [body' Hrest]; [done|].
  simpl map in *. rewrite join_cons by done. rewrite Hrest, Hc.
  exists (body +:+ "}" +:+ String LF "" +:+ String "{" body').
  simpl. by rewrite !string_app_assoc.
Qed.

Lemma trim_log_text calls :
  calls <> [] ->
  trim (log_text calls) = Json.join (String LF "") (map log_line calls).
Proof.
  intros Hne. rewrite log_text_joined by done.
  destruct (joined_braces calls Hne) as [body ->].
  unfold trim.
  transitivity (trim_end (String "{" body +:+ String "}" (String LF ""))).
  { cbn [String.append]. do 2 f_equal. by rewrite string_app_assoc. }
  by rewrite trim_end_kept.
Qed.

Lemma trim_log_line c : truthy (trim (log_line c)) = true.
Proof.
  destruct (log_line_braces c) as [body ->]. unfold trim.
  change (trim_start (String "{" (body +:+ "}"))) with (String "{" (body +:+ "}")).
  simpl. by destruct (trim_end (body +:+ "}")).
Qed.

Lemma calls_of_snoc tool calls c :
  calls_of tool (calls ++ [c])
  = calls_of tool calls ++ (if decide (logged_tool c = tool) then [c] else []).
Proof.
  unfold calls_of. by rewrite filter_app.
Qed.

Lemma analyze_line_logged calls st c :
  well_logged c -> usage_of calls st ->
  usage_of (calls ++ [c]) (analyze_line st (log_line c)).
Proof.
  intros (Htool & _ & Hts) (Htotal & Husage & Herrors & Hstamps).
  unfold analyze_line. rewrite trim_log_line, log_line_decodes.
  cbn [negb]. unfold analyze_entry, log_value.
  cbn [get_property obj_get String.eqb Ascii.eqb Bool.eqb default id ToBoolean
       ToString totalCalls toolUsage errors recentTimestamps].
  assert (truthy (logged_tool c) = true) as -> by (by destruct (logged_tool c)).
  assert (truthy (logged_timestamp c) = true) as ->
    by (by destruct (logged_timestamp c)).
  assert (Hcount : forall tool,
            obj_get tool
              (property_set (logged_tool c)
                 match obj_get (logged_tool c) (toolUsage st) with
                 | Some n => if n =? 0 then 1 else n + 1
                 | None => 1
                 end (toolUsage st))
            = match calls_of tool (calls ++ [c]) with
              | [] => None
              | found => Some (Z.of_nat (List.length found))
              end).
  { intros tool. rewrite calls_of_snoc.
    destruct (decide (logged_tool c = tool)) as [<-|Hne].
    - rewrite property_set_get_eq, Husage.
      destruct (calls_of (logged_tool c) calls) as [|c0 found]; [done|].
      simpl. f_equal. rewrite length_app. simpl.
      destruct (Z.eqb_spec (Z.pos (Pos.of_succ_nat (List.length found))) 0); lia.
    - rewrite property_set_get_ne by done. rewrite app_nil_r. apply Husage. }
  assert (Hlen : Z.of_nat (List.length calls) + 1
                 = Z.of_nat (List.length (calls ++ [c]))).
  { rewrite length_app. simpl. lia. }
  assert (Herr : error_lines (calls ++ [c])
                 = error_lines calls
                   ++ (if startsWith (logged_summary c) "Error"
                       then ["[" +:+ logged_tool c +:+ "] " +:+ logged_summary c]
                       else [])).
  { unfold error_lines. rewrite omap_app. simpl.
    by destruct (startsWith (logged_summary c) "Error"). }
  assert (Hst : map (fun c => JStr (logged_timestamp c)) (calls ++ [c])
                = map (fun c => JStr (logged_timestamp c)) calls
                  ++ [JStr (logged_timestamp c)]).
  { by rewrite map_app. }
  destruct (startsWith (logged_summary c) "Error") eqn:Es;
    cbn [totalCalls toolUsage errors recentTimestamps];
    (split; [by rewrite Htotal|]); (split; [exact Hcount|]);
    rewrite Herr, Hst, Herrors, Hstamps; by rewrite ?app_nil_r.
Qed.

Lemma analyze_lines_logged calls :
  Forall well_logged calls ->
  usage_of calls
    (fold_left analyze_line (map log_line calls)
       {| totalCalls := 0; toolUsage := []; errors := []; recentTimestamps := [] |}).
Proof.
  induction calls as [|c calls IH] using rev_ind; intros Hw.
  { by repeat split. }
  apply Forall_app in Hw as [Hw Hc]. apply Forall_inv in Hc.
  rewrite map_app, fold_left_app. cbn [map fold_left].
  apply analyze_line_logged; [exact Hc|]. by apply IH.
Qed.

Lemma last_last_n {A : Type} (l : list A) n : (0 < n)%nat -> last (last_n n l) = last l.
Proof.
  intros Hn. unfold last_n.
  destruct l as [|x l _] using rev_ind; [done|].
  rewrite length_app. simpl.
  rewrite skipn_app.
  replace (List.length l + 1 - n - List.length l)%nat with O by lia.
  simpl. by rewrite !last_snoc.
Qed.

Lemma last_mapped {A B : Type} (f : A -> B) (l : list A) :
  last (map f l) = option_map f (last l).
Proof.
  destruct l as [|x l _] using rev_ind; [done|].
  rewrite map_app. cbn [map]. by rewrite !last_snoc.
Qed.

Lemma analyze_lines_log_after calls :
  Forall well_logged calls ->
  usage_of calls (analyze_lines (default "" (log_after calls))).
Proof.
  intros Hw. rewrite log_after_text.
  destruct calls as [|c calls]; [by repeat split|].
  cbn [default id]. unfold analyze_lines.
  rewrite trim_log_text by done. rewrite split_joined.
  - by apply analyze_lines_logged.
  - apply Forall_map, Forall_forall. intros c' _. apply log_line_one_line.
  - done.
Qed.

(** X24: read by [analyze_usage], a log that [logUsage] wrote from
    no file, each call with a timestamp and a tool name that are not empty,
    the name none that a plain object inherits, gives: as total_calls the
    number of the calls; in tool_breakdown, for each tool, the number of
    its calls, and no entry for a tool that was not called; as
    recent_errors the first five distinct lines made of the tool in
    brackets and the summary, for the summaries that start with Error, in
    the order of the calls; as last_activity the timestamp of the last
    call. *)
Theorem analyze_usage_reads_the_log (calls : list Logged) (t : nat) (data : string) :
  Forall well_logged calls ->
  log_after calls = Some data ->
  exists breakdown,
    (forall tool,
       obj_get tool breakdown
       = match calls_of tool calls with
         | [] => None
         | found => Some (Z.of_nat (List.length found))
         end)
    /\ analyze_usage_handler (FileText t data)
       = Fulfilled t
           (ToolSuccess
              (JObj [("total_calls", JNum (Int (Z.of_nat (List.length calls))));
                     ("tool_breakdown",
                       JObj (map (fun kv => (fst kv, JNum (Int (snd kv)))) breakdown));
                     ("recent_errors",
                       JArr (map JStr
                               (firstn 5 (distinct_from [] (error_lines calls)))));
                     ("last_activity",
                       match last calls with
                       | Some c => JStr (logged_timestamp c)
                       | None => JUndefined
                       end)])
              None).
Proof.
  intros Hw Hdata.
  pose proof (analyze_lines_log_after calls Hw) as Hst.
  rewrite Hdata in Hst. cbn [default id] in Hst.
  destruct Hst as (Htotal & Husage & Herrors & Hstamps).
  exists (toolUsage (analyze_lines data)). split; [exact Husage|].
  unfold analyze_usage_handler, analyze_usage_data.
  rewrite Htotal, Herrors, Hstamps, last_last_n by lia.
  do 7 f_equal. rewrite last_mapped. by destruct (last calls).
Qed.

End Analysis.

Lemma analyze_usage_reads_the_log_witness :
  exists breakdown,
    (forall tool,
       obj_get tool breakdown
       = match calls_of tool two_calls with
         | [] => None
         | found => Some (Z.of_nat (List.length found))
         end)
    /\ analyze_usage_handler (FileText 1 (default "" (log_after two_calls)))
       = Fulfilled 1
           (ToolSuccess
              (JObj [("total_calls", JNum (Int (Z.of_nat (List.length two_calls))));
                     ("tool_breakdown",
                       JObj (map (fun kv => (fst kv, JNum (Int (snd kv)))) breakdown));
                     ("recent_errors",
                       JArr (map JStr
                               (firstn 5 (distinct_from [] (error_lines two_calls)))));
                     ("last_activity",
                       match last two_calls with
                       | Some c => JStr (logged_timestamp c)
                       | None => JUndefined
                       end)])
              None).
Proof.
  apply (analyze_usage_reads_the_log two_calls 1).
  - repeat constructor; try discriminate;
      apply (bool_decide_unpack _); vm_compute; exact I.
  - vm_compute. reflexivity.
Defined.
